(** * Toons flag chase: a model of [src/main.cpp] and its race protocol

    The program races up to three toons (RoadRunner, Coyote, YosemiteSam)
    across a grid.  Every toon is driven by its own thread; the board is
    shared and guarded by [board.mtx]; the flags [gameOver], [winner],
    [totalSteps], [sam_on_cd] and [gStop] are atomics.

    The embedding is shallow.  The pure helpers of the source
    ([inBounds], [occ], [try_move], [pick_step], ...) are functions; the
    worker lambda is cut at its atomic actions (one atomic load or store,
    one lock acquisition, one lock-held block, one lock release) and the
    interleaving of the threads is a small-step function [step] driven by
    the events of a schedule.  The mutex is part of the state, so mutual
    exclusion is proved, not assumed.  The one access to the board made
    without the mutex, the read of [frozen_until[t]] at the freeze test,
    is taken to be atomic, and the freeze test as a whole is one action:
    its clock reading and its read of the stamp are not separated by
    actions of other threads.  The source reads the clock first, so in a
    real run a stamp written between the two reads can send the worker
    into the frozen branch although it is not ahead of the clock when it
    is read; no statement below is about that case.

    Modelling conventions.
    - [int] is [Z].  Counters are incremented with two's complement
      wrap-around ([int_incr]); statements about "+1" carry the premise
      that the counter is below [INT_MAX].  Coordinates stay within two
      cells of the board, so their sums are plain [Z] sums.
    - [mt19937] draws are inputs of the step ([Draws]): the outcome of a
      [chance(trng) < p] comparison is a boolean, the outcome of a
      [uniform_int_distribution<int>(a,b)] an integer checked to lie in
      [a..b].  Where odds matter (the proposal), the draws carry weights
      ([Dist]): [chance(trng) < p] is true with probability [p], an
      integer distribution gives every value of its range the same
      weight, and successive draws are independent.
    - [steady_clock] is a [Z]-valued clock that only moves forward; one
      atomic action reads it at one instant.
    - Frames written to [cout] during the race do not feed back into the
      state and are left out; the final report of [main] is modelled. *)

From Stdlib Require Import ZArith QArith Bool Ascii String Lia DecimalString.
From stdpp Require Import base list.

Open Scope Z_scope.

(** ** Machine integers *)

Definition INT_MAX : Z := 2147483647.

(** The value of a 32-bit two's complement pattern. *)
Definition wrap_int (x : Z) : Z := (x + 2 ^ 31) mod 2 ^ 32 - 2 ^ 31.

(** [x++] / [++x] on an [int] or [atomic<int>]. *)
Definition int_incr (x : Z) : Z := wrap_int (x + 1).

(** ** Data model *)

(** [struct Pos { int r; int c; }] *)
Record Pos : Type := mkPos { r : Z; c : Z }.

#[global] Instance Pos_eq_dec : EqDecision Pos.
Proof. solve_decision. Defined.

#[global] Instance Pos_inhabited : Inhabited Pos := populate (mkPos 0 0).

(** [struct Options], without [seed] and [stacked].  The three [double]
    thresholds are left out as well: each only occurs in a comparison
    [chance(trng) < p], whose outcome is an input of the model. *)
Record Options : Type := mkOptions {
  rows : Z;
  cols : Z;
  toons : Z;
  maxSteps : Z;
  delay_ms : Z;
  sam_cooldown_ms : Z;
  sam_freeze_ms : Z
}.

(** The defaults of the struct. *)
Definition default_options : Options :=
  {| rows := 18; cols := 36; toons := 3; maxSteps := 10000;
     delay_ms := 120; sam_cooldown_ms := 1500; sam_freeze_ms := 1000 |}.

(** The tail of [parseArgs]: clamping of the values read from [argv]. *)
Definition parseArgs (o : Options) : Options :=
  {| rows := Z.max 5 (rows o);
     cols := Z.max 20 (cols o);
     toons := Z.max 1 (Z.min (toons o) 3);
     maxSteps := Z.max 100 (maxSteps o);
     delay_ms := delay_ms o;
     sam_cooldown_ms := sam_cooldown_ms o;
     sam_freeze_ms := sam_freeze_ms o |}.

(** [steady_clock::time_point::min()], in clock ticks. *)
Definition time_point_min : Z := - 2 ^ 63.

(** [milliseconds(n)] in clock ticks (nanoseconds). *)
Definition milliseconds (n : Z) : Z := 1000000 * n.

(** [struct Board].  The two mutexes live in the race state below, and
    the render buffer [grid] is recomputed by [rebuild_grid]. *)
Record Board : Type := mkBoardRec {
  R : Z;
  C : Z;
  cell : list (list ascii);
  finishCol : Z;
  flag : Pos;
  toonPos : list Pos;
  frozen_until : list Z;
  steps : list Z
}.

Definition set_cell (v : list (list ascii)) (b : Board) : Board :=
  {| R := R b; C := C b; cell := v; finishCol := finishCol b; flag := flag b;
     toonPos := toonPos b; frozen_until := frozen_until b; steps := steps b |}.

Definition set_toonPos (v : list Pos) (b : Board) : Board :=
  {| R := R b; C := C b; cell := cell b; finishCol := finishCol b; flag := flag b;
     toonPos := v; frozen_until := frozen_until b; steps := steps b |}.

Definition set_frozen_until (v : list Z) (b : Board) : Board :=
  {| R := R b; C := C b; cell := cell b; finishCol := finishCol b; flag := flag b;
     toonPos := toonPos b; frozen_until := v; steps := steps b |}.

Definition set_steps (v : list Z) (b : Board) : Board :=
  {| R := R b; C := C b; cell := cell b; finishCol := finishCol b; flag := flag b;
     toonPos := toonPos b; frozen_until := frozen_until b; steps := v |}.

(** The constructor [Board(r, c, nToons)]. *)
Definition Board_new (nr nc nToons : Z) : Board :=
  {| R := nr; C := nc;
     cell := replicate (Z.to_nat nr) (replicate (Z.to_nat nc) "."%char);
     finishCol := nc - 1;
     flag := mkPos (Z.quot nr 2) (nc - 2);
     toonPos := replicate (Z.to_nat nToons) (mkPos 0 0);
     frozen_until := replicate (Z.to_nat nToons) time_point_min;
     steps := replicate (Z.to_nat nToons) 0 |}.

(** [Board::inBounds] *)
Definition inBounds (b : Board) (row col : Z) : bool :=
  (0 <=? row) && (row <? R b) && (0 <=? col) && (col <? C b).

(** [board.cell[row][col]]; the source only reads it after [inBounds]. *)
Definition cell_at (b : Board) (row col : Z) : option ascii :=
  cell b !! Z.to_nat row ≫= λ line, line !! Z.to_nat col.

Definition is_wall (b : Board) (row col : Z) : bool :=
  match cell_at b row col with
  | Some ch => Ascii.eqb ch "#"
  | None => false
  end.

(** [enum Toon] *)
Definition ROADRUNNER : nat := 0.
Definition COYOTE : nat := 1.
Definition YOSEMITESAM : nat := 2.

Definition TOON_CH : list ascii := ["R"; "C"; "Y"]%char.
Definition TOON_NM : list string := ["RoadRunner"; "Coyote"; "YosemiteSam"]%string.

(** ** Random draws *)

(** What one atomic action may draw from the toon's generator:
    [d_chance] is the outcome of the comparison [chance(trng) < p],
    [d_coin] the value of [uniform_int_distribution<int>(0,1)] and
    [d_pick] the value of the [dist(0,4)] inside [pick_step]. *)
Record Draws : Type := mkDraws { d_chance : bool; d_coin : Z; d_pick : Z }.

Definition draws_ok (d : Draws) : bool :=
  (0 <=? d_coin d) && (d_coin d <=? 1) && (0 <=? d_pick d) && (d_pick d <=? 4).

(** The table of [pick_step]: the four neighbours and "stay". *)
Definition dirs : list Pos :=
  [mkPos (-1) 0; mkPos 1 0; mkPos 0 (-1); mkPos 0 1; mkPos 0 0].

(** [pick_step]: [dirs[dist(rng)]]. *)
Definition pick_step (i : Z) : Pos := dirs !!! Z.to_nat i.

(** ** Movement *)

(** [(flag > cur) - (flag < cur)] on one axis. *)
Definition toward (goal cur : Z) : Z := Z.b2z (goal >? cur) - Z.b2z (goal <? cur).

(** The direction of the flag seen from [cur]. *)
Definition flag_dir (b : Board) (cur : Pos) : Pos :=
  mkPos (toward (r (flag b)) (r cur)) (toward (c (flag b)) (c cur)).

(** The first lock-held block of a tick (lines 199-207): the proposed
    step of toon [t]. *)
Definition propose (b : Board) (t : nat) (d : Draws) : Pos :=
  let cur := toonPos b !!! t in
  let dir := flag_dir b cur in
  if d_chance d then
    if (d_coin d =? 0) && negb (r dir =? 0) then mkPos (r dir) 0
    else if negb (c dir =? 0) then mkPos 0 (c dir)
    else pick_step (d_pick d)
  else pick_step (d_pick d).

(** The loop of the lambda [occ], from index [k] on. *)
Fixpoint occ_from (k : nat) (ps : list Pos) (t : nat) (row col : Z) : bool :=
  match ps with
  | [] => false
  | p :: ps' =>
      if negb (k =? t)%nat && (r p =? row) && (c p =? col) then true
      else occ_from (S k) ps' t row col
  end.

(** [occ(row, col)]: some toon other than [t] stands on the cell. *)
Definition occ (b : Board) (t : nat) (row col : Z) : bool :=
  occ_from 0 (toonPos b) t row col.

(** The condition of [try_move]. *)
Definition valid_dest (b : Board) (t : nat) (dest : Pos) : bool :=
  inBounds b (r dest) (c dest) && (c dest <? finishCol b)
  && negb (is_wall b (r dest) (c dest)) && negb (occ b t (r dest) (c dest)).

(** [board.toonPos[t] = dest; board.steps[t]++;] *)
Definition commit_move (b : Board) (t : nat) (dest : Pos) : Board :=
  set_steps (alter int_incr t (steps b)) (set_toonPos (<[t := dest]> (toonPos b)) b).

(** The lambda [try_move]: the new board and the returned flag (which is
    also what it stores into [moved] when it succeeds). *)
Definition try_move (b : Board) (t : nat) (dest : Pos) : Board * bool :=
  if valid_dest b t dest then (commit_move b t dest, true) else (b, false).

(** [blocked] of line 223. *)
Definition blocked (b : Board) (t : nat) (nxt : Pos) : bool :=
  negb (inBounds b (r nxt) (c nxt) && (c nxt <? finishCol b))
  || is_wall b (r nxt) (c nxt) || occ b t (r nxt) (c nxt).

Definition add_pos (p q : Pos) : Pos := mkPos (r p + r q) (c p + c q).

(** The result of the move block: board, [totalSteps], [moved]. *)
Record MoveResult : Type := mkMoveResult {
  mr_board : Board;
  mr_total : Z;
  mr_moved : bool
}.

(** Lines 214-238, executed while holding [board.mtx]: the optional
    Coyote jump followed by the normal move.  [jump_roll] is the outcome
    of [chance(trng) < opt.coy_jump_chance]. *)
Definition move_block (b : Board) (total : Z) (t : nat) (step : Pos)
    (jump_roll : bool) : MoveResult :=
  let cur := toonPos b !!! t in
  let nxt := add_pos cur step in
  let after_jump :=
    if blocked b t nxt && (t =? COYOTE)%nat && jump_roll then
      let hop := add_pos nxt step in
      let '(b1, ok) := try_move b t hop in
      if ok then mkMoveResult b1 (int_incr total) true
      else mkMoveResult b1 total false
    else mkMoveResult b total false in
  if negb (mr_moved after_jump) then
    let '(b2, ok) := try_move (mr_board after_jump) t nxt in
    if ok then mkMoveResult b2 (int_incr (mr_total after_jump)) true
    else mkMoveResult b2 (mr_total after_jump) (mr_moved after_jump)
  else after_jump.

(** The condition of the win check (line 243). *)
Definition wins (b : Board) (p : Pos) : bool :=
  ((r p =? r (flag b)) && (c p =? c (flag b))) || (c p >=? finishCol b - 1).

(** ** Abilities *)

(** The target scan of YosemiteSam (lines 255-259), from index [k] on
    for [n] more iterations: nearest toon other than [t] that is not
    frozen at instant [nw], first found on ties. *)
Fixpoint scan_targets (b : Board) (t : nat) (nw : Z) (k n : nat)
    (target bestD : Z) : Z * Z :=
  match n with
  | O => (target, bestD)
  | S n' =>
      if (k =? t)%nat then scan_targets b t nw (S k) n' target bestD
      else if nw <? frozen_until b !!! k then scan_targets b t nw (S k) n' target bestD
      else
        let d := Z.abs (r (toonPos b !!! k) - r (toonPos b !!! t))
                 + Z.abs (c (toonPos b !!! k) - c (toonPos b !!! t)) in
        if d <? bestD then scan_targets b t nw (S k) n' (Z.of_nat k) d
        else scan_targets b t nw (S k) n' target bestD
  end.

(** [target] after the scan; [-1] when nobody is eligible. *)
Definition sam_target (o : Options) (b : Board) (t : nat) (nw : Z) : Z :=
  fst (scan_targets b t nw 0 (Z.to_nat (toons o)) (-1) 1000000000).

(** The lock-held block of the shot (lines 254-267). *)
Definition sam_block (o : Options) (b : Board) (t : nat) (nw : Z) : Board :=
  let target := sam_target o b t nw in
  if negb (target =? -1) then
    set_frozen_until
      (<[Z.to_nat target := nw + milliseconds (sam_freeze_ms o)]> (frozen_until b)) b
  else b.

(** The step of the RoadRunner burst (line 279). *)
Definition burst_step (b : Board) (cur : Pos) (pick : Z) : Pos :=
  let dir := flag_dir b cur in
  if negb (Z.abs (r dir) + Z.abs (c dir) =? 0) then
    mkPos (if negb (r dir =? 0) then r dir else 0) (if r dir =? 0 then c dir else 0)
  else pick_step pick.

(** The lock-held block of the burst (lines 275-286): board and
    [totalSteps]. *)
Definition burst_block (b : Board) (total : Z) (t : nat) (pick : Z) : Board * Z :=
  let cur := toonPos b !!! t in
  let nxt := add_pos cur (burst_step b cur pick) in
  if valid_dest b t nxt then (commit_move b t nxt, int_incr total) else (b, total).

(** ** Rendering and the final report *)

(** [g[row][col] = x] on a vector of vectors. *)
Definition put {A : Type} (row col : Z) (x : A) (g : list (list A)) : list (list A) :=
  alter (λ line, <[Z.to_nat col := x]> line) (Z.to_nat row) g.

(** The last loop of [rebuild_grid]. *)
Fixpoint overlay_toons (ps : list Pos) (chs : list ascii) (g : list (list ascii))
    : list (list ascii) :=
  match ps, chs with
  | p :: ps', ch :: chs' => overlay_toons ps' chs' (put (r p) (c p) ch g)
  | _, _ => g
  end.

(** [rebuild_grid]: the static cells, the finish column, the flag and the
    toons, in that order. *)
Definition rebuild_grid (b : Board) : list (list ascii) :=
  let g1 := map (λ line, <[Z.to_nat (finishCol b) := "|"%char]> line) (cell b) in
  let g2 := put (r (flag b)) (c (flag b)) "F"%char g1 in
  overlay_toons (toonPos b) TOON_CH g2.

#[global] Instance string_inhabited : Inhabited string := populate ""%string.

Definition to_string (n : Z) : string := NilZero.string_of_int (Z.to_int n).

Definition dashes (n : Z) : string := string_of_list_ascii (replicate (Z.to_nat n) "-"%char).

(** [print_board], as the list of lines it writes. *)
Definition print_board (b : Board) (g : list (list ascii)) (total : Z) : list string :=
  let border := ("+" ++ dashes (C b) ++ "+")%string in
  [border]
  ++ map (λ line, ("|" ++ string_of_list_ascii line ++ "|")%string) g
  ++ [border; ("steps: " ++ to_string total)%string; ""%string].

(** One line of the summary loop (line 306). *)
Definition summary_line (nm : string) (ch : ascii) (n : Z) : string :=
  (nm ++ " (" ++ String ch "" ++ ") steps: " ++ to_string n)%string.

Fixpoint summary_lines (nms : list string) (chs : list ascii) (ns : list Z) : list string :=
  match nms, chs, ns with
  | nm :: nms', ch :: chs', n :: ns' => summary_line nm ch n :: summary_lines nms' chs' ns'
  | _, _, _ => []
  end.

(** Lines 304-308: what [main] writes after the final board. *)
Definition final_summary (b : Board) (win : Z) : list string :=
  if win >=? 0 then
    ["=== Final Summary ==="%string]
    ++ summary_lines TOON_NM TOON_CH (steps b)
    ++ [("Winner: " ++ TOON_NM !!! Z.to_nat win)%string]
  else [].

(** Lines 301-308. *)
Definition final_report (b : Board) (total win : Z) : list string :=
  print_board b (rebuild_grid b) total ++ final_summary b win.

(** ** The race state *)

(** Program points of the worker lambda: one per atomic action. *)
Inductive PC : Type :=
| LoopTest       (* 192: gameOver.load() *)
| StopTest       (* 192: gStop.load() *)
| FreezeTest     (* 194: now() < frozen_until[t] *)
| FrozenSleep    (* 194: sleep_for(base_sleep); continue *)
| ProposeLock    (* 199: lock board.mtx *)
| ProposeBlock   (* 200-207 *)
| ProposeUnlock  (* 208, then moved = false *)
| MoveLock       (* 213 *)
| MoveBlock      (* 214-238 *)
| WinCheck       (* 241-243 *)
| StoreWinner    (* 244: winner.store(t) *)
| StoreGameOver  (* 244: gameOver.store(true) *)
| MoveUnlock     (* 247 *)
| SamTest        (* 250 *)
| SamRoll        (* 251 *)
| SamLock        (* 254 *)
| SamBlock       (* 255-266 *)
| SamUnlock      (* 267 *)
| SamCooldown    (* 268 *)
| BurstTest      (* 273 *)
| BurstRoll      (* 274 *)
| BurstLock      (* 275 *)
| BurstBlock     (* 276-286 *)
| BurstUnlock    (* 287 *)
| PaceSleep      (* 291 *)
| Exited.

#[global] Instance PC_eq_dec : EqDecision PC.
Proof. solve_decision. Defined.

(** The program points at which the worker owns [board.mtx]. *)
Definition holds_lock (p : PC) : bool :=
  match p with
  | ProposeBlock | ProposeUnlock
  | MoveBlock | WinCheck | StoreWinner | StoreGameOver | MoveUnlock
  | SamBlock | SamUnlock
  | BurstBlock | BurstUnlock => true
  | _ => false
  end.

(** The locals of one worker that survive an atomic action. *)
Record Worker : Type := mkWorker { pc : PC; step_ : Pos; moved : bool }.

#[global] Instance Worker_inhabited : Inhabited Worker :=
  populate (mkWorker Exited (mkPos 0 0) false).

Definition with_pc (p : PC) (w : Worker) : Worker :=
  {| pc := p; step_ := step_ w; moved := moved w |}.
Definition with_step (v : Pos) (w : Worker) : Worker :=
  {| pc := pc w; step_ := v; moved := moved w |}.
Definition with_moved (v : bool) (w : Worker) : Worker :=
  {| pc := pc w; step_ := step_ w; moved := v |}.

(** Program points of [main] once the workers are started. *)
Inductive MainPC : Type :=
| MainWait       (* 298: gameOver.load() *)
| MainStopTest   (* 298: gStop.load() *)
| MainJoin       (* 299 *)
| MainReport     (* 302-308 *)
| MainReturned.  (* 309: return 0 *)

#[global] Instance MainPC_eq_dec : EqDecision MainPC.
Proof. solve_decision. Defined.

(** Everything the threads share, the clock, and the threads' own
    control state. *)
Record Race : Type := mkRace {
  opt : Options;
  board : Board;
  mtx : option nat;          (* owner of board.mtx *)
  gameOver : bool;
  winner : Z;
  totalSteps : Z;
  sam_on_cd : bool;
  gStop : bool;
  now : Z;                   (* steady_clock::now() *)
  timers : list Z;           (* wake-up instants of the detached cooldown threads *)
  workers : list Worker;
  main_pc : MainPC;
  stdout : list string       (* what main wrote at the end *)
}.

Definition set_board (v : Board) (s : Race) : Race :=
  mkRace (opt s) v (mtx s) (gameOver s) (winner s) (totalSteps s) (sam_on_cd s)
    (gStop s) (now s) (timers s) (workers s) (main_pc s) (stdout s).
Definition set_mtx (v : option nat) (s : Race) : Race :=
  mkRace (opt s) (board s) v (gameOver s) (winner s) (totalSteps s) (sam_on_cd s)
    (gStop s) (now s) (timers s) (workers s) (main_pc s) (stdout s).
Definition set_gameOver (v : bool) (s : Race) : Race :=
  mkRace (opt s) (board s) (mtx s) v (winner s) (totalSteps s) (sam_on_cd s)
    (gStop s) (now s) (timers s) (workers s) (main_pc s) (stdout s).
Definition set_winner (v : Z) (s : Race) : Race :=
  mkRace (opt s) (board s) (mtx s) (gameOver s) v (totalSteps s) (sam_on_cd s)
    (gStop s) (now s) (timers s) (workers s) (main_pc s) (stdout s).
Definition set_totalSteps (v : Z) (s : Race) : Race :=
  mkRace (opt s) (board s) (mtx s) (gameOver s) (winner s) v (sam_on_cd s)
    (gStop s) (now s) (timers s) (workers s) (main_pc s) (stdout s).
Definition set_sam_on_cd (v : bool) (s : Race) : Race :=
  mkRace (opt s) (board s) (mtx s) (gameOver s) (winner s) (totalSteps s) v
    (gStop s) (now s) (timers s) (workers s) (main_pc s) (stdout s).
Definition set_gStop (v : bool) (s : Race) : Race :=
  mkRace (opt s) (board s) (mtx s) (gameOver s) (winner s) (totalSteps s) (sam_on_cd s)
    v (now s) (timers s) (workers s) (main_pc s) (stdout s).
Definition set_now (v : Z) (s : Race) : Race :=
  mkRace (opt s) (board s) (mtx s) (gameOver s) (winner s) (totalSteps s) (sam_on_cd s)
    (gStop s) v (timers s) (workers s) (main_pc s) (stdout s).
Definition set_timers (v : list Z) (s : Race) : Race :=
  mkRace (opt s) (board s) (mtx s) (gameOver s) (winner s) (totalSteps s) (sam_on_cd s)
    (gStop s) (now s) v (workers s) (main_pc s) (stdout s).
Definition set_workers (v : list Worker) (s : Race) : Race :=
  mkRace (opt s) (board s) (mtx s) (gameOver s) (winner s) (totalSteps s) (sam_on_cd s)
    (gStop s) (now s) (timers s) v (main_pc s) (stdout s).
Definition set_main_pc (v : MainPC) (s : Race) : Race :=
  mkRace (opt s) (board s) (mtx s) (gameOver s) (winner s) (totalSteps s) (sam_on_cd s)
    (gStop s) (now s) (timers s) (workers s) v (stdout s).
Definition set_stdout (v : list string) (s : Race) : Race :=
  mkRace (opt s) (board s) (mtx s) (gameOver s) (winner s) (totalSteps s) (sam_on_cd s)
    (gStop s) (now s) (timers s) (workers s) (main_pc s) v.

(** Control transfer and local updates of worker [t]. *)
Definition goto (t : nat) (p : PC) (s : Race) : Race :=
  set_workers (alter (with_pc p) t (workers s)) s.
Definition set_step (t : nat) (v : Pos) (s : Race) : Race :=
  set_workers (alter (with_step v) t (workers s)) s.
Definition set_moved (t : nat) (v : bool) (s : Race) : Race :=
  set_workers (alter (with_moved v) t (workers s)) s.

(** [lock_guard<mutex> lk(board.mtx)]: enabled only while the mutex is
    free. *)
Definition acquire (t : nat) (p : PC) (s : Race) : option Race :=
  match mtx s with
  | None => Some (goto t p (set_mtx (Some t) s))
  | Some _ => None
  end.

(** The end of the guarded scope. *)
Definition release (s : Race) : Race := set_mtx None s.

(** ** One atomic action of a worker *)

(** The next atomic action of worker [t], with the draws [d] at its
    disposal.  [None]: the worker cannot move (it waits for the mutex or
    has left its loop) or the draws are outside their distributions. *)
Definition run_worker (t : nat) (d : Draws) (s : Race) : option Race :=
  match workers s !! t with
  | None => None
  | Some w =>
      if negb (draws_ok d) then None else
      match pc w with
      | LoopTest =>
          Some (goto t (if gameOver s then Exited else StopTest) s)
      | StopTest =>
          Some (goto t (if gStop s then Exited else FreezeTest) s)
      | FreezeTest =>
          Some (goto t (if now s <? frozen_until (board s) !!! t
                        then FrozenSleep else ProposeLock) s)
      | FrozenSleep => Some (goto t LoopTest s)
      | ProposeLock => acquire t ProposeBlock s
      | ProposeBlock =>
          Some (goto t ProposeUnlock (set_step t (propose (board s) t d) s))
      | ProposeUnlock =>
          Some (goto t MoveLock (set_moved t false (release s)))
      | MoveLock => acquire t MoveBlock s
      | MoveBlock =>
          let res := move_block (board s) (totalSteps s) t (step_ w) (d_chance d) in
          Some (goto t WinCheck
                  (set_moved t (mr_moved res)
                     (set_totalSteps (mr_total res) (set_board (mr_board res) s))))
      | WinCheck =>
          Some (goto t (if negb (gameOver s) && wins (board s) (toonPos (board s) !!! t)
                        then StoreWinner else MoveUnlock) s)
      | StoreWinner => Some (goto t StoreGameOver (set_winner (Z.of_nat t) s))
      | StoreGameOver => Some (goto t MoveUnlock (set_gameOver true s))
      | MoveUnlock => Some (goto t SamTest (release s))
      | SamTest =>
          Some (goto t (if (t =? YOSEMITESAM)%nat && negb (gameOver s)
                        then SamRoll else BurstTest) s)
      | SamRoll =>
          Some (goto t (if negb (sam_on_cd s) && d_chance d
                        then SamLock else BurstTest) s)
      | SamLock => acquire t SamBlock s
      | SamBlock =>
          Some (goto t SamUnlock (set_board (sam_block (opt s) (board s) t (now s)) s))
      | SamUnlock => Some (goto t SamCooldown (release s))
      | SamCooldown =>
          Some (goto t BurstTest
                  (set_timers (timers s ++ [now s + milliseconds (sam_cooldown_ms (opt s))])
                     (set_sam_on_cd true s)))
      | BurstTest =>
          Some (goto t (if (t =? ROADRUNNER)%nat && moved w && negb (gameOver s)
                        then BurstRoll else PaceSleep) s)
      | BurstRoll =>
          Some (goto t (if d_chance d then BurstLock else PaceSleep) s)
      | BurstLock => acquire t BurstBlock s
      | BurstBlock =>
          let '(b', total') := burst_block (board s) (totalSteps s) t (d_pick d) in
          Some (goto t BurstUnlock (set_totalSteps total' (set_board b' s)))
      | BurstUnlock => Some (goto t PaceSleep (release s))
      | PaceSleep => Some (goto t LoopTest s)
      | Exited => None
      end
  end.

(** The next action of [main] after it started the workers. *)
Definition run_main (s : Race) : option Race :=
  match main_pc s with
  | MainWait => Some (set_main_pc (if gameOver s then MainJoin else MainStopTest) s)
  | MainStopTest => Some (set_main_pc (if gStop s then MainJoin else MainWait) s)
  | MainJoin =>
      if forallb (λ w, bool_decide (pc w = Exited)) (workers s)
      then Some (set_main_pc MainReport s) else None
  | MainReport =>
      Some (set_main_pc MainReturned
              (set_stdout (final_report (board s) (totalSteps s) (winner s)) s))
  | MainReturned => None
  end.

(** A detached cooldown thread wakes up, not before its instant, and
    clears [sam_on_cd]. *)
Definition fire_timer (i : nat) (s : Race) : option Race :=
  match timers s !! i with
  | Some wake =>
      if wake <=? now s
      then Some (set_timers (delete i (timers s)) (set_sam_on_cd false s))
      else None
  | None => None
  end.

(** What the scheduler and the environment can do next. *)
Inductive Event : Type :=
| Run (t : nat) (d : Draws)   (* worker t performs its next atomic action *)
| Advance (dt : Z)            (* the steady clock moves forward *)
| Sigint                      (* on_sigint *)
| TimerFire (i : nat)         (* a cooldown thread finishes *)
| MainRun.                    (* main performs its next action *)

Definition step (e : Event) (s : Race) : option Race :=
  match e with
  | Run t d => run_worker t d s
  | Advance dt => if 0 <=? dt then Some (set_now (now s + dt) s) else None
  | Sigint => Some (set_gStop true s)
  | TimerFire i => fire_timer i s
  | MainRun => run_main s
  end.

(** A schedule, left to right. *)
Fixpoint run (es : list Event) (s : Race) : option Race :=
  match es with
  | [] => Some s
  | e :: es' => match step e s with Some s' => run es' s' | None => None end
  end.

(** ** Start-up *)

(** A draw [(rr(rng), cc(rng))] of [main] lies in [0..R-1] x [0..C-3]. *)
Definition draw_ok (b : Board) (d : Z * Z) : bool :=
  (0 <=? d.1) && (d.1 <=? R b - 1) && (0 <=? d.2) && (d.2 <=? C b - 3).

(** The wall loop (lines 151-155) with [n] walls still to place; a draw
    on the flag is repeated.  [None] when the draws run out. *)
Fixpoint sprinkle_walls (n : nat) (b : Board) (ds : list (Z * Z)) {struct ds}
    : option (Board * list (Z * Z)) :=
  match n with
  | O => Some (b, ds)
  | S n' =>
      match ds with
      | [] => None
      | d :: ds' =>
          if negb (draw_ok b d) then None
          else if (d.1 =? r (flag b)) && (d.2 =? c (flag b)) then sprinkle_walls n b ds'
          else sprinkle_walls n' (set_cell (put d.1 d.2 "#"%char (cell b)) b) ds'
      end
  end.

(** [used[row][col]] *)
Definition used_at (used : list (list bool)) (row col : Z) : bool :=
  default false (used !! Z.to_nat row ≫= λ line, line !! Z.to_nat col).

(** The placement loop (lines 162-165) for toons [t], [t+1], ...
    ([n] of them): draw until the cell is neither used nor a wall. *)
Fixpoint place_toons (t n : nat) (used : list (list bool)) (b : Board)
    (ds : list (Z * Z)) {struct ds} : option (Board * list (Z * Z)) :=
  match n with
  | O => Some (b, ds)
  | S n' =>
      match ds with
      | [] => None
      | d :: ds' =>
          if negb (draw_ok b d) then None
          else if used_at used d.1 d.2 || is_wall b d.1 d.2
          then place_toons t n used b ds'
          else place_toons (S t) n' (put d.1 d.2 true used)
                 (set_toonPos (<[t := mkPos d.1 d.2]> (toonPos b)) b) ds'
      end
  end.

(** [main] up to the start of the workers (lines 139-166 and 295-296),
    for the options [o] returned by [parseArgs], the draws [ds] of the
    generator of [main] and the clock reading [t0]. *)
Definition init (o : Options) (ds : list (Z * Z)) (t0 : Z) : option Race :=
  let b0 := Board_new (rows o) (cols o) (toons o) in
  '(b1, ds1) ← sprinkle_walls (Z.to_nat (Z.quot (R b0 * C b0) 30)) b0 ds;
  let used :=
    put (r (flag b1)) (c (flag b1)) true
      (replicate (Z.to_nat (R b1)) (replicate (Z.to_nat (C b1)) false)) in
  '(b2, _) ← place_toons 0 (Z.to_nat (toons o)) used b1 ds1;
  Some {| opt := o; board := b2; mtx := None; gameOver := false; winner := -1;
          totalSteps := 0; sam_on_cd := false; gStop := false; now := t0;
          timers := []; 
          workers := replicate (Z.to_nat (toons o)) (mkWorker LoopTest (mkPos 0 0) false);
          main_pc := MainWait; stdout := [] |}.

(** The states of all runs of the program. *)
Definition reachable (s : Race) : Prop :=
  ∃ o ds t0 s0 es, init (parseArgs o) ds t0 = Some s0 ∧ run es s0 = Some s.

(** ** Invariants of the race, as predicates *)

Definition INT_MIN : Z := - 2 ^ 31.

Definition is_int (n : Z) : Prop := INT_MIN <= n <= INT_MAX.

(** The number of toons, as a vector size. *)
Definition ntoons (s : Race) : nat := Z.to_nat (toons (opt s)).

(** The per-toon vectors all have [opt.toons] entries and the counters
    are [int]s. *)
Record sized (s : Race) : Prop := mkSized {
  sz_pos : length (toonPos (board s)) = ntoons s;
  sz_steps : length (steps (board s)) = ntoons s;
  sz_frozen : length (frozen_until (board s)) = ntoons s;
  sz_workers : length (workers s) = ntoons s;
  sz_total : is_int (totalSteps s);
  sz_counts : Forall is_int (steps (board s));
  sz_finish : finishCol (board s) = C (board s) - 1;
  sz_flag : flag (board s) = mkPos (Z.quot (R (board s)) 2) (C (board s) - 2)
}.

(** A cell a toon may stand on. *)
Definition free_cell (b : Board) (p : Pos) : Prop :=
  inBounds b (r p) (c p) = true ∧ c p < finishCol b ∧ is_wall b (r p) (c p) = false.

(** Every toon stands on a legal cell and no two share one. *)
Record placed (b : Board) : Prop := mkPlaced {
  pl_free : ∀ t p, toonPos b !! t = Some p → free_cell b p;
  pl_apart : ∀ t1 t2 p, toonPos b !! t1 = Some p → toonPos b !! t2 = Some p → t1 = t2
}.

(** Mutual exclusion: the workers inside a guarded block are exactly the
    owner of the mutex. *)
Definition lock_ok (s : Race) : Prop :=
  ∀ t w, workers s !! t = Some w → (holds_lock (pc w) = true ↔ mtx s = Some t).

(** The election protocol: [winner] and [gameOver] move together. *)
Record election_ok (s : Race) : Prop := mkElection {
  el_flag : gameOver s = true → winner s ≠ -1;
  el_range : winner s = -1 ∨ (0 <= winner s < Z.of_nat (ntoons s));
  el_pending : winner s ≠ -1 → gameOver s = false →
               ∃ w, workers s !! Z.to_nat (winner s) = Some w ∧ pc w = StoreGameOver;
  el_store1 : ∀ t w, workers s !! t = Some w → pc w = StoreWinner →
              gameOver s = false ∧ winner s = -1;
  el_store2 : ∀ t w, workers s !! t = Some w → pc w = StoreGameOver →
              gameOver s = false ∧ winner s = Z.of_nat t
}.

Record Inv (s : Race) : Prop := mkInv {
  inv_sized : sized s;
  inv_placed : placed (board s);
  inv_lock : lock_ok s;
  inv_election : election_ok s
}.

(** The parts of a board that the race never writes. *)
Definition layout (b : Board) : Z * Z * list (list ascii) * Z * Pos :=
  (R b, C b, cell b, finishCol b, flag b).

(** A board and a step used to exercise the statements below: the
    smallest board [parseArgs] lets through, without walls. *)
Definition demo_board (ps : list Pos) : Board :=
  set_toonPos ps (Board_new 5 20 (Z.of_nat (length ps))).

(** The proposal rule in the words of the specification, to be compared
    with [propose]: in the biased branch an axis is drawn; the step goes
    one cell along it toward the flag, or along the other axis when the
    drawn one is already aligned; the uniform pick is used in the
    unbiased branch and when both axes are aligned. *)
Definition propose_claimed (b : Board) (t : nat) (d : Draws) : Pos :=
  let cur := toonPos b !!! t in
  let dir := flag_dir b cur in
  if d_chance d && negb ((r dir =? 0) && (c dir =? 0)) then
    if d_coin d =? 0
    then (if negb (r dir =? 0) then mkPos (r dir) 0 else mkPos 0 (c dir))
    else (if negb (c dir =? 0) then mkPos 0 (c dir) else mkPos (r dir) 0)
  else pick_step (d_pick d).

(** The three ways one atomic action of worker [t] can change the board
    at clock reading [nw]: not at all, by a validated move of [t], or by
    freezing a toon other than [t] that is not frozen. *)
Inductive board_step (t : nat) (nw : Z) (b : Board) : Board → Prop :=
| bs_same : board_step t nw b b
| bs_move dest :
    valid_dest b t dest = true → board_step t nw b (commit_move b t dest)
| bs_freeze k v :
    k ≠ t → ¬ (nw < frozen_until b !!! k) →
    board_step t nw b (set_frozen_until (<[k := v]> (frozen_until b)) b).

(** A [rows] x [cols] vector of vectors. *)
Definition dims {A : Type} (nr nc : nat) (g : list (list A)) : Prop :=
  length g = nr ∧ Forall (λ line, length line = nc) g.

(** The win check is not skipped: a worker about to store the election
    flags stands on a winning cell, and a worker at the end of the move
    block that stands on a winning cell has seen or made [gameOver]. *)
Record checked (s : Race) : Prop := mkChecked {
  ck_store : ∀ t w, workers s !! t = Some w →
             pc w = StoreWinner ∨ pc w = StoreGameOver →
             wins (board s) (toonPos (board s) !!! t) = true;
  ck_unlock : ∀ t w, workers s !! t = Some w → pc w = MoveUnlock →
              wins (board s) (toonPos (board s) !!! t) = true → gameOver s = true
}.

(** The same race with another step cap. *)
Definition set_maxSteps (m : Z) (o : Options) : Options :=
  {| rows := rows o; cols := cols o; toons := toons o; maxSteps := m;
     delay_ms := delay_ms o; sam_cooldown_ms := sam_cooldown_ms o;
     sam_freeze_ms := sam_freeze_ms o |}.

Definition with_cap (m : Z) (s : Race) : Race :=
  mkRace (set_maxSteps m (opt s)) (board s) (mtx s) (gameOver s) (winner s)
    (totalSteps s) (sam_on_cd s) (gStop s) (now s) (timers s) (workers s)
    (main_pc s) (stdout s).

(** ** Concrete runs

    Two small races used to exercise the statements: a lone RoadRunner
    two cells left of the flag, and the full roster with a short
    cooldown.  Both use the smallest board and three walls in the top
    left corner. *)

(** No roll succeeds and the uniform pick is "stay". *)
Definition stay_draw : Draws := mkDraws false 0 4.

(** Every roll succeeds and the coin picks the column axis. *)
Definition go_draw : Draws := mkDraws true 1 4.

(** [n] consecutive atomic actions of worker [t], all with draws [d]. *)
Definition actions (t : nat) (d : Draws) (n : nat) : list Event := replicate n (Run t d).

Definition idle_race : Race :=
  {| opt := default_options; board := Board_new 0 0 0; mtx := None; gameOver := false;
     winner := -1; totalSteps := 0; sam_on_cd := false; gStop := false; now := 0;
     timers := []; workers := []; main_pc := MainReturned; stdout := [] |}.

(** The state after start-up with draws [ds] and schedule [es]. *)
Definition race_after (o : Options) (ds : list (Z * Z)) (es : list Event) : Race :=
  default idle_race (init (parseArgs o) ds 0 ≫= run es).

Definition solo_options : Options := mkOptions 5 20 1 100 120 1500 1000.
Definition solo_draws : list (Z * Z) := [(0, 0); (0, 1); (0, 2); (2, 16)].

Definition trio_options : Options := mkOptions 5 20 3 100 120 10 1000.
Definition trio_draws : list (Z * Z) :=
  [(0, 0); (0, 1); (0, 2); (2, 3); (2, 5); (4, 4)].

(** One full tick of YosemiteSam in which he moves and shoots, followed
    by the end of the cooldown. *)
Definition sam_shot_tick : list Event :=
  actions YOSEMITESAM go_draw 18 ++ [Advance (milliseconds 10); TimerFire 0].

(** The lone RoadRunner about to enter its first move block with the
    step "stay". *)
Definition solo_stay_events : list Event := actions ROADRUNNER stay_draw 7.
Definition solo_stay : Race :=
  Eval vm_compute in race_after solo_options solo_draws solo_stay_events.

(** The lone RoadRunner at the end of the guarded burst block of its
    first tick, and after the release of the mutex. *)
Definition solo_burst_events : list Event := actions ROADRUNNER go_draw 15.
Definition solo_burst : Race :=
  Eval vm_compute in race_after solo_options solo_draws solo_burst_events.
Definition solo_burst_released_events : list Event := actions ROADRUNNER go_draw 16.
Definition solo_burst_released : Race :=
  Eval vm_compute in race_after solo_options solo_draws solo_burst_released_events.

(** The lone RoadRunner in its second tick, before and after
    [winner.store]. *)
Definition solo_store_events : list Event := actions ROADRUNNER go_draw 26.
Definition solo_store : Race :=
  Eval vm_compute in race_after solo_options solo_draws solo_store_events.
Definition solo_stored : Race :=
  Eval vm_compute in race_after solo_options solo_draws (actions ROADRUNNER go_draw 27).

(** The lone RoadRunner after a hundred ticks of "stay" (fourteen
    actions each); after one more such tick with [main] polling in
    between; and interrupted instead, up to the return of [main]. *)
Definition solo_capped_events : list Event := actions ROADRUNNER stay_draw 1400.
Definition solo_capped : Race :=
  Eval vm_compute in race_after solo_options solo_draws solo_capped_events.
Definition solo_past_cap_events : list Event :=
  solo_capped_events ++ [MainRun; MainRun] ++ actions ROADRUNNER stay_draw 14.
Definition solo_past_cap : Race :=
  Eval vm_compute in race_after solo_options solo_draws solo_past_cap_events.
Definition solo_capped_abort_events : list Event :=
  solo_capped_events ++ [Sigint] ++ actions ROADRUNNER stay_draw 2
  ++ [MainRun; MainRun; MainRun; MainRun].
Definition solo_capped_abort : Race :=
  Eval vm_compute in race_after solo_options solo_draws solo_capped_abort_events.

(** The lone RoadRunner interrupted after its first tick, with [main]
    about to report. *)
Definition solo_report_events : list Event :=
  actions ROADRUNNER stay_draw 14 ++ [Sigint] ++ actions ROADRUNNER stay_draw 2
  ++ [MainRun; MainRun; MainRun].
Definition solo_report : Race :=
  Eval vm_compute in race_after solo_options solo_draws solo_report_events.

(** The roster after the first shot of YosemiteSam (at the Coyote). *)
Definition trio_shot : Race :=
  Eval vm_compute in race_after trio_options trio_draws sam_shot_tick.

(** The frozen Coyote at its freeze test, and one tick of YosemiteSam
    later. *)
Definition trio_gate_events : list Event := sam_shot_tick ++ actions COYOTE go_draw 2.
Definition trio_gate : Race :=
  Eval vm_compute in race_after trio_options trio_draws trio_gate_events.
Definition trio_gate_later : Race :=
  Eval vm_compute in race_after trio_options trio_draws (trio_gate_events ++ sam_shot_tick).

(** YosemiteSam in the guarded block of his third shot, with both other
    toons frozen; after the cooldown store; and at the roll of his next
    tick. *)
Definition trio_no_target_events : list Event :=
  sam_shot_tick ++ sam_shot_tick ++ actions YOSEMITESAM go_draw 13.
Definition trio_no_target : Race :=
  Eval vm_compute in race_after trio_options trio_draws trio_no_target_events.
Definition trio_cooldown_events : list Event :=
  trio_no_target_events ++ actions YOSEMITESAM go_draw 3.
Definition trio_cooldown : Race :=
  Eval vm_compute in race_after trio_options trio_draws trio_cooldown_events.
Definition trio_next_roll_events : list Event :=
  trio_cooldown_events ++ actions YOSEMITESAM go_draw 13.
Definition trio_next_roll : Race :=
  Eval vm_compute in race_after trio_options trio_draws trio_next_roll_events.

(** The program points around the freeze gate: between the loop test and
    the sleep of a frozen toon (and after the loop). *)
Definition quiet (p : PC) : bool :=
  match p with
  | LoopTest | StopTest | FreezeTest | FrozenSleep | Exited => true
  | _ => false
  end.

(** How many atomic actions a worker at program point [p] has left once
    the stop flag is set: the rest of its tick, the two loop tests, and
    out. *)
Definition rank (p : PC) : nat :=
  match p with
  | Exited => 0 | StopTest => 1 | LoopTest => 2
  | FrozenSleep => 3 | PaceSleep => 3
  | BurstUnlock => 4 | BurstBlock => 5 | BurstLock => 6 | BurstRoll => 7
  | BurstTest => 8
  | SamCooldown => 9 | SamUnlock => 10 | SamBlock => 11 | SamLock => 12
  | SamRoll => 13 | SamTest => 14
  | MoveUnlock => 15 | StoreGameOver => 16 | StoreWinner => 17 | WinCheck => 18
  | MoveBlock => 19 | MoveLock => 20
  | ProposeUnlock => 21 | ProposeBlock => 22 | ProposeLock => 23
  | FreezeTest => 24
  end%nat.

Definition main_rank (p : MainPC) : nat :=
  match p with
  | MainReturned => 0 | MainReport => 1 | MainJoin => 2
  | MainStopTest => 3 | MainWait => 4
  end%nat.

(** A bound on the number of actions of the program's own threads that
    are left after an abort. *)
Definition remaining (s : Race) : nat :=
  (sum_list (map (λ w, rank (pc w)) (workers s)) + main_rank (main_pc s))%nat.

(** The events that are actions of the program's own threads (workers
    and [main]), as opposed to the clock, the signal and the timers. *)
Definition is_action (e : Event) : bool :=
  match e with
  | Run _ _ | MainRun => true
  | _ => false
  end.

(** The mutex is owned by an existing worker. *)
Definition owner_ok (s : Race) : Prop :=
  ∀ t, mtx s = Some t → is_Some (workers s !! t).

(** ** Further invariants, as predicates *)

(** What start-up fixes for the whole race: the grid is [R] x [C] with
    the dimensions [parseArgs] lets through, every cell is open or a
    wall, and the walls lie in columns [0..C-3]. *)
Record layout_ok (b : Board) : Prop := mkLayoutOk {
  lo_rows : 5 <= R b;
  lo_cols : 20 <= C b;
  lo_finish : finishCol b = C b - 1;
  lo_flag : flag b = mkPos (Z.quot (R b) 2) (C b - 2);
  lo_dims : dims (Z.to_nat (R b)) (Z.to_nat (C b)) (cell b);
  lo_cells : ∀ row col ch, 0 <= row → 0 <= col → cell_at b row col = Some ch →
             ch = "."%char ∨ ch = "#"%char;
  lo_walls : ∀ row col, 0 <= row → 0 <= col → is_wall b row col = true →
             col <= C b - 3
}.

(** The board was built from the clamped options. *)
Record setup_ok (s : Race) : Prop := mkSetupOk {
  su_layout : layout_ok (board s);
  su_rows : R (board s) = rows (opt s);
  su_cols : C (board s) = cols (opt s);
  su_toons : 1 <= toons (opt s) <= 3
}.

(** [a + b + ...] over a vector of [int]s, without wrap-around. *)
Definition sumZ (l : list Z) : Z := foldr Z.add 0 l.

(** The two small races right after start-up. *)
Definition solo_start : Race :=
  Eval vm_compute in race_after solo_options solo_draws [].
Definition trio_start : Race :=
  Eval vm_compute in race_after trio_options trio_draws [].

(** The distance YosemiteSam's scan computes between toons [k] and [t]. *)
Definition toon_dist (b : Board) (k t : nat) : Z :=
  Z.abs (r (toonPos b !!! k) - r (toonPos b !!! t))
  + Z.abs (c (toonPos b !!! k) - c (toonPos b !!! t)).

(** Toon [k] can be shot by [t] at instant [nw]: it is another toon and
    it is not frozen. *)
Definition eligible (b : Board) (t : nat) (nw : Z) (k : nat) : Prop :=
  k ≠ t ∧ ¬ (nw < frozen_until b !!! k).

(** The lone RoadRunner just before the guarded burst of its first
    tick. *)
Definition solo_burst_prev : Race :=
  Eval vm_compute in race_after solo_options solo_draws (actions ROADRUNNER go_draw 14).

(** The program points of the shot, from the acquisition of the mutex to
    the cooldown store. *)
Definition shooting (p : PC) : bool :=
  match p with
  | SamLock | SamBlock | SamUnlock | SamCooldown => true
  | _ => false
  end.

(** The program points of the burst after its test. *)
Definition bursting (p : PC) : bool :=
  match p with
  | BurstRoll | BurstLock | BurstBlock | BurstUnlock => true
  | _ => false
  end.

(** Abilities belong to archetypes: only worker 2 is ever at the shot
    and only worker 0, after a committed move, at the burst. *)
Record roles_ok (s : Race) : Prop := mkRolesOk {
  ro_sam : ∀ t w, workers s !! t = Some w →
           pc w = SamRoll ∨ shooting (pc w) = true → t = YOSEMITESAM;
  ro_burst : ∀ t w, workers s !! t = Some w → bursting (pc w) = true →
             t = ROADRUNNER ∧ moved w = true
}.

(** The cooldown flag and the detached timer threads go together. *)
Record cooldown_ok (s : Race) : Prop := mkCooldownOk {
  cd_on : sam_on_cd s = true → length (timers s) = 1%nat;
  cd_off : sam_on_cd s = false → timers s = [];
  cd_shoot : ∀ t w, workers s !! t = Some w → shooting (pc w) = true →
             sam_on_cd s = false
}.

(** YosemiteSam inside the guarded block of his first shot, and right
    after it. *)
Definition trio_sam_block_events : list Event := actions YOSEMITESAM go_draw 13.

(** Manhattan distance between two cells. *)
Definition manhattan (p q : Pos) : Z := Z.abs (r p - r q) + Z.abs (c p - c q).

(** The program points a worker passes after it stored [gameOver]: the
    rest of its last tick. *)
Definition parked (p : PC) : bool :=
  match p with
  | MoveUnlock | SamTest | BurstTest | PaceSleep | LoopTest | Exited => true
  | _ => false
  end.

(** The recorded winner stands on a winning cell and is on its way out. *)
Definition winner_ok (s : Race) : Prop :=
  ∀ t w, winner s = Z.of_nat t → workers s !! t = Some w →
    wins (board s) (toonPos (board s) !!! t) = true
    ∧ (pc w = StoreGameOver ∨ (gameOver s = true ∧ parked (pc w) = true)).

(** How many atomic actions a worker at program point [p] has left once
    [gameOver] is set: like [rank], but a worker that had already passed
    the first loop test finishes one more tick. *)
Definition rank_win (p : PC) : nat :=
  match p with
  | Exited => 0 | LoopTest => 1
  | FrozenSleep => 2 | PaceSleep => 2
  | BurstUnlock => 3 | BurstBlock => 4 | BurstLock => 5 | BurstRoll => 6
  | BurstTest => 7
  | SamCooldown => 8 | SamUnlock => 9 | SamBlock => 10 | SamLock => 11
  | SamRoll => 12 | SamTest => 13
  | MoveUnlock => 14 | StoreGameOver => 15 | StoreWinner => 16 | WinCheck => 17
  | MoveBlock => 18 | MoveLock => 19
  | ProposeUnlock => 20 | ProposeBlock => 21 | ProposeLock => 22
  | FreezeTest => 23 | StopTest => 24
  end%nat.

Definition main_rank_win (p : MainPC) : nat :=
  match p with
  | MainReturned => 0 | MainReport => 1 | MainJoin => 2
  | MainWait => 3 | MainStopTest => 4
  end%nat.

Definition remaining_win (s : Race) : nat :=
  (sum_list (map (λ w, rank_win (pc w)) (workers s)) + main_rank_win (main_pc s))%nat.

(** [main] reports after the join. *)
Record report_ok (s : Race) : Prop := mkReportOk {
  rp_joined : main_pc s = MainReport ∨ main_pc s = MainReturned →
              ∀ t w, workers s !! t = Some w → pc w = Exited;
  rp_written : main_pc s = MainReturned →
               stdout s = final_report (board s) (totalSteps s) (winner s)
}.

(** The lone RoadRunner after it won, with [main] about to report and
    after the report. *)
Definition solo_won_events : list Event :=
  actions ROADRUNNER go_draw 33 ++ [MainRun; MainRun].
Definition solo_won : Race :=
  Eval vm_compute in race_after solo_options solo_draws solo_won_events.
Definition solo_won_reported_events : list Event := solo_won_events ++ [MainRun].
Definition solo_won_reported : Race :=
  Eval vm_compute in race_after solo_options solo_draws solo_won_reported_events.

(** The program points at which a worker asks for [board.mtx]. *)
Definition at_lock (p : PC) : bool :=
  match p with
  | ProposeLock | MoveLock | SamLock | BurstLock => true
  | _ => false
  end.

(** YosemiteSam inside the guarded block of his first shot while the
    Coyote has come to its first lock acquisition. *)
Definition trio_contended_events : list Event :=
  trio_sam_block_events ++ actions COYOTE go_draw 3.
Definition trio_contended : Race :=
  Eval vm_compute in race_after trio_options trio_draws trio_contended_events.

(** [g[row][col]] on a vector of vectors. *)
Definition grid_at {A : Type} (g : list (list A)) (row col : Z) : option A :=
  g !! Z.to_nat row ≫= λ line, line !! Z.to_nat col.

(** ** A race of two in which the first toon on the goal is passed over *)

(** No toon stands on a winning cell. *)
Definition nobody_wins (s : Race) : bool :=
  forallb (λ p, negb (wins (board s) p)) (toonPos (board s)).

(** RoadRunner and Coyote on the smallest board: the RoadRunner starts two
    cells left of the flag, the Coyote in the top row next to the column
    of the flag. *)
Definition duo_options : Options := mkOptions 5 20 2 100 120 1500 1000.
Definition duo_draws : list (Z * Z) := [(0, 0); (0, 1); (0, 2); (2, 16); (0, 17)].

(** The first tick of the RoadRunner up to the release of the mutex after
    its burst, then the first tick of the Coyote up to its two stores. *)
Definition duo_burst_events : list Event := actions ROADRUNNER go_draw 16.
Definition duo_coyote_events : list Event := actions COYOTE go_draw 11.

Definition duo_start : Race :=
  Eval vm_compute in race_after duo_options duo_draws [].
Definition duo_burst_prev : Race :=
  Eval vm_compute in race_after duo_options duo_draws (actions ROADRUNNER go_draw 14).
Definition duo_burst : Race :=
  Eval vm_compute in race_after duo_options duo_draws duo_burst_events.
Definition duo_recorded : Race :=
  Eval vm_compute in
    race_after duo_options duo_draws (duo_burst_events ++ duo_coyote_events).

(** ** The odds of the proposal *)

(** A finite distribution: outcomes with their weights. *)
Definition Dist (A : Type) : Type := list (Q * A).

Definition dret {A : Type} (x : A) : Dist A := [(1%Q, x)].

Definition dscale {A : Type} (w : Q) (D : Dist A) : Dist A :=
  map (λ wa, ((w * wa.1)%Q, wa.2)) D.

(** Draw from [D], then from [f] of the outcome. *)
Definition dbind {A B : Type} (D : Dist A) (f : A → Dist B) : Dist B :=
  concat (map (λ wa, dscale wa.1 (f wa.2)) D).

(** The probability of the event [E]. *)
Definition prob {A : Type} (E : A → bool) (D : Dist A) : Q :=
  foldr (λ wa acc, if E wa.2 then (wa.1 + acc)%Q else acc) 0%Q D.

(** The outcome of [chance(trng) < p], [chance] being uniform on the
    unit interval: true with probability [p]. *)
Definition chance_lt (p : Q) : Dist bool := [(p, true); ((1 - p)%Q, false)].

(** [uniform_int_distribution<int>(lo, hi)]: every integer of [lo..hi]
    with the same weight. *)
Definition uniform_int_distribution (lo hi : Z) : Dist Z :=
  map (λ i, ((1 # Z.to_pos (hi - lo + 1))%Q, lo + Z.of_nat i))
      (seq 0 (Z.to_nat (hi - lo + 1))).

(** [pick_step(rng)] (lines 69-73). *)
Definition pick_step_dist : Dist Pos :=
  dbind (uniform_int_distribution 0 4) (λ i, dret (pick_step i)).

(** The proposal (lines 200-207) with the odds of its draws: the bias
    test [chance(trng) < 0.70], the coin and [pick_step]. *)
Definition propose_dist (b : Board) (t : nat) : Dist Pos :=
  let cur := toonPos b !!! t in
  let dir := flag_dir b cur in
  dbind (chance_lt 0.70) (λ biased,
    if biased : bool then
      dbind (uniform_int_distribution 0 1) (λ coin,
        if (coin =? 0) && negb (r dir =? 0) then dret (mkPos (r dir) 0)
        else if negb (c dir =? 0) then dret (mkPos 0 (c dir))
        else pick_step_dist)
    else pick_step_dist).

(** The draws a proposal may consume, taken independently of each
    other; [propose] maps each of them to a step. *)
Definition propose_draws : Dist Draws :=
  dbind (chance_lt 0.70) (λ ch,
    dbind (uniform_int_distribution 0 1) (λ coin,
      dbind (uniform_int_distribution 0 4) (λ pick, dret (mkDraws ch coin pick)))).

(** Every element of [l] with the same weight. *)
Definition uniformly {A : Type} (l : list A) : Dist A :=
  map (λ x, ((1 # Pos.of_nat (length l))%Q, x)) l.

Inductive Axis : Type := RowAxis | ColAxis.

(** The odds of the proposal in the words of the specification, to be
    compared with [propose_dist]: with probability 70% an axis is chosen
    with even odds and the step goes one cell along it toward the flag,
    or along the other axis when the chosen one is already aligned; in
    the other 30%, and whenever both axes are aligned, the step is chosen
    uniformly among the four neighbours and "stay". *)
Definition propose_dist_claimed (b : Board) (t : nat) : Dist Pos :=
  let cur := toonPos b !!! t in
  let dir := flag_dir b cur in
  let row_step := mkPos (r dir) 0 in
  let col_step := mkPos 0 (c dir) in
  if (r dir =? 0) && (c dir =? 0) then uniformly dirs
  else
    dbind (chance_lt 0.70) (λ biased,
      if biased : bool then
        dbind (uniformly [RowAxis; ColAxis]) (λ axis,
          match axis with
          | RowAxis => dret (if r dir =? 0 then col_step else row_step)
          | ColAxis => dret (if c dir =? 0 then row_step else col_step)
          end)
      else uniformly dirs).

(** ** Who can stand in the column of the flag *)

(** What holds of a worker at program point [p] whose toon stands at
    [cur] in the column of the flag ([over] is [gameOver], [goal] the
    flag): past its win check it has seen or made [gameOver]; at the
    ability rolls and blocks it cannot be there at all; anywhere else it
    stands on the flag itself, where only a burst can have put it. *)
Definition goal_col_ok (over : bool) (goal : Pos) (p : PC) (cur : Pos) : Prop :=
  match p with
  | WinCheck | StoreWinner | StoreGameOver | Exited => True
  | MoveUnlock | SamTest | BurstTest => over = true
  | PaceSleep | LoopTest => over = true ∨ r cur = r goal
  | SamRoll | SamLock | SamBlock | SamUnlock | SamCooldown
  | BurstRoll | BurstLock | BurstBlock => False
  | BurstUnlock | StopTest | FreezeTest | FrozenSleep
  | ProposeLock | ProposeBlock | ProposeUnlock | MoveLock | MoveBlock => r cur = r goal
  end.

Definition proposer_ok (s : Race) : Prop :=
  ∀ t w cur, workers s !! t = Some w → toonPos (board s) !! t = Some cur →
    c cur = c (flag (board s)) →
    goal_col_ok (gameOver s) (flag (board s)) (pc w) cur.

(** The lone RoadRunner inside the first guarded block of its first
    tick. *)
Definition solo_propose_events : list Event := actions ROADRUNNER go_draw 4.
Definition solo_propose : Race :=
  Eval vm_compute in race_after solo_options solo_draws solo_propose_events.

(** ** Integers *)

Lemma int_incr_small n : INT_MIN <= n < INT_MAX → int_incr n = n + 1.
Proof.
  unfold int_incr, wrap_int, INT_MIN, INT_MAX. intros H.
  rewrite Z.mod_small by lia. lia.
Qed.

Lemma int_incr_is_int n : is_int (int_incr n).
Proof.
  unfold is_int, int_incr, wrap_int, INT_MIN, INT_MAX.
  pose proof (Z.mod_pos_bound (n + 1 + 2 ^ 31) (2 ^ 32) ltac:(lia)). lia.
Qed.

(** ** The movement helpers *)

Lemma occ_from_spec ps k t row col :
  occ_from k ps t row col = true ↔
  ∃ i p, ps !! i = Some p ∧ (k + i)%nat ≠ t ∧ r p = row ∧ c p = col.
Proof.
  revert k. induction ps as [|p ps IH]; intros k; simpl.
  - split; [done|]. intros (i & q & Hq & _). by rewrite lookup_nil in Hq.
  - destruct (negb (k =? t)%nat && (r p =? row) && (c p =? col)) eqn:E.
    + split; [intros _|done]. exists 0%nat, p.
      apply andb_true_iff in E as [E Hc]. apply andb_true_iff in E as [Hk Hr].
      apply negb_true_iff, Nat.eqb_neq in Hk.
      apply Z.eqb_eq in Hr, Hc. rewrite Nat.add_0_r. done.
    + rewrite IH. split.
      * intros (i & q & Hq & Hne & Hr & Hc). exists (S i), q.
        rewrite Nat.add_succ_r. done.
      * intros (i & q & Hq & Hne & Hr & Hc). destruct i as [|i].
        -- simpl in Hq. simplify_eq. rewrite Nat.add_0_r in Hne.
           apply Nat.eqb_neq in Hne. rewrite Hne, !Z.eqb_refl in E. done.
        -- exists i, q. rewrite Nat.add_succ_r in Hne. done.
Qed.

Lemma occ_spec b t row col :
  occ b t row col = true ↔
  ∃ k p, toonPos b !! k = Some p ∧ k ≠ t ∧ r p = row ∧ c p = col.
Proof. unfold occ. by rewrite occ_from_spec. Qed.

Lemma occ_false b t row col :
  occ b t row col = false ↔
  ∀ k p, toonPos b !! k = Some p → k ≠ t → p ≠ mkPos row col.
Proof.
  rewrite <- not_true_iff_false, occ_spec. split.
  - intros H k p Hp Hk ->. apply H. by exists k, (mkPos row col).
  - intros H (k & p & Hp & Hk & <- & <-). apply (H k p Hp Hk). by destruct p.
Qed.

Lemma valid_dest_spec b t dest :
  valid_dest b t dest = true ↔
  inBounds b (r dest) (c dest) = true ∧ c dest < finishCol b
  ∧ is_wall b (r dest) (c dest) = false
  ∧ ∀ k p, toonPos b !! k = Some p → k ≠ t → p ≠ dest.
Proof.
  unfold valid_dest. rewrite !andb_true_iff, !negb_true_iff, Z.ltb_lt, occ_false.
  destruct dest as [dr dc]; simpl. tauto.
Qed.

Lemma blocked_valid b t nxt : blocked b t nxt = negb (valid_dest b t nxt).
Proof.
  unfold blocked, valid_dest.
  destruct (inBounds b (r nxt) (c nxt)), (c nxt <? finishCol b),
    (is_wall b (r nxt) (c nxt)), (occ b t (r nxt) (c nxt)); reflexivity.
Qed.

Lemma is_wall_spec b row col :
  is_wall b row col = false ↔ cell_at b row col ≠ Some "#"%char.
Proof.
  unfold is_wall. destruct (cell_at b row col) as [ch|]; [|done].
  destruct (Ascii.eqb_spec ch "#"); split; congruence.
Qed.

(** What [commit_move] writes and what it leaves alone. *)
Lemma commit_move_pos b t dest :
  (t < length (toonPos b))%nat → toonPos (commit_move b t dest) !! t = Some dest.
Proof. intros. simpl. by apply list_lookup_insert_eq. Qed.

Lemma commit_move_pos_other b t dest k :
  k ≠ t → toonPos (commit_move b t dest) !! k = toonPos b !! k.
Proof. intros. simpl. by apply list_lookup_insert_ne. Qed.

Lemma commit_move_steps b t dest :
  steps (commit_move b t dest) !! t = int_incr <$> steps b !! t.
Proof. simpl. apply list_lookup_alter_eq. Qed.

Lemma commit_move_steps_other b t dest k :
  k ≠ t → steps (commit_move b t dest) !! k = steps b !! k.
Proof. intros. simpl. by apply list_lookup_alter_ne. Qed.

Lemma commit_move_layout b t dest : layout (commit_move b t dest) = layout b.
Proof. reflexivity. Qed.

Lemma try_move_true b t dest :
  valid_dest b t dest = true → try_move b t dest = (commit_move b t dest, true).
Proof. unfold try_move. by intros ->. Qed.

Lemma try_move_false b t dest :
  valid_dest b t dest = false → try_move b t dest = (b, false).
Proof. unfold try_move. by intros ->. Qed.


(** ** Move validation and commit (try_move) *)

(** C5. Applying a step to the destination [cur + dir] checks four
    things: the destination is in bounds, its column is strictly left of
    the finish column, it is not a wall, and no other toon stands on it.
    When all four hold the toon is moved there and its step count grows
    by exactly one (every other toon, the freeze stamps and the layout
    are untouched); when one fails the board is returned as it was.  The
    count is an [int] below [INT_MAX]. *)
Theorem C5_try_move_contract (b : Board) (t : nat) (cur dir : Pos) (n : Z) :
  toonPos b !! t = Some cur →
  steps b !! t = Some n →
  INT_MIN <= n < INT_MAX →
  let dest := add_pos cur dir in
  let ok :=
    inBounds b (r dest) (c dest) = true
    ∧ c dest < finishCol b
    ∧ cell_at b (r dest) (c dest) ≠ Some "#"%char
    ∧ (∀ k p, toonPos b !! k = Some p → k ≠ t → p ≠ dest) in
  (ok →
     ∃ b', try_move b t dest = (b', true)
           ∧ toonPos b' !! t = Some dest
           ∧ steps b' !! t = Some (n + 1)
           ∧ (∀ k, k ≠ t → toonPos b' !! k = toonPos b !! k
                           ∧ steps b' !! k = steps b !! k)
           ∧ frozen_until b' = frozen_until b
           ∧ layout b' = layout b)
  ∧ (¬ ok → try_move b t dest = (b, false)).
Proof.
  intros Hcur Hn Hrange dest ok. split.
  - intros (Hin & Hcol & Hwall & Hocc).
    assert (valid_dest b t dest = true) as Hv.
    { apply valid_dest_spec. by rewrite is_wall_spec. }
    exists (commit_move b t dest). split; [by apply try_move_true|].
    split; [apply commit_move_pos; by eapply lookup_lt_Some|].
    split; [by rewrite commit_move_steps, Hn; simpl; rewrite int_incr_small|].
    split; [|done].
    intros k Hk. by rewrite commit_move_pos_other, commit_move_steps_other.
  - intros Hno. apply try_move_false. apply not_true_iff_false.
    intros Hv. apply Hno. apply valid_dest_spec in Hv.
    unfold ok. by rewrite <- is_wall_spec.
Qed.

(** The contract at work: a toon at (2,3) steps right on an empty
    board. *)
Lemma C5_try_move_contract_witness :
  ∃ b', try_move (demo_board [mkPos 2 3]) 0 (mkPos 2 4) = (b', true)
        ∧ toonPos b' !! 0%nat = Some (mkPos 2 4)
        ∧ steps b' !! 0%nat = Some 1.
Proof.
  destruct (C5_try_move_contract (demo_board [mkPos 2 3]) 0 (mkPos 2 3) (mkPos 0 1) 0)
    as [Hok _]; [reflexivity | reflexivity | unfold INT_MIN, INT_MAX; lia |].
  destruct Hok as (b' & H1 & H2 & H3 & _).
  - repeat split; try reflexivity; try (simpl; lia).
    + vm_compute. discriminate.
    + intros k p Hp Hk. destruct k as [|k]; [done|]. by destruct k.
  - exists b'. auto.
Defined.

(** ** The Coyote jump *)

(** C8. When the Coyote's normal move is blocked and the jump roll
    succeeds, the jump goes to the cell two steps from the current
    position in the proposed direction and is checked by the rule of
    [try_move].  A valid jump moves the Coyote there, adds exactly one to
    its step count and to the global counter, and no normal move follows
    in the same block; an invalid jump leaves everything as it was.  Both
    counters are [int]s below [INT_MAX]. *)
Theorem C8_coyote_jump (b : Board) (total : Z) (cur stp : Pos) (n : Z) :
  toonPos b !! COYOTE = Some cur →
  steps b !! COYOTE = Some n →
  INT_MIN <= n < INT_MAX →
  INT_MIN <= total < INT_MAX →
  blocked b COYOTE (add_pos cur stp) = true →
  let hop := mkPos (r cur + 2 * r stp) (c cur + 2 * c stp) in
  let res := move_block b total COYOTE stp true in
  (valid_dest b COYOTE hop = true →
     toonPos (mr_board res) !! COYOTE = Some hop
     ∧ steps (mr_board res) !! COYOTE = Some (n + 1)
     ∧ mr_total res = total + 1
     ∧ mr_moved res = true
     ∧ (∀ k, k ≠ COYOTE → toonPos (mr_board res) !! k = toonPos b !! k
                           ∧ steps (mr_board res) !! k = steps b !! k))
  ∧ (valid_dest b COYOTE hop = false → res = mkMoveResult b total false).
Proof.
  intros Hcur Hn Hrange Htot Hblk hop res.
  assert (add_pos (add_pos cur stp) stp = hop) as Hhop.
  { unfold hop, add_pos; simpl. f_equal; lia. }
  assert (valid_dest b COYOTE (add_pos cur stp) = false) as Hnxt.
  { rewrite blocked_valid in Hblk. by apply negb_true_iff. }
  unfold res, move_block. rewrite (list_lookup_total_correct _ _ _ Hcur).
  rewrite Hblk, Hhop. simpl. split; intros Hv.
  - rewrite (try_move_true _ _ _ Hv). cbn [mr_board mr_total mr_moved negb].
    split; [apply commit_move_pos; by eapply lookup_lt_Some|].
    split; [by rewrite commit_move_steps, Hn; simpl; rewrite int_incr_small|].
    split; [by apply int_incr_small|]. split; [done|].
    intros k Hk. by rewrite commit_move_pos_other, commit_move_steps_other.
  - rewrite (try_move_false _ _ _ Hv). simpl.
    by rewrite (try_move_false _ _ _ Hnxt).
Qed.

(** The Coyote at (2,3) faces the RoadRunner at (2,4) and hops over it. *)
Lemma C8_coyote_jump_witness :
  let b := demo_board [mkPos 2 4; mkPos 2 3] in
  let res := move_block b 0 COYOTE (mkPos 0 1) true in
  toonPos (mr_board res) !! COYOTE = Some (mkPos 2 5)
  ∧ steps (mr_board res) !! COYOTE = Some 1
  ∧ mr_total res = 1.
Proof.
  intros b res.
  destruct (C8_coyote_jump b 0 (mkPos 2 3) (mkPos 0 1) 0) as [Hjump _];
    [reflexivity | reflexivity | unfold INT_MIN, INT_MAX; lia
    | unfold INT_MIN, INT_MAX; lia | reflexivity |].
  destruct Hjump as (H1 & H2 & H3 & _); [reflexivity|]. auto.
Defined.

(** ** The proposed step *)

Lemma toward_sgn goal cur : toward goal cur = Z.sgn (goal - cur).
Proof.
  unfold toward. destruct (Z.gtb_spec goal cur), (Z.ltb_spec goal cur); simpl; lia.
Qed.

Lemma toward_zero goal cur : toward goal cur = 0 ↔ cur = goal.
Proof. rewrite toward_sgn. lia. Qed.

(** [pick_step] sends the five values of its distribution to the five
    entries of [dirs], one each. *)
Lemma pick_step_cases i :
  0 <= i <= 4 →
  (i = 0 ∧ pick_step i = mkPos (-1) 0) ∨ (i = 1 ∧ pick_step i = mkPos 1 0)
  ∨ (i = 2 ∧ pick_step i = mkPos 0 (-1)) ∨ (i = 3 ∧ pick_step i = mkPos 0 1)
  ∨ (i = 4 ∧ pick_step i = mkPos 0 0).
Proof.
  intros H. assert (i = 0 ∨ i = 1 ∨ i = 2 ∨ i = 3 ∨ i = 4) as Hi by lia.
  destruct Hi as [-> | [-> | [-> | [-> | ->]]]]; auto 10.
Qed.

Lemma pick_step_inj i j :
  0 <= i <= 4 → 0 <= j <= 4 → pick_step i = pick_step j → i = j.
Proof.
  intros Hi Hj.
  destruct (pick_step_cases i Hi) as [[-> ->] | [[-> ->] | [[-> ->] | [[-> ->] | [-> ->]]]]];
  destruct (pick_step_cases j Hj) as [[-> ->] | [[-> ->] | [[-> ->] | [[-> ->] | [-> ->]]]]];
  intros; congruence.
Qed.

(** The proposal, branch by branch, at any position.  In the biased
    branch the coin picks an axis.  Row drawn: one cell along the row
    toward the flag, or along the column when the row is aligned and the
    column is not.  Column drawn: one cell along the column toward the
    flag when the column is not aligned; when it is aligned the step is
    the uniform pick.  Both axes aligned, or the unbiased branch: the
    uniform pick, which takes each of the four neighbours and "stay" for
    exactly one of the five values of its draw. *)
Lemma propose_cases (b : Board) (t : nat) (cur : Pos) (d : Draws) :
  toonPos b !! t = Some cur →
  draws_ok d = true →
  let goal := flag b in
  let row_step := mkPos (Z.sgn (r goal - r cur)) 0 in
  let col_step := mkPos 0 (Z.sgn (c goal - c cur)) in
  (d_chance d = true → d_coin d = 0 → r cur ≠ r goal → propose b t d = row_step)
  ∧ (d_chance d = true → d_coin d = 0 → r cur = r goal → c cur ≠ c goal →
     propose b t d = col_step)
  ∧ (d_chance d = true → d_coin d = 1 → c cur ≠ c goal → propose b t d = col_step)
  ∧ (d_chance d = true → d_coin d = 1 → c cur = c goal →
     propose b t d = pick_step (d_pick d))
  ∧ (d_chance d = true → r cur = r goal → c cur = c goal →
     propose b t d = pick_step (d_pick d))
  ∧ (d_chance d = false → propose b t d = pick_step (d_pick d))
  ∧ (r cur ≠ r goal →
     Z.abs (r goal - (r cur + r row_step)) = Z.abs (r goal - r cur) - 1)
  ∧ (c cur ≠ c goal →
     Z.abs (c goal - (c cur + c col_step)) = Z.abs (c goal - c cur) - 1)
  ∧ (d_coin d = 0 ∨ d_coin d = 1)
  ∧ pick_step (d_pick d) ∈ dirs
  ∧ (∀ p, p ∈ dirs → ∃ i, 0 <= i <= 4 ∧ pick_step i = p
                          ∧ ∀ j, 0 <= j <= 4 → pick_step j = p → j = i).
Proof.
  intros Hcur Hd goal row_step col_step.
  unfold draws_ok in Hd. rewrite !andb_true_iff, !Z.leb_le in Hd.
  destruct Hd as [[[Hc0 Hc1] Hp0] Hp1].
  unfold propose. rewrite (list_lookup_total_correct _ _ _ Hcur).
  unfold flag_dir; simpl. fold goal.
  pose proof (toward_zero (r goal) (r cur)) as Hzr.
  pose proof (toward_zero (c goal) (c cur)) as Hzc.
  rewrite !toward_sgn in *.
  repeat split.
  - intros -> -> Hne. simpl.
    destruct (Z.eqb_spec (Z.sgn (r goal - r cur)) 0) as [E|E]; [|done]. lia.
  - intros -> -> He Hne. simpl.
    destruct (Z.eqb_spec (Z.sgn (r goal - r cur)) 0) as [E|E]; [|lia]. simpl.
    destruct (Z.eqb_spec (Z.sgn (c goal - c cur)) 0) as [E'|E']; [|done]. lia.
  - intros -> -> Hne. simpl.
    destruct (Z.eqb_spec (Z.sgn (c goal - c cur)) 0) as [E'|E']; [|done]. lia.
  - intros -> -> He. simpl.
    destruct (Z.eqb_spec (Z.sgn (c goal - c cur)) 0) as [E'|E']; [done|]. lia.
  - intros -> Her Hec.
    destruct (Z.eqb_spec (Z.sgn (r goal - r cur)) 0) as [E|E]; [|lia].
    destruct (Z.eqb_spec (Z.sgn (c goal - c cur)) 0) as [E'|E']; [|lia].
    by rewrite andb_false_r.
  - by intros ->.
  - simpl. lia.
  - simpl. lia.
  - lia.
  - destruct (pick_step_cases (d_pick d)) as [[_ ->] | [[_ ->] | [[_ ->] | [[_ ->] | [_ ->]]]]];
      [lia | unfold dirs; rewrite !elem_of_cons; tauto..].
  - intros p Hp. unfold dirs in Hp. rewrite !elem_of_cons, elem_of_nil in Hp.
    destruct Hp as [-> | [-> | [-> | [-> | [-> | []]]]]];
      [exists 0 | exists 1 | exists 2 | exists 3 | exists 4];
      (split; [lia|]; split; [reflexivity|]);
      intros j Hj Hpj; apply pick_step_inj; try lia; done.
Qed.

(** Away from the positions a proposing toon can have, [propose] and
    the rule of the specification part: in the column of the flag but
    off its row, with the column drawn, the source does not step along
    the row; it falls through to the uniform pick (here "stay"). *)
Lemma propose_off_the_run :
  let b := demo_board [mkPos 0 18] in
  let d := mkDraws true 1 4 in
  draws_ok d = true
  ∧ flag b = mkPos 2 18
  ∧ propose b 0 d = mkPos 0 0
  ∧ propose_claimed b 0 d = mkPos 1 0.
Proof. repeat split. Qed.

(** ** What the lock-held blocks do to the board *)

Lemma move_block_cases b total t stp j :
  move_block b total t stp j = mkMoveResult b total false
  ∨ ∃ dest, valid_dest b t dest = true
            ∧ move_block b total t stp j
              = mkMoveResult (commit_move b t dest) (int_incr total) true.
Proof.
  unfold move_block.
  set (nxt := add_pos (toonPos b !!! t) stp).
  destruct (blocked b t nxt && (t =? COYOTE)%nat && j).
  - destruct (valid_dest b t (add_pos nxt stp)) eqn:Hhop.
    + rewrite (try_move_true _ _ _ Hhop). cbn. eauto.
    + rewrite (try_move_false _ _ _ Hhop). cbn [mr_moved mr_board mr_total negb].
      destruct (valid_dest b t nxt) eqn:Hn.
      * rewrite (try_move_true _ _ _ Hn). eauto.
      * rewrite (try_move_false _ _ _ Hn). eauto.
  - cbn [mr_moved mr_board mr_total negb].
    destruct (valid_dest b t nxt) eqn:Hn.
    + rewrite (try_move_true _ _ _ Hn). eauto.
    + rewrite (try_move_false _ _ _ Hn). eauto.
Qed.

Lemma burst_block_cases b total t pick :
  burst_block b total t pick = (b, total)
  ∨ ∃ dest, valid_dest b t dest = true
            ∧ burst_block b total t pick = (commit_move b t dest, int_incr total).
Proof.
  unfold burst_block.
  destruct (valid_dest b t _) eqn:Hv; eauto.
Qed.

Lemma scan_targets_spec b t nw n k target bestD :
  (target = -1 ∨ ∃ i, target = Z.of_nat i ∧ i ≠ t ∧ ¬ (nw < frozen_until b !!! i)) →
  let res := fst (scan_targets b t nw k n target bestD) in
  res = -1 ∨ ∃ i, res = Z.of_nat i ∧ i ≠ t ∧ ¬ (nw < frozen_until b !!! i).
Proof.
  revert k target bestD. induction n as [|n IH]; intros k target bestD Ht; [done|].
  simpl. destruct (Nat.eqb_spec k t) as [Hk|Hk]; [by apply IH|].
  destruct (Z.ltb_spec nw (frozen_until b !!! k)) as [Hf|Hf]; [by apply IH|].
  match goal with |- context [if ?x <? bestD then _ else _] => destruct (x <? bestD) end;
    apply IH; [right; exists k; split; [done|]; split; [done|lia] | done].
Qed.

Lemma sam_block_cases o b t nw :
  sam_block o b t nw = b
  ∨ ∃ k, sam_target o b t nw = Z.of_nat k ∧ k ≠ t ∧ ¬ (nw < frozen_until b !!! k)
         ∧ sam_block o b t nw =
           set_frozen_until
             (<[k := nw + milliseconds (sam_freeze_ms o)]> (frozen_until b)) b.
Proof.
  unfold sam_block.
  destruct (scan_targets_spec b t nw (Z.to_nat (toons o)) 0 (-1) 1000000000)
    as [H | (i & H & Hi & Hf)]; [by left | ..]; fold (sam_target o b t nw) in H.
  - rewrite H. by left.
  - right. exists i. rewrite H.
    destruct (Z.eqb_spec (Z.of_nat i) (-1)) as [E|E]; [lia|]. simpl.
    by rewrite Nat2Z.id.
Qed.

(** Every atomic action of a worker changes the board in one of the
    three ways of [board_step]. *)
Lemma board_step_layout t nw b b' : board_step t nw b b' → layout b' = layout b.
Proof. by destruct 1. Qed.

Lemma board_step_sizes t nw b b' :
  board_step t nw b b' →
  length (toonPos b') = length (toonPos b)
  ∧ length (steps b') = length (steps b)
  ∧ length (frozen_until b') = length (frozen_until b).
Proof.
  destruct 1; simpl; rewrite ?length_insert, ?length_alter; done.
Qed.

Lemma board_step_counts t nw b b' :
  board_step t nw b b' → Forall is_int (steps b) → Forall is_int (steps b').
Proof.
  intros Hstep Hall. destruct Hstep; simpl; try done.
  apply Forall_lookup. intros i x Hx.
  destruct (decide (i = t)) as [->|Hne].
  - rewrite list_lookup_alter_eq in Hx. destruct (steps b !! t); simplify_eq/=.
    apply int_incr_is_int.
  - rewrite list_lookup_alter_ne in Hx by done. by eapply (Forall_lookup_1 _ _ _ _ Hall).
Qed.

Lemma free_cell_layout b b' p : layout b' = layout b → free_cell b p → free_cell b' p.
Proof.
  unfold layout, free_cell, inBounds, is_wall, cell_at. intros H.
  injection H as HR HC Hcell Hfin _. by rewrite HR, HC, Hcell, Hfin.
Qed.

Lemma board_step_placed t nw b b' : board_step t nw b b' → placed b → placed b'.
Proof.
  intros Hstep [Hfree Hapart]. pose proof (board_step_layout _ _ _ _ Hstep) as Hlay.
  destruct Hstep as [|dest Hv|k v Hk Hf]; [done|..].
  - apply valid_dest_spec in Hv as (Hin & Hcol & Hwall & Hocc). split.
    + intros i p Hp. eapply free_cell_layout; [done|].
      simpl in Hp.
      apply list_lookup_insert_Some in Hp as [(-> & <- & _) | (_ & Hp)]; [done|].
      by eapply Hfree.
    + intros i j p Hi Hj. simpl in Hi, Hj.
      apply list_lookup_insert_Some in Hi as [(-> & <- & _) | (Hit & Hi)];
      apply list_lookup_insert_Some in Hj as [(-> & Hd & _) | (Hjt & Hj)];
        try done.
      * exfalso. by eapply (Hocc j dest).
      * subst p. exfalso. by eapply (Hocc i dest).
      * by eapply Hapart.
  - split.
    + intros i p Hp. eapply free_cell_layout; [done|]. by eapply Hfree.
    + done.
Qed.

(** ** One atomic action of a worker: case analysis *)

(** Splits a hypothesis [run_worker t d s = Some s'] into the program
    points of the worker; [w] is the worker record, [Hw] its lookup and
    [Hpc] its program point. *)
Ltac worker_cases H w Hw Hpc :=
  unfold run_worker in H;
  match type of H with
  | context [workers ?s !! ?t] =>
      destruct (workers s !! t) as [w|] eqn:Hw; [|discriminate H];
      destruct (negb (draws_ok _)); [discriminate H|];
      destruct (pc w) eqn:Hpc;
      try discriminate H;
      try (unfold acquire in H; destruct (mtx s) eqn:?; [discriminate H|]);
      try (destruct (burst_block _ _ _ _) as [? ?] eqn:?);
      injection H as <-
  end.

Lemma lookup_alter_Some {A} (f : A → A) (l : list A) (t t' : nat) (x : A) :
  alter f t l !! t' = Some x →
  (t' = t ∧ ∃ y, l !! t = Some y ∧ x = f y) ∨ (t' ≠ t ∧ l !! t' = Some x).
Proof.
  destruct (decide (t' = t)) as [->|Hne].
  - rewrite list_lookup_alter_eq. destruct (l !! t) as [y|]; [|done].
    intros [= <-]. left. eauto.
  - rewrite list_lookup_alter_ne by done. auto.
Qed.

Lemma run_worker_board t d s s' :
  run_worker t d s = Some s' → board_step t (now s) (board s) (board s').
Proof.
  intros H. worker_cases H w Hw Hpc; cbn; try apply bs_same.
  - destruct (move_block_cases (board s) (totalSteps s) t (step_ w) (d_chance d))
      as [-> | (dest & Hv & ->)]; cbn; [apply bs_same | by apply bs_move].
  - destruct (sam_block_cases (opt s) (board s) t (now s))
      as [-> | (k & _ & Hk & Hf & ->)]; [apply bs_same | by apply bs_freeze].
  - match goal with Hb : burst_block _ _ _ _ = _ |- _ =>
      destruct (burst_block_cases (board s) (totalSteps s) t (d_pick d))
        as [Hc | (dest & Hv & Hc)]; rewrite Hc in Hb; injection Hb as <- <-
    end; [apply bs_same | by apply bs_move].
Qed.

(** What a worker's action never touches. *)
Lemma run_worker_frame t d s s' :
  run_worker t d s = Some s' →
  opt s' = opt s ∧ gStop s' = gStop s ∧ now s' = now s
  ∧ main_pc s' = main_pc s ∧ stdout s' = stdout s
  ∧ length (workers s') = length (workers s)
  ∧ ∀ t', t' ≠ t → workers s' !! t' = workers s !! t'.
Proof.
  intros H. worker_cases H w Hw Hpc; cbn;
    rewrite ?length_alter; repeat split; try done;
    intros t' Ht'; rewrite ?list_lookup_alter_ne by done; done.
Qed.

Lemma run_worker_total t d s s' :
  run_worker t d s = Some s' → is_int (totalSteps s) → is_int (totalSteps s').
Proof.
  intros H Hint. worker_cases H w Hw Hpc; cbn; try done.
  - destruct (move_block_cases (board s) (totalSteps s) t (step_ w) (d_chance d))
      as [-> | (dest & Hv & ->)]; cbn; [done | apply int_incr_is_int].
  - match goal with Hb : burst_block _ _ _ _ = _ |- _ =>
      destruct (burst_block_cases (board s) (totalSteps s) t (d_pick d))
        as [Hc | (dest & Hv & Hc)]; rewrite Hc in Hb; injection Hb as <- <-
    end; [done | apply int_incr_is_int].
Qed.

(** ** Preservation of the invariants *)

Lemma run_worker_sized t d s s' : run_worker t d s = Some s' → sized s → sized s'.
Proof.
  intros H [H1 H2 H3 H4 H5 H6 H7 H8].
  pose proof (run_worker_board _ _ _ _ H) as Hb.
  pose proof (board_step_sizes _ _ _ _ Hb) as (E1 & E2 & E3).
  pose proof (board_step_layout _ _ _ _ Hb) as Hlay.
  pose proof (run_worker_frame _ _ _ _ H) as (Ho & _ & _ & _ & _ & E4 & _).
  unfold layout in Hlay. injection Hlay as HR HC _ Hfin Hflag.
  split; unfold ntoons in *; rewrite ?Ho, ?E1, ?E2, ?E3, ?E4, ?HR, ?HC, ?Hfin, ?Hflag;
    try done.
  - by eapply run_worker_total.
  - by eapply board_step_counts.
Qed.

Lemma run_worker_lock t d s s' : run_worker t d s = Some s' → lock_ok s → lock_ok s'.
Proof.
  intros H Hlock t' w' Hw'.
  worker_cases H w Hw Hpc; cbn in Hw' |- *;
    repeat match type of Hw' with
    | alter _ _ _ !! _ = Some _ =>
        apply lookup_alter_Some in Hw' as [(-> & ? & Hw' & ->) | (? & Hw')]
    end;
    try done;
    pose proof (Hlock _ _ Hw) as Ht; rewrite Hpc in Ht; simpl in Ht;
    try (pose proof (Hlock _ _ Hw') as Ht');
    repeat match goal with
    | |- context [if ?x then _ else _] => destruct x
    end;
    simpl; try tauto; try (intuition congruence).
Qed.

(** How one atomic action of worker [t] can touch the election flags:
    not at all, by [winner.store(t)], or by [gameOver.store(true)].  A
    worker reaches the first store only from a win check that read
    [gameOver] as false and found its own toon on a winning cell. *)
Lemma run_worker_flags t d s s' :
  run_worker t d s = Some s' →
  ∃ w w', workers s !! t = Some w ∧ workers s' !! t = Some w'
  ∧ ((gameOver s' = gameOver s ∧ winner s' = winner s
      ∧ pc w ≠ StoreWinner ∧ pc w ≠ StoreGameOver ∧ pc w' ≠ StoreGameOver
      ∧ (pc w' = StoreWinner →
         pc w = WinCheck ∧ gameOver s = false
         ∧ wins (board s) (toonPos (board s) !!! t) = true))
     ∨ (pc w = StoreWinner ∧ pc w' = StoreGameOver
        ∧ winner s' = Z.of_nat t ∧ gameOver s' = gameOver s)
     ∨ (pc w = StoreGameOver ∧ pc w' = MoveUnlock
        ∧ gameOver s' = true ∧ winner s' = winner s)).
Proof.
  intros H. worker_cases H w Hw Hpc; exists w; eexists;
    (split; [done|]); cbn; rewrite ?list_lookup_alter_eq, ?Hw;
    (split; [reflexivity|]); cbn; rewrite ?Hpc;
    try (right; left; done); try (right; right; done);
    left;
    repeat match goal with
    | |- context [if ?x then _ else _] => destruct x eqn:?
    end;
    repeat split; try done.
  all: match goal with
       | E : negb (gameOver _) && _ = true |- _ =>
           apply andb_true_iff in E as [E1 E2]; try apply negb_true_iff in E1; done
       end.
Qed.

(** Two workers inside guarded blocks are the same worker. *)
Lemma lock_exclusive s t1 t2 w1 w2 :
  lock_ok s →
  workers s !! t1 = Some w1 → workers s !! t2 = Some w2 →
  holds_lock (pc w1) = true → holds_lock (pc w2) = true → t1 = t2.
Proof.
  intros Hlock H1 H2 L1 L2.
  apply (Hlock _ _ H1) in L1. apply (Hlock _ _ H2) in L2. congruence.
Qed.

Lemma run_worker_election t d s s' :
  run_worker t d s = Some s' → sized s → lock_ok s → election_ok s → election_ok s'.
Proof.
  intros H Hsz Hlock [F1 F2 F3 F4 F5].
  pose proof (run_worker_frame _ _ _ _ H) as (Ho & _ & _ & _ & _ & _ & Hother).
  destruct (run_worker_flags _ _ _ _ H) as (w & w' & Hw & Hw' & Hcases).
  assert (∀ t' x, workers s' !! t' = Some x →
            (t' = t ∧ x = w') ∨ (t' ≠ t ∧ workers s !! t' = Some x)) as Hsplit.
  { intros t' x Hx. destruct (decide (t' = t)) as [->|Hne].
    - left. split; [done|congruence].
    - right. split; [done|]. by rewrite <- Hother. }
  assert (ntoons s' = ntoons s) as Hn by (unfold ntoons; by rewrite Ho).
  destruct Hcases as [(Hg & Hwin & Hp1 & Hp2 & Hp3 & Hp4)
                     | [(Hp & Hp' & Hwin & Hg) | (Hp & Hp' & Hg & Hwin)]].
  - (* the flags are not written *)
    split; rewrite ?Hg, ?Hwin, ?Hn; try done.
    + intros Hne Hgo. destruct (F3 Hne Hgo) as (w0 & Hw0 & Hpc0).
      exists w0. split; [|done]. rewrite Hother; [done|].
      intros Heq. rewrite Heq in Hw0. congruence.
    + intros t' x Hx Hpx. apply Hsplit in Hx as [(-> & ->) | (Hne & Hx)]; [|by eapply F4].
      destruct (Hp4 Hpx) as (Hwc & Hgo & _). split; [done|].
      destruct (decide (winner s = -1)) as [|Hne]; [done|].
      destruct (F3 Hne Hgo) as (w0 & Hw0 & Hpc0).
      assert (Z.to_nat (winner s) = t) as Heq.
      { eapply lock_exclusive; [done..| by rewrite Hpc0 | by rewrite Hwc]. }
      rewrite Heq in Hw0. congruence.
    + intros t' x Hx Hpx. apply Hsplit in Hx as [(-> & ->) | (Hne & Hx)]; [done|].
      by eapply F5.
  - (* winner.store(t) *)
    destruct (F4 _ _ Hw Hp) as (Hgo & Hnone).
    split; rewrite ?Hg, ?Hwin, ?Hn, ?Nat2Z.id; try done.
    + by rewrite Hgo.
    + right. apply lookup_lt_Some in Hw. rewrite (sz_workers _ Hsz) in Hw. lia.
    + intros _ _. by exists w'.
    + intros t' x Hx Hpx. apply Hsplit in Hx as [(-> & ->) | (Hne & Hx)]; [congruence|].
      exfalso. apply Hne.
      eapply lock_exclusive; [done..| by rewrite Hpx | by rewrite Hp].
    + intros t' x Hx Hpx. apply Hsplit in Hx as [(-> & ->) | (Hne & Hx)]; [done|].
      exfalso. apply Hne.
      eapply lock_exclusive; [done..| by rewrite Hpx | by rewrite Hp].
  - (* gameOver.store(true) *)
    destruct (F5 _ _ Hw Hp) as (Hgo & Hwt).
    split; rewrite ?Hg, ?Hwin, ?Hn; try done.
    + intros _. lia.
    + intros t' x Hx Hpx. apply Hsplit in Hx as [(-> & ->) | (Hne & Hx)]; [congruence|].
      exfalso. apply Hne.
      eapply lock_exclusive; [done..| by rewrite Hpx | by rewrite Hp].
    + intros t' x Hx Hpx. apply Hsplit in Hx as [(-> & ->) | (Hne & Hx)]; [congruence|].
      exfalso. apply Hne.
      eapply lock_exclusive; [done..| by rewrite Hpx | by rewrite Hp].
Qed.

(** The events of the environment and of [main] leave the board, the
    workers and the election flags alone. *)
Lemma step_env_frame e s s' :
  step e s = Some s' → (∀ t d, e ≠ Run t d) →
  opt s' = opt s ∧ board s' = board s ∧ workers s' = workers s ∧ mtx s' = mtx s
  ∧ gameOver s' = gameOver s ∧ winner s' = winner s ∧ totalSteps s' = totalSteps s.
Proof.
  intros H Hne. destruct e as [t d|dt| |i|]; simpl in H.
  - by destruct (Hne t d).
  - destruct (0 <=? dt); by simplify_eq.
  - by simplify_eq.
  - unfold fire_timer in H. destruct (timers s !! i); [|done].
    destruct (_ <=? _); by simplify_eq.
  - unfold run_main in H. destruct (main_pc s); try destruct (forallb _ _); by simplify_eq.
Qed.

Lemma step_Inv e s s' : step e s = Some s' → Inv s → Inv s'.
Proof.
  intros H [Hsz Hpl Hlock Hel].
  assert ((∃ t d, e = Run t d) ∨ ¬ (∃ t d, e = Run t d)) as [(t & d & ->)|Hne].
  { destruct e; eauto; right; intros (? & ? & ?); discriminate. }
  - simpl in H. split.
    + by eapply run_worker_sized.
    + eapply board_step_placed; [by eapply run_worker_board|done].
    + by eapply run_worker_lock.
    + by eapply run_worker_election.
  - destruct (step_env_frame e s s' H) as (Ho & Hb & Hw & Hm & Hg & Hwin & Htot).
    { intros t d ->. apply Hne. eauto. }
    destruct Hsz, Hel. unfold ntoons in *.
    split; [split | | | split]; unfold lock_ok, ntoons;
      rewrite ?Ho, ?Hb, ?Hw, ?Hm, ?Hg, ?Hwin, ?Htot; done.
Qed.

Lemma run_Inv es s s' : run es s = Some s' → Inv s → Inv s'.
Proof.
  revert s. induction es as [|e es IH]; intros s H Hinv; simpl in H.
  - by simplify_eq.
  - destruct (step e s) as [s1|] eqn:Hs; [|done].
    eapply IH; [done|]. by eapply step_Inv.
Qed.

(** ** Start-up establishes the invariants *)

Lemma sprinkle_walls_frame n b ds b' ds' :
  sprinkle_walls n b ds = Some (b', ds') →
  R b' = R b ∧ C b' = C b ∧ finishCol b' = finishCol b ∧ flag b' = flag b
  ∧ toonPos b' = toonPos b ∧ frozen_until b' = frozen_until b ∧ steps b' = steps b.
Proof.
  revert n b. induction ds as [|d ds IH]; intros n b H.
  - destruct n; simpl in H; by simplify_eq.
  - destruct n as [|n]; simpl in H; [by simplify_eq|].
    destruct (negb (draw_ok b d)); [done|].
    destruct ((d.1 =? r (flag b)) && (d.2 =? c (flag b))).
    + by apply IH in H.
    + apply IH in H. simpl in H. done.
Qed.

Lemma dims_put {A} nr nc row col (x : A) g : dims nr nc g → dims nr nc (put row col x g).
Proof.
  intros [Hl Hall]. split; unfold put.
  - by rewrite length_alter.
  - apply Forall_lookup. intros i line Hline.
    apply lookup_alter_Some in Hline as [(-> & y & Hy & ->) | (_ & Hline)].
    + rewrite length_insert. by eapply (Forall_lookup_1 _ _ _ _ Hall).
    + by eapply (Forall_lookup_1 _ _ _ _ Hall).
Qed.

Lemma dims_replicate {A} nr nc (x : A) : dims nr nc (replicate nr (replicate nc x)).
Proof.
  split; [by rewrite length_replicate|].
  apply Forall_replicate. by rewrite length_replicate.
Qed.

Lemma used_at_put_same nr nc row col g :
  dims nr nc g → 0 <= row → 0 <= col → (Z.to_nat row < nr)%nat → (Z.to_nat col < nc)%nat →
  used_at (put row col true g) row col = true.
Proof.
  intros [Hl Hall] Hr Hc Hrn Hcn. unfold used_at, put.
  rewrite list_lookup_alter_eq.
  destruct (lookup_lt_is_Some_2 g (Z.to_nat row)) as [line Hline]; [lia|].
  rewrite Hline. simpl.
  rewrite list_lookup_insert_eq; [done|].
  by rewrite (Forall_lookup_1 _ _ _ _ Hall Hline).
Qed.

Lemma used_at_put_mono row col g r1 c1 :
  used_at g r1 c1 = true → used_at (put row col true g) r1 c1 = true.
Proof.
  unfold used_at, put. intros H.
  destruct (decide (Z.to_nat r1 = Z.to_nat row)) as [E|E].
  - rewrite E in *. rewrite list_lookup_alter_eq.
    destruct (g !! Z.to_nat row) as [line|]; [|done]. simpl in *.
    destruct (decide (Z.to_nat c1 = Z.to_nat col)) as [E'|E'].
    + rewrite E' in *. rewrite list_lookup_insert_eq; [done|].
      apply lookup_lt_is_Some. destruct (line !! Z.to_nat col); [eauto|done].
    + by rewrite list_lookup_insert_ne.
  - by rewrite list_lookup_alter_ne.
Qed.

Lemma draw_ok_free b d :
  draw_ok b d = true → finishCol b = C b - 1 → is_wall b d.1 d.2 = false →
  free_cell b (mkPos d.1 d.2).
Proof.
  unfold draw_ok, free_cell, inBounds. intros Hd Hfin Hwall.
  apply andb_true_iff in Hd as [Hd H4]. apply andb_true_iff in Hd as [Hd H3].
  apply andb_true_iff in Hd as [H1 H2]. apply Z.leb_le in H1, H2, H3, H4.
  simpl. rewrite Hfin. split; [|split; [lia|done]].
  rewrite !andb_true_iff, !Z.leb_le, !Z.ltb_lt. lia.
Qed.

Lemma place_toons_spec ds : ∀ t n used b b' ds',
  place_toons t n used b ds = Some (b', ds') →
  finishCol b = C b - 1 →
  dims (Z.to_nat (R b)) (Z.to_nat (C b)) used →
  (t + n <= length (toonPos b))%nat →
  (∀ i p, (i < t)%nat → toonPos b !! i = Some p →
          free_cell b p ∧ used_at used (r p) (c p) = true) →
  (∀ i j p, (i < t)%nat → (j < t)%nat →
            toonPos b !! i = Some p → toonPos b !! j = Some p → i = j) →
  layout b' = layout b ∧ steps b' = steps b ∧ frozen_until b' = frozen_until b
  ∧ length (toonPos b') = length (toonPos b)
  ∧ (∀ i p, (i < t + n)%nat → toonPos b' !! i = Some p → free_cell b' p)
  ∧ (∀ i j p, (i < t + n)%nat → (j < t + n)%nat →
              toonPos b' !! i = Some p → toonPos b' !! j = Some p → i = j).
Proof.
  induction ds as [|d ds IH]; intros t n used b b' ds' H Hfin Hdims Hlen Hfree Hapart.
  - destruct n; simpl in H; [|done]. simplify_eq. rewrite Nat.add_0_r.
    do 4 (split; [done|]). split; [|done].
    intros i p Hi Hp. by apply (Hfree i p).
  - destruct n as [|n]; simpl in H.
    { simplify_eq. rewrite Nat.add_0_r.
      do 4 (split; [done|]). split; [|done].
      intros i p Hi Hp. by apply (Hfree i p). }
    destruct (draw_ok b d) eqn:Hd; simpl in H; [|done].
    destruct (used_at used d.1 d.2 || is_wall b d.1 d.2) eqn:Hbusy.
    { by eapply IH. }
    apply orb_false_iff in Hbusy as [Hunused Hwall].
    set (b1 := set_toonPos (<[t := mkPos d.1 d.2]> (toonPos b)) b) in *.
    assert (free_cell b (mkPos d.1 d.2)) as Hd_free by by apply draw_ok_free.
    assert (used_at (put d.1 d.2 true used) d.1 d.2 = true) as Hd_used.
    { unfold draw_ok in Hd. rewrite !andb_true_iff, !Z.leb_le in Hd.
      eapply used_at_put_same; [done|lia..]. }
    apply IH in H; try done.
    + destruct H as (H1 & H2 & H3 & H4 & H5 & H6).
      subst b1. simpl in H2, H3, H4. rewrite length_insert in H4.
      rewrite Nat.add_succ_r. do 4 (split; [done|]). done.
    + by apply dims_put.
    + subst b1. simpl. rewrite length_insert. lia.
    + intros i p Hi Hp. subst b1. simpl in Hp.
      apply list_lookup_insert_Some in Hp as [(-> & <- & _) | (Hne & Hp)].
      * done.
      * destruct (Hfree i p) as [Hf Hu]; [lia | done |].
        split; [done|]. by apply used_at_put_mono.
    + intros i j p Hi Hj Hpi Hpj. subst b1. simpl in Hpi, Hpj.
      apply list_lookup_insert_Some in Hpi as [(-> & <- & _) | (Hni & Hpi)];
      apply list_lookup_insert_Some in Hpj as [(-> & Hq & _) | (Hnj & Hpj)];
        try done.
      * destruct (Hfree j _ ltac:(lia) Hpj) as [_ Hu]. simpl in Hu. congruence.
      * subst p. destruct (Hfree i _ ltac:(lia) Hpi) as [_ Hu]. simpl in Hu. congruence.
      * eapply Hapart; [| |done..]; lia.
Qed.

Lemma init_Inv o ds t0 s0 : init o ds t0 = Some s0 → Inv s0.
Proof.
  unfold init. intros H.
  destruct (sprinkle_walls _ _ ds) as [[b1 ds1]|] eqn:Hwalls; simpl in H; [|done].
  destruct (place_toons _ _ _ b1 ds1) as [[b2 ds2]|] eqn:Hplace; simpl in H; [|done].
  simplify_eq.
  apply sprinkle_walls_frame in Hwalls as (HR & HC & Hfin & Hflag & Hpos & Hfr & Hst).
  simpl in HR, HC, Hfin, Hflag, Hpos, Hfr, Hst.
  apply place_toons_spec in Hplace as (Hlay & Hst2 & Hfr2 & Hlen & Hfree & Hapart).
  - unfold layout in Hlay. injection Hlay as HR2 HC2 _ Hfin2 Hflag2.
    split.
    + split; unfold ntoons; simpl;
        rewrite ?Hlen, ?Hst2, ?Hfr2, ?Hpos, ?Hst, ?Hfr, ?length_replicate,
          ?Hfin2, ?Hflag2, ?HR2, ?HC2, ?Hfin, ?Hflag, ?HR, ?HC; try done.
      apply Forall_replicate. unfold is_int, INT_MIN, INT_MAX. lia.
    + simpl. split.
      * intros t p Hp. apply (Hfree t p); [|done].
        apply lookup_lt_Some in Hp. rewrite Hlen, Hpos, length_replicate in Hp. lia.
      * intros i j p Hi Hj. apply (Hapart i j p); try done.
        -- apply lookup_lt_Some in Hi. rewrite Hlen, Hpos, length_replicate in Hi. lia.
        -- apply lookup_lt_Some in Hj. rewrite Hlen, Hpos, length_replicate in Hj. lia.
    + intros t w Hw. simpl in Hw. apply lookup_replicate in Hw as [-> _]. simpl.
      split; done.
    + split; simpl; try done; try (by left);
        intros t w Hw; apply lookup_replicate in Hw as [-> _]; done.
  - rewrite Hfin, HC. done.
  - apply dims_put, dims_replicate.
  - rewrite Hpos, length_replicate. lia.
  - intros i p Hi. lia.
  - intros i j p Hi. lia.
Qed.

Lemma reachable_Inv s : reachable s → Inv s.
Proof.
  intros (o & ds & t0 & s0 & es & Hinit & Hrun).
  eapply run_Inv; [done|]. by eapply init_Inv.
Qed.

(** ** The win check *)

Lemma board_step_other t nw b b' t' :
  board_step t nw b b' → t' ≠ t →
  toonPos b' !!! t' = toonPos b !!! t' ∧ steps b' !! t' = steps b !! t'.
Proof.
  intros Hstep Hne. destruct Hstep; simpl; try done.
  rewrite list_lookup_total_insert_ne by done.
  by rewrite list_lookup_alter_ne.
Qed.

Lemma wins_layout b b' p : layout b' = layout b → wins b' p = wins b p.
Proof.
  unfold layout, wins. intros H. injection H as _ _ _ Hfin Hflag. by rewrite Hfin, Hflag.
Qed.

Lemma gameOver_mono e s s' : step e s = Some s' → gameOver s = true → gameOver s' = true.
Proof.
  intros H Hg. destruct e as [t d|dt| |i|].
  - simpl in H. destruct (run_worker_flags _ _ _ _ H) as (w & w' & _ & _ & Hc).
    destruct Hc as [(E & _) | [(_ & _ & _ & E) | (_ & _ & E & _)]]; congruence.
  - destruct (step_env_frame _ _ _ H) as (_ & _ & _ & _ & E & _); [done|congruence].
  - destruct (step_env_frame _ _ _ H) as (_ & _ & _ & _ & E & _); [done|congruence].
  - destruct (step_env_frame _ _ _ H) as (_ & _ & _ & _ & E & _); [done|congruence].
  - destruct (step_env_frame _ _ _ H) as (_ & _ & _ & _ & E & _); [done|congruence].
Qed.

Lemma run_worker_checked t d s s' :
  run_worker t d s = Some s' → checked s → checked s'.
Proof.
  intros H [K1 K2].
  pose proof (run_worker_board _ _ _ _ H) as Hb.
  pose proof (board_step_layout _ _ _ _ Hb) as Hlay.
  pose proof (run_worker_frame _ _ _ _ H) as (_ & _ & _ & _ & _ & _ & Hother).
  pose proof (gameOver_mono (Run t d) s s' H) as Hmono.
  assert (∀ t' x, t' ≠ t → workers s' !! t' = Some x →
            workers s !! t' = Some x
            ∧ wins (board s') (toonPos (board s') !!! t')
              = wins (board s) (toonPos (board s) !!! t')) as Hframe.
  { intros t' x Hne Hx. rewrite Hother in Hx by done. split; [done|].
    destruct (board_step_other _ _ _ _ t' Hb Hne) as [-> _]. by apply wins_layout. }
  split.
  - intros t' x Hx Hpx. destruct (decide (t' = t)) as [->|Hne].
    + clear Hframe Hmono Hb Hlay Hother.
      worker_cases H w Hw Hpc; cbn in Hx |- *;
        rewrite ?list_lookup_alter_eq, ?Hw in Hx; cbn in Hx; simplify_eq/=;
        repeat match goal with
        | H : context [if ?x then _ else _] |- _ => destruct x eqn:?
        end;
        try (destruct Hpx; discriminate).
      * match goal with E : negb _ && _ = true |- _ =>
          by apply andb_true_iff in E as [_ E] end.
      * eapply K1; eauto.
    + destruct (Hframe t' x Hne Hx) as [Hx' ->]. by eapply K1.
  - intros t' x Hx Hpx Hwin. destruct (decide (t' = t)) as [->|Hne].
    + clear Hframe Hmono Hb Hlay Hother.
      worker_cases H w Hw Hpc; cbn in Hx, Hwin |- *;
        rewrite ?list_lookup_alter_eq, ?Hw in Hx; cbn in Hx; simplify_eq/=;
        repeat match goal with
        | H : context [if ?x then _ else _] |- _ => destruct x eqn:?
        end;
        try discriminate; try done.
      match goal with E : negb _ && _ = false |- _ =>
        rewrite Hwin, andb_true_r in E; by apply negb_false_iff in E end.
    + destruct (Hframe t' x Hne Hx) as [Hx' Hw']. rewrite Hw' in Hwin.
      apply Hmono. by eapply K2.
Qed.

Lemma step_checked e s s' : step e s = Some s' → checked s → checked s'.
Proof.
  intros H Hck.
  assert ((∃ t d, e = Run t d) ∨ ¬ (∃ t d, e = Run t d)) as [(t & d & ->)|Hne].
  { destruct e; eauto; right; intros (? & ? & ?); discriminate. }
  - by eapply run_worker_checked.
  - destruct (step_env_frame e s s' H) as (Ho & Hb & Hw & Hm & Hg & Hwin & Htot).
    { intros t d ->. apply Hne. eauto. }
    destruct Hck as [K1 K2]. split; rewrite ?Hb, ?Hw, ?Hg; done.
Qed.

Lemma reachable_checked s : reachable s → checked s.
Proof.
  intros (o & ds & t0 & s0 & es & Hinit & Hrun).
  assert (checked s0) as H0.
  { unfold init in Hinit.
    destruct (sprinkle_walls _ _ ds) as [[b1 ds1]|]; simpl in Hinit; [|done].
    destruct (place_toons _ _ _ b1 ds1) as [[b2 ds2]|]; simpl in Hinit; [|done].
    simplify_eq. split; simpl; intros t w Hw; apply lookup_replicate in Hw as [-> _];
      simpl; [by intros [?|?] | done]. }
  clear Hinit. revert s0 H0 Hrun. induction es as [|e es IH]; intros s0 H0 Hrun; simpl in Hrun.
  - by simplify_eq.
  - destruct (step e s0) as [s1|] eqn:Hs; [|done].
    eapply IH; [|done]. by eapply step_checked.
Qed.

(** ** Election of the winner *)

(** X19. In every reachable state and for every next action:
    [gameOver], once true, stays true; [winner], once set, never changes;
    [gameOver] is only true for a recorded winner, and a recorded winner
    whose flag is still false is the mutex owner about to store the flag.
    The only action that records a winner is the [winner.store(t)] of a
    worker that owns the mutex, read [gameOver] as false in its win check
    and stands on a winning cell; the same worker, still owning the mutex,
    stores [gameOver] next.  A worker whose win check succeeded finds
    [winner] still unset when it stores.  Hence at most one toon is ever
    recorded. *)
Theorem X19_winner_set_once (s s' : Race) (e : Event) :
  reachable s → step e s = Some s' →
  (gameOver s = true → gameOver s' = true)
  ∧ (winner s ≠ -1 → winner s' = winner s)
  ∧ (gameOver s = true → winner s ≠ -1)
  ∧ (winner s ≠ -1 → gameOver s = false →
       ∃ w, workers s !! Z.to_nat (winner s) = Some w ∧ pc w = StoreGameOver
            ∧ mtx s = Some (Z.to_nat (winner s)))
  ∧ (winner s' ≠ winner s →
       ∃ t d w, e = Run t d ∧ workers s !! t = Some w ∧ pc w = StoreWinner
                ∧ mtx s = Some t ∧ gameOver s = false ∧ winner s = -1
                ∧ wins (board s) (toonPos (board s) !!! t) = true
                ∧ winner s' = Z.of_nat t ∧ gameOver s' = false
                ∧ pc <$> workers s' !! t = Some StoreGameOver ∧ mtx s' = Some t)
  ∧ (gameOver s' ≠ gameOver s →
       ∃ t d w, e = Run t d ∧ workers s !! t = Some w ∧ pc w = StoreGameOver
                ∧ mtx s = Some t ∧ winner s = Z.of_nat t
                ∧ wins (board s) (toonPos (board s) !!! t) = true
                ∧ gameOver s' = true ∧ winner s' = winner s)
  ∧ (∀ t w, workers s !! t = Some w → pc w = StoreWinner →
       winner s = -1 ∧ gameOver s = false ∧ mtx s = Some t
       ∧ wins (board s) (toonPos (board s) !!! t) = true).
Proof.
  intros Hreach Hstep.
  pose proof (reachable_Inv _ Hreach) as Hinv.
  pose proof (step_Inv _ _ _ Hstep Hinv) as Hinv'.
  pose proof (reachable_checked _ Hreach) as [K1 _].
  destruct Hinv as [Hsz Hpl Hlock [F1 F2 F3 F4 F5]].
  destruct Hinv' as [_ _ Hlock' _].
  assert (winner s' ≠ winner s →
       ∃ t d w, e = Run t d ∧ workers s !! t = Some w ∧ pc w = StoreWinner
                ∧ mtx s = Some t ∧ gameOver s = false ∧ winner s = -1
                ∧ wins (board s) (toonPos (board s) !!! t) = true
                ∧ winner s' = Z.of_nat t ∧ gameOver s' = false
                ∧ pc <$> workers s' !! t = Some StoreGameOver ∧ mtx s' = Some t)
    as Hset.
  { intros Hchg. destruct e as [t d|dt| |i|];
      try (destruct (step_env_frame _ _ _ Hstep) as (_ & _ & _ & _ & _ & E & _);
           [done|congruence]).
    simpl in Hstep. destruct (run_worker_flags _ _ _ _ Hstep) as (w & w' & Hw & Hw' & Hc).
    destruct Hc as [(_ & E & _) | [(Hp & Hp' & E & Eg) | (_ & _ & _ & E)]];
      [congruence | | congruence].
    destruct (F4 _ _ Hw Hp) as [Hgo Hnone].
    exists t, d, w. repeat split; try done.
    - apply (Hlock _ _ Hw). by rewrite Hp.
    - eapply K1; eauto.
    - congruence.
    - by rewrite Hw'; simpl; rewrite Hp'.
    - apply (Hlock' _ _ Hw'). by rewrite Hp'. }
  split; [by apply (gameOver_mono e)|].
  split.
  { intros Hne. destruct (decide (winner s' = winner s)) as [|Hchg]; [done|].
    destruct (Hset Hchg) as (t & d & w & _ & _ & _ & _ & _ & Hnone & _). done. }
  split; [done|].
  split.
  { intros Hne Hgo. destruct (F3 Hne Hgo) as (w & Hw & Hp). exists w.
    split; [done|]. split; [done|]. apply (Hlock _ _ Hw). by rewrite Hp. }
  split; [done|].
  split.
  { intros Hchg. destruct e as [t d|dt| |i|];
      try (destruct (step_env_frame _ _ _ Hstep) as (_ & _ & _ & _ & E & _);
           [done|congruence]).
    simpl in Hstep.
    destruct (run_worker_flags _ _ _ _ Hstep) as (w & w' & Hw & Hw' & Hc).
    destruct Hc as [(E & _) | [(_ & _ & _ & E) | (Hp & Hp' & Eg & E)]];
      [congruence | congruence |].
    destruct (F5 _ _ Hw Hp) as [Hgo Hwt].
    exists t, d, w. repeat split; try done.
    - apply (Hlock _ _ Hw). by rewrite Hp.
    - eapply K1; eauto. }
  intros t w Hw Hp. destruct (F4 _ _ Hw Hp) as [Hgo Hnone].
  split; [done|]. split; [done|]. split.
  - apply (Hlock _ _ Hw). by rewrite Hp.
  - eapply K1; eauto.
Qed.

(** ** Concrete runs are runs *)

Lemma run_reachable o ds es s :
  init (parseArgs o) ds 0 ≫= run es = Some s → reachable s.
Proof.
  intros Hs.
  destruct (init (parseArgs o) ds 0) as [s0|] eqn:Hinit; simpl in Hs; [|done].
  by exists o, ds, 0, s0, es.
Qed.

Lemma solo_stay_reachable : reachable solo_stay.
Proof. apply (run_reachable solo_options solo_draws solo_stay_events). by vm_compute. Qed.

Lemma solo_burst_reachable : reachable solo_burst.
Proof. apply (run_reachable solo_options solo_draws solo_burst_events). by vm_compute. Qed.

Lemma solo_burst_released_reachable : reachable solo_burst_released.
Proof.
  apply (run_reachable solo_options solo_draws solo_burst_released_events). by vm_compute.
Qed.

Lemma solo_store_reachable : reachable solo_store.
Proof. apply (run_reachable solo_options solo_draws solo_store_events). by vm_compute. Qed.

Lemma solo_capped_reachable : reachable solo_capped.
Proof. apply (run_reachable solo_options solo_draws solo_capped_events). by vm_compute. Qed.

Lemma solo_past_cap_reachable : reachable solo_past_cap.
Proof. apply (run_reachable solo_options solo_draws solo_past_cap_events). by vm_compute. Qed.

Lemma solo_capped_abort_reachable : reachable solo_capped_abort.
Proof.
  apply (run_reachable solo_options solo_draws solo_capped_abort_events). by vm_compute.
Qed.

Lemma solo_report_reachable : reachable solo_report.
Proof. apply (run_reachable solo_options solo_draws solo_report_events). by vm_compute. Qed.

Lemma trio_shot_reachable : reachable trio_shot.
Proof. apply (run_reachable trio_options trio_draws sam_shot_tick). by vm_compute. Qed.

Lemma trio_gate_reachable : reachable trio_gate.
Proof. apply (run_reachable trio_options trio_draws trio_gate_events). by vm_compute. Qed.

Lemma trio_no_target_reachable : reachable trio_no_target.
Proof. apply (run_reachable trio_options trio_draws trio_no_target_events). by vm_compute. Qed.

Lemma trio_cooldown_reachable : reachable trio_cooldown.
Proof. apply (run_reachable trio_options trio_draws trio_cooldown_events). by vm_compute. Qed.

Lemma trio_next_roll_reachable : reachable trio_next_roll.
Proof. apply (run_reachable trio_options trio_draws trio_next_roll_events). by vm_compute. Qed.

(** The lone RoadRunner stands on the flag after its first tick and its
    second win check sends it to [winner.store]. *)
Lemma X19_winner_set_once_witness :
  winner solo_store = -1 ∧ winner solo_stored = 0
  ∧ mtx solo_store = Some ROADRUNNER ∧ gameOver solo_stored = false
  ∧ pc <$> workers solo_stored !! ROADRUNNER = Some StoreGameOver.
Proof.
  destruct (X19_winner_set_once solo_store solo_stored (Run ROADRUNNER go_draw))
    as (_ & _ & _ & _ & Hset & _).
  - exact solo_store_reachable.
  - by vm_compute.
  - destruct Hset as (t & d & w & He & _ & _ & Hm & _ & Hw & _ & Hw' & Hg & Hp & _).
    + by vm_compute.
    + injection He as <- <-. auto.
Defined.

Lemma duo_burst_reachable : reachable duo_burst.
Proof. apply (run_reachable duo_options duo_draws duo_burst_events). by vm_compute. Qed.

Lemma duo_recorded_reachable : reachable duo_recorded.
Proof.
  apply (run_reachable duo_options duo_draws (duo_burst_events ++ duo_coyote_events)).
  by vm_compute.
Qed.

(** C1 fails on the burst.  In the race of two, no toon stands on a
    winning cell during the first fourteen actions of the RoadRunner; its
    fifteenth, the burst, is a committed move from (2,17), which does not
    win, onto the flag, which does.  The burst block has no win check:
    the RoadRunner releases the mutex with [gameOver] false and no winner
    recorded.  The Coyote then steps from (0,17) to (0,18), its win check
    succeeds, and the Coyote is recorded as the winner while the
    RoadRunner still stands on the flag: the first toon whose committed
    move satisfied the win condition is not the one recorded. *)
Theorem C1_first_on_goal_not_recorded :
  reachable duo_burst ∧ reachable duo_recorded
  ∧ (∀ k, (k < 15)%nat →
       ∃ s, init (parseArgs duo_options) duo_draws 0 ≫= run (take k duo_burst_events)
            = Some s
            ∧ nobody_wins s = true)
  ∧ pc <$> workers duo_burst_prev !! ROADRUNNER = Some BurstBlock
  ∧ toonPos (board duo_burst_prev) !! ROADRUNNER = Some (mkPos 2 17)
  ∧ wins (board duo_burst_prev) (mkPos 2 17) = false
  ∧ run (actions ROADRUNNER go_draw 2) duo_burst_prev = Some duo_burst
  ∧ toonPos (board duo_burst) !! ROADRUNNER = Some (flag (board duo_burst))
  ∧ wins (board duo_burst) (flag (board duo_burst)) = true
  ∧ toonPos (board duo_burst) !! COYOTE = Some (mkPos 0 17)
  ∧ wins (board duo_burst) (mkPos 0 17) = false
  ∧ mtx duo_burst = None ∧ gameOver duo_burst = false ∧ winner duo_burst = -1
  ∧ run duo_coyote_events duo_burst = Some duo_recorded
  ∧ toonPos (board duo_recorded) !! COYOTE = Some (mkPos 0 18)
  ∧ toonPos (board duo_recorded) !! ROADRUNNER = Some (flag (board duo_recorded))
  ∧ gameOver duo_recorded = true
  ∧ winner duo_recorded = Z.of_nat COYOTE.
Proof.
  split; [exact duo_burst_reachable|].
  split; [exact duo_recorded_reachable|].
  split.
  { intros k Hk.
    do 15 (destruct k as [|k]; [eexists; split; vm_compute; reflexivity|]). lia. }
  vm_compute. repeat split; reflexivity.
Qed.

(** ** No two toons on one cell *)

(** C7. In every reachable state, from the initial placement on and
    whatever moves, jumps and bursts were committed, two different toons
    stand on different cells. *)
Theorem C7_no_shared_cell (s : Race) (t1 t2 : nat) (p1 p2 : Pos) :
  reachable s → t1 ≠ t2 →
  toonPos (board s) !! t1 = Some p1 → toonPos (board s) !! t2 = Some p2 →
  p1 ≠ p2.
Proof.
  intros Hreach Hne H1 H2 ->.
  destruct (reachable_Inv _ Hreach) as [_ [_ Hapart] _ _].
  apply Hne. by eapply Hapart.
Qed.

(** After YosemiteSam moved and shot, he and the Coyote are apart. *)
Lemma C7_no_shared_cell_witness : mkPos 2 5 ≠ mkPos 4 5.
Proof.
  apply (C7_no_shared_cell trio_shot COYOTE YOSEMITESAM).
  - exact trio_shot_reachable.
  - unfold COYOTE, YOSEMITESAM. lia.
  - reflexivity.
  - reflexivity.
Defined.

(** ** "Stay" is a committed move *)

(** C10. In every reachable state a worker that enters its move block
    with the zero step passes the validation of [try_move] on its own
    cell (in bounds, left of the finish column, no wall, and the
    occupancy test skips the toon itself), so the block commits: the
    position is unchanged while the toon's step count and [totalSteps]
    both grow by one (both being below [INT_MAX]).  The zero step is
    entry 4 of [pick_step]. *)
Theorem C10_stay_commits (s : Race) (t : nat) (w : Worker) (d : Draws) (n : Z) :
  reachable s →
  workers s !! t = Some w → pc w = MoveBlock → step_ w = mkPos 0 0 →
  draws_ok d = true →
  steps (board s) !! t = Some n → n < INT_MAX → totalSteps s < INT_MAX →
  pick_step 4 = mkPos 0 0
  ∧ valid_dest (board s) t (add_pos (toonPos (board s) !!! t) (mkPos 0 0)) = true
  ∧ ∃ s' w', run_worker t d s = Some s'
             ∧ toonPos (board s') !! t = toonPos (board s) !! t
             ∧ steps (board s') !! t = Some (n + 1)
             ∧ totalSteps s' = totalSteps s + 1
             ∧ workers s' !! t = Some w' ∧ moved w' = true ∧ pc w' = WinCheck.
Proof.
  intros Hreach Hw Hpc Hstay Hd Hn Hnmax Htmax.
  destruct (reachable_Inv _ Hreach) as [Hsz [Hfree Hapart] _ _].
  assert (t < length (toonPos (board s)))%nat as Hlt.
  { rewrite (sz_pos _ Hsz), <- (sz_workers _ Hsz). by eapply lookup_lt_Some. }
  destruct (lookup_lt_is_Some_2 _ _ Hlt) as [cur Hcur].
  rewrite (list_lookup_total_correct _ _ _ Hcur).
  assert (add_pos cur (mkPos 0 0) = cur) as Hsame.
  { destruct cur as [cr cc]. unfold add_pos; simpl. f_equal; lia. }
  rewrite Hsame.
  assert (valid_dest (board s) t cur = true) as Hv.
  { apply valid_dest_spec. destruct (Hfree _ _ Hcur) as (Hin & Hcol & Hwall).
    repeat split; try done. intros k p Hp Hk ->. apply Hk. by eapply Hapart. }
  split; [reflexivity|]. split; [done|].
  assert (move_block (board s) (totalSteps s) t (mkPos 0 0) (d_chance d)
          = mkMoveResult (commit_move (board s) t cur) (int_incr (totalSteps s)) true)
    as Hblock.
  { unfold move_block. rewrite (list_lookup_total_correct _ _ _ Hcur), Hsame.
    rewrite blocked_valid, Hv. cbn [negb andb mr_moved mr_board mr_total].
    by rewrite (try_move_true _ _ _ Hv). }
  unfold run_worker. rewrite Hw, Hd, Hpc, Hstay, Hblock. cbn [negb mr_moved mr_board mr_total].
  eexists. exists (with_pc WinCheck (with_moved true w)).
  split; [reflexivity|]. cbn.
  split; [by rewrite list_lookup_insert_eq|].
  split.
  { rewrite list_lookup_alter_eq, Hn. simpl. f_equal. apply int_incr_small.
    split; [|done]. pose proof (sz_counts _ Hsz) as Hall.
    apply (Forall_lookup_1 _ _ _ _ Hall) in Hn. apply Hn. }
  split.
  { apply int_incr_small. split; [|done]. apply (sz_total _ Hsz). }
  rewrite !list_lookup_alter_eq, Hw. done.
Qed.

(** The lone RoadRunner draws "stay" in its first tick. *)
Lemma C10_stay_commits_witness :
  ∃ s', run_worker ROADRUNNER stay_draw solo_stay = Some s'
        ∧ toonPos (board s') !! ROADRUNNER = Some (mkPos 2 16)
        ∧ steps (board s') !! ROADRUNNER = Some 1
        ∧ totalSteps s' = 1.
Proof.
  destruct (C10_stay_commits solo_stay ROADRUNNER
              (mkWorker MoveBlock (mkPos 0 0) false) stay_draw 0)
    as (_ & _ & s' & w' & H1 & H2 & H3 & H4 & _).
  - exact solo_stay_reachable.
  - reflexivity.
  - reflexivity.
  - reflexivity.
  - reflexivity.
  - reflexivity.
  - unfold INT_MAX. lia.
  - unfold INT_MAX. by vm_compute.
  - exists s'. split; [done|]. split; [|done]. rewrite H2. reflexivity.
Defined.

(** ** The freeze gate *)

Lemma now_mono_step e s s' : step e s = Some s' → now s <= now s'.
Proof.
  intros H. destruct e as [t d|dt| |i|]; simpl in H.
  - destruct (run_worker_frame _ _ _ _ H) as (_ & _ & -> & _). lia.
  - destruct (Z.leb_spec 0 dt); simplify_eq/=. lia.
  - simplify_eq/=. lia.
  - unfold fire_timer in H. destruct (timers s !! i); [|done].
    destruct (_ <=? _); simplify_eq/=. lia.
  - unfold run_main in H.
    destruct (main_pc s); try destruct (forallb _ _); simplify_eq/=; lia.
Qed.

Lemma now_mono_run es s s' : run es s = Some s' → now s <= now s'.
Proof.
  revert s. induction es as [|e es IH]; intros s H; simpl in H.
  - simplify_eq. lia.
  - destruct (step e s) as [s1|] eqn:Hs; [|done].
    apply now_mono_step in Hs. apply IH in H. lia.
Qed.

(** A frozen toon at the gate stays at the gate, where it is, for one
    more event. *)
Lemma frozen_step e s s' t w expiry :
  step e s = Some s' →
  workers s !! t = Some w → quiet (pc w) = true →
  frozen_until (board s) !! t = Some expiry → now s < expiry →
  (∃ w', workers s' !! t = Some w' ∧ quiet (pc w') = true)
  ∧ frozen_until (board s') !! t = Some expiry
  ∧ toonPos (board s') !! t = toonPos (board s) !! t
  ∧ steps (board s') !! t = steps (board s) !! t.
Proof.
  intros H Hw Hq Hf Hnow.
  assert ((∃ t' d, e = Run t' d) ∨ ¬ (∃ t' d, e = Run t' d)) as [(t' & d & ->)|Hne].
  { destruct e; eauto; right; intros (? & ? & ?); discriminate. }
  - simpl in H. destruct (decide (t' = t)) as [->|Hne].
    + pose proof (list_lookup_total_correct _ _ _ Hf) as Hft.
      worker_cases H w0 Hw0 Hpc; (assert (w0 = w) as -> by congruence);
        rewrite Hpc in Hq; try discriminate;
        cbn; rewrite ?list_lookup_alter_eq, ?Hw0; cbn.
      * split; [|done]. eexists; split; [done|]. simpl. by destruct (gameOver s).
      * split; [|done]. eexists; split; [done|]. simpl. by destruct (gStop s).
      * split; [|done]. eexists; split; [done|]. simpl.
        rewrite Hft. destruct (Z.ltb_spec (now s) expiry); [done|lia].
      * split; [|done]. eexists; split; [done|]. done.
    + pose proof (run_worker_frame _ _ _ _ H) as (_ & _ & _ & _ & _ & _ & Hother).
      pose proof (run_worker_board _ _ _ _ H) as Hb.
      split; [exists w; by rewrite Hother|].
      destruct Hb as [|dest Hv|k v Hk Hnf]; simpl; [done|..].
      * rewrite list_lookup_insert_ne, list_lookup_alter_ne by done. done.
      * split; [|done]. rewrite list_lookup_insert_ne; [done|].
        intros ->. apply Hnf. by rewrite (list_lookup_total_correct _ _ _ Hf).
  - destruct (step_env_frame e s s' H) as (_ & -> & -> & _).
    { intros t' d ->. apply Hne. eauto. }
    split; [by exists w|done].
Qed.

Lemma frozen_run es : ∀ s s' t w expiry,
  run es s = Some s' →
  workers s !! t = Some w → quiet (pc w) = true →
  frozen_until (board s) !! t = Some expiry → now s' < expiry →
  (∃ w', workers s' !! t = Some w' ∧ quiet (pc w') = true)
  ∧ frozen_until (board s') !! t = Some expiry
  ∧ toonPos (board s') !! t = toonPos (board s) !! t
  ∧ steps (board s') !! t = steps (board s) !! t.
Proof.
  induction es as [|e es IH]; intros s s' t w expiry H Hw Hq Hf Hnow; simpl in H.
  - simplify_eq. split; [by exists w|done].
  - destruct (step e s) as [s1|] eqn:Hs; [|done].
    pose proof (now_mono_step _ _ _ Hs) as M1.
    pose proof (now_mono_run _ _ _ H) as M2.
    destruct (frozen_step _ _ _ _ _ _ Hs Hw Hq Hf ltac:(lia))
      as ((w1 & Hw1 & Hq1) & Hf1 & Hp1 & Hs1).
    destruct (IH _ _ _ _ _ H Hw1 Hq1 Hf1 Hnow) as (Hw' & Hf' & Hp' & Hs').
    split; [done|]. split; [done|]. split; congruence.
Qed.

(** C9. A toon whose freeze stamp lies in the future when it reaches the
    freeze test does nothing in that tick but sleep: its next two actions
    lead through the sleep back to the loop test and change nothing in
    the shared state (board, mutex, election flags, counters, cooldown).
    And whatever the other threads do, as long as the clock is before the
    stamp the toon stays between the loop test and the sleep, and its
    position, its step count and its stamp are what they were. *)
Theorem C9_frozen_only_sleeps (s : Race) (t : nat) (w : Worker) (d : Draws)
    (expiry : Z) :
  workers s !! t = Some w → pc w = FreezeTest →
  frozen_until (board s) !! t = Some expiry → now s < expiry →
  draws_ok d = true →
  (∃ s1 s2, run_worker t d s = Some s1 ∧ run_worker t d s1 = Some s2
     ∧ pc <$> workers s1 !! t = Some FrozenSleep
     ∧ pc <$> workers s2 !! t = Some LoopTest
     ∧ board s2 = board s ∧ mtx s2 = mtx s
     ∧ gameOver s2 = gameOver s ∧ winner s2 = winner s
     ∧ totalSteps s2 = totalSteps s
     ∧ sam_on_cd s2 = sam_on_cd s ∧ timers s2 = timers s)
  ∧ (∀ es s', run es s = Some s' → now s' < expiry →
       toonPos (board s') !! t = toonPos (board s) !! t
       ∧ steps (board s') !! t = steps (board s) !! t
       ∧ frozen_until (board s') !! t = Some expiry
       ∧ ∃ w', workers s' !! t = Some w' ∧ quiet (pc w') = true).
Proof.
  intros Hw Hpc Hf Hnow Hd. split.
  - exists (goto t FrozenSleep s), (goto t LoopTest (goto t FrozenSleep s)).
    split.
    { unfold run_worker. rewrite Hw, Hd, Hpc. simpl.
      rewrite (list_lookup_total_correct _ _ _ Hf).
      by destruct (Z.ltb_spec (now s) expiry); [|lia]. }
    split.
    { unfold run_worker. cbn. rewrite list_lookup_alter_eq, Hw. cbn. by rewrite Hd. }
    cbn. rewrite !list_lookup_alter_eq, Hw. done.
  - intros es s' Hrun Hnow'.
    destruct (frozen_run es s s' t w expiry Hrun Hw) as (H1 & H2 & H3 & H4);
      [by rewrite Hpc | done | done |]. done.
Qed.

(** The Coyote, shot at instant 0 for one second, reaches its freeze
    test ten milliseconds later; a full tick of YosemiteSam goes by. *)
Lemma C9_frozen_only_sleeps_witness :
  toonPos (board trio_gate_later) !! COYOTE = Some (mkPos 2 5)
  ∧ steps (board trio_gate_later) !! COYOTE = Some 0.
Proof.
  destruct (C9_frozen_only_sleeps trio_gate COYOTE
              (mkWorker FreezeTest (mkPos 0 0) false) go_draw 1000000000)
    as [_ Hlater];
    [reflexivity | reflexivity | reflexivity | by vm_compute | reflexivity |].
  destruct (Hlater sam_shot_tick trio_gate_later) as (H1 & H2 & _).
  - by vm_compute.
  - by vm_compute.
  - rewrite H1, H2. split; reflexivity.
Defined.

(** ** The shot without a target *)

Lemma scan_targets_none b t nw n : ∀ k target bestD,
  (∀ i, (k <= i < k + n)%nat → i ≠ t → nw < frozen_until b !!! i) →
  scan_targets b t nw k n target bestD = (target, bestD).
Proof.
  induction n as [|n IH]; intros k target bestD Hall; [done|].
  simpl. destruct (Nat.eqb_spec k t) as [Hk|Hk].
  - apply IH. intros i Hi. apply Hall. lia.
  - destruct (Z.ltb_spec nw (frozen_until b !!! k)) as [Hf|Hf].
    + apply IH. intros i Hi. apply Hall. lia.
    + exfalso. specialize (Hall k ltac:(lia) Hk). lia.
Qed.

(** C3, as amended.  When the shot triggers and every other toon is
    frozen, the scan finds no target and the lock-held block leaves the
    board as it was: nobody is frozen anew.  The cooldown starts all the
    same: after the block the shooter sets [sam_on_cd] and starts the
    timer thread, and as long as [sam_on_cd] is set its roll cannot lead
    to another shot. *)
Theorem C3_no_target_cooldown_starts (s : Race) (t : nat) (w : Worker) (d : Draws) :
  workers s !! t = Some w → pc w = SamBlock → draws_ok d = true →
  (∀ k, (k < Z.to_nat (toons (opt s)))%nat → k ≠ t →
        now s < frozen_until (board s) !!! k) →
  sam_target (opt s) (board s) t (now s) = -1
  ∧ (∃ s1 s2 s3,
       run_worker t d s = Some s1 ∧ run_worker t d s1 = Some s2
       ∧ run_worker t d s2 = Some s3
       ∧ board s1 = board s ∧ board s3 = board s
       ∧ sam_on_cd s3 = true
       ∧ timers s3 = timers s ++ [now s + milliseconds (sam_cooldown_ms (opt s))]
       ∧ pc <$> workers s3 !! t = Some BurstTest)
  ∧ (∀ s4 w4 d4,
       workers s4 !! t = Some w4 → pc w4 = SamRoll → sam_on_cd s4 = true →
       draws_ok d4 = true →
       ∃ s5, run_worker t d4 s4 = Some s5 ∧ board s5 = board s4
             ∧ pc <$> workers s5 !! t = Some BurstTest).
Proof.
  intros Hw Hpc Hd Hall.
  assert (sam_target (opt s) (board s) t (now s) = -1) as Htarget.
  { unfold sam_target. rewrite scan_targets_none; [done|].
    intros i Hi. apply Hall. lia. }
  assert (sam_block (opt s) (board s) t (now s) = board s) as Hblock.
  { unfold sam_block. by rewrite Htarget. }
  split; [done|]. split.
  - eexists _, _, _. split.
    { unfold run_worker. rewrite Hw, Hd, Hpc. cbn. rewrite Hblock. reflexivity. }
    split.
    { unfold run_worker. cbn. rewrite list_lookup_alter_eq, Hw. cbn.
      rewrite Hd. cbn. reflexivity. }
    split.
    { unfold run_worker. cbn. rewrite !list_lookup_alter_eq, Hw. cbn.
      rewrite Hd. cbn. reflexivity. }
    cbn. rewrite !list_lookup_alter_eq, Hw. cbn. destruct (board s); done.
  - intros s4 w4 d4 Hw4 Hpc4 Hcd Hd4. eexists. split.
    { unfold run_worker. rewrite Hw4, Hd4, Hpc4, Hcd. cbn. reflexivity. }
    cbn. rewrite list_lookup_alter_eq, Hw4. done.
Qed.

(** YosemiteSam after two shots: both other toons are frozen when his
    third shot triggers. *)
Lemma C3_no_target_cooldown_starts_witness :
  sam_target (opt trio_no_target) (board trio_no_target) YOSEMITESAM (now trio_no_target)
  = -1
  ∧ ∃ s1 s2 s3,
      run_worker YOSEMITESAM go_draw trio_no_target = Some s1
      ∧ run_worker YOSEMITESAM go_draw s1 = Some s2
      ∧ run_worker YOSEMITESAM go_draw s2 = Some s3
      ∧ board s3 = board trio_no_target ∧ sam_on_cd s3 = true.
Proof.
  destruct (C3_no_target_cooldown_starts trio_no_target YOSEMITESAM
              (mkWorker SamBlock (mkPos 0 1) true) go_draw)
    as (Ht & (s1 & s2 & s3 & H1 & H2 & H3 & _ & Hb & Hcd & _) & _).
  - reflexivity.
  - reflexivity.
  - reflexivity.
  - intros k Hk Hne.
    assert (k = 0 ∨ k = 1)%nat as [-> | ->]
      by (change (Z.to_nat (toons (opt trio_no_target))) with 3%nat in Hk;
          unfold YOSEMITESAM in Hne; lia);
      by vm_compute.
  - split; [done|]. exists s1, s2, s3. auto.
Defined.

(** C3 as stated fails: with the RoadRunner and the Coyote both frozen
    the triggered shot freezes nobody, yet the cooldown is started, and
    in the next tick a successful roll does not lead to a shot. *)
Lemma C3_counterexample :
  reachable trio_no_target ∧ reachable trio_cooldown ∧ reachable trio_next_roll
  ∧ run (actions YOSEMITESAM go_draw 3) trio_no_target = Some trio_cooldown
  ∧ pc <$> workers trio_no_target !! YOSEMITESAM = Some SamBlock
  ∧ sam_on_cd trio_no_target = false
  ∧ now trio_no_target < frozen_until (board trio_no_target) !!! ROADRUNNER
  ∧ now trio_no_target < frozen_until (board trio_no_target) !!! COYOTE
  ∧ sam_target (opt trio_no_target) (board trio_no_target) YOSEMITESAM
      (now trio_no_target) = -1
  ∧ frozen_until (board trio_cooldown) = frozen_until (board trio_no_target)
  ∧ sam_on_cd trio_cooldown = true
  ∧ timers trio_cooldown = [now trio_no_target + milliseconds 10]
  ∧ pc <$> workers trio_next_roll !! YOSEMITESAM = Some SamRoll
  ∧ sam_on_cd trio_next_roll = true
  ∧ pc <$> (run_worker YOSEMITESAM go_draw trio_next_roll
            ≫= λ s, workers s !! YOSEMITESAM) = Some BurstTest.
Proof.
  split; [exact trio_no_target_reachable|].
  split; [exact trio_cooldown_reachable|].
  split; [exact trio_next_roll_reachable|].
  vm_compute. repeat split; reflexivity.
Qed.

(** ** The burst and the win check *)

(** The move block is always followed by the win check: a worker at the
    end of that guarded block whose toon stands on a winning cell has
    [gameOver] set. *)
Lemma move_block_checks_win s t w :
  reachable s → workers s !! t = Some w → pc w = MoveUnlock →
  wins (board s) (toonPos (board s) !!! t) = true → gameOver s = true.
Proof. intros Hreach. destruct (reachable_checked _ Hreach) as [_ K]. apply K. Qed.

(** C4 fails on the burst.  The lone RoadRunner starts two cells left of
    the flag; its normal move takes it next to the flag and the burst of
    the same tick onto it.  At the end of the guarded burst block, and
    after the mutex is released, it stands on a winning cell while
    [gameOver] is false and no winner is recorded. *)
Theorem C4_burst_skips_win_check :
  reachable solo_burst ∧ reachable solo_burst_released
  ∧ step (Run ROADRUNNER go_draw) solo_burst = Some solo_burst_released
  ∧ pc <$> workers solo_burst !! ROADRUNNER = Some BurstUnlock
  ∧ mtx solo_burst = Some ROADRUNNER
  ∧ toonPos (board solo_burst) !! ROADRUNNER = Some (flag (board solo_burst))
  ∧ steps (board solo_burst) !! ROADRUNNER = Some 2
  ∧ wins (board solo_burst) (toonPos (board solo_burst) !!! ROADRUNNER) = true
  ∧ gameOver solo_burst = false ∧ winner solo_burst = -1
  ∧ pc <$> workers solo_burst_released !! ROADRUNNER = Some PaceSleep
  ∧ mtx solo_burst_released = None
  ∧ wins (board solo_burst_released)
      (toonPos (board solo_burst_released) !!! ROADRUNNER) = true
  ∧ gameOver solo_burst_released = false ∧ winner solo_burst_released = -1.
Proof.
  split; [exact solo_burst_reachable|].
  split; [exact solo_burst_released_reachable|].
  vm_compute. repeat split; reflexivity.
Qed.

(** ** Abort and the step cap *)

Lemma gStop_stays e s s' : step e s = Some s' → gStop s = true → gStop s' = true.
Proof.
  intros H Hg. destruct e as [t d|dt| |i|]; simpl in H.
  - destruct (run_worker_frame _ _ _ _ H) as (_ & -> & _). done.
  - destruct (0 <=? dt); by simplify_eq/=.
  - by simplify_eq/=.
  - unfold fire_timer in H. destruct (timers s !! i); [|done].
    destruct (_ <=? _); by simplify_eq/=.
  - unfold run_main in H.
    destruct (main_pc s); try destruct (forallb _ _); by simplify_eq/=.
Qed.

Lemma run_worker_owner t d s s' : run_worker t d s = Some s' → owner_ok s → owner_ok s'.
Proof.
  intros H Hown t' Ht'.
  pose proof (run_worker_frame _ _ _ _ H) as (_ & _ & _ & _ & _ & Hlen & _).
  apply lookup_lt_is_Some. rewrite Hlen. apply lookup_lt_is_Some.
  worker_cases H w Hw Hpc; cbn in Ht'; try discriminate; try (by apply Hown);
    by simplify_eq.
Qed.

Lemma reachable_owner s : reachable s → owner_ok s.
Proof.
  intros (o & ds & t0 & s0 & es & Hinit & Hrun).
  assert (owner_ok s0) as H0.
  { unfold init in Hinit.
    destruct (sprinkle_walls _ _ ds) as [[b1 ds1]|]; simpl in Hinit; [|done].
    destruct (place_toons _ _ _ b1 ds1) as [[b2 ds2]|]; simpl in Hinit; [|done].
    simplify_eq. intros t Ht. discriminate. }
  clear Hinit. revert s0 H0 Hrun.
  induction es as [|e es IH]; intros s0 H0 Hrun; simpl in Hrun.
  - by simplify_eq.
  - destruct (step e s0) as [s1|] eqn:Hs; [|done].
    eapply IH; [|done].
    assert ((∃ t d, e = Run t d) ∨ ¬ (∃ t d, e = Run t d)) as [(t & d & ->)|Hne].
    { destruct e; eauto; right; intros (? & ? & ?); discriminate. }
    + by eapply run_worker_owner.
    + destruct (step_env_frame e s0 s1 Hs) as (_ & _ & Hw & Hm & _).
      { intros t d ->. apply Hne. eauto. }
      intros t. rewrite Hw, Hm. apply H0.
Qed.

Lemma run_app es1 es2 s : run (es1 ++ es2) s = run es1 s ≫= run es2.
Proof.
  revert s. induction es1 as [|e es1 IH]; intros s; simpl; [done|].
  destruct (step e s); [apply IH|done].
Qed.

Lemma reachable_step e s s' : reachable s → step e s = Some s' → reachable s'.
Proof.
  intros (o & ds & t0 & s0 & es & Hinit & Hrun) Hs.
  exists o, ds, t0, s0, (es ++ [e]). split; [done|].
  rewrite run_app, Hrun. simpl. by rewrite Hs.
Qed.

Lemma sum_rank_insert (l : list Worker) t x y :
  l !! t = Some x →
  (sum_list (map (λ w, rank (pc w)) (<[t := y]> l)) + rank (pc x)
   = sum_list (map (λ w, rank (pc w)) l) + rank (pc y))%nat.
Proof.
  revert t. induction l as [|a l IH]; intros t Hx; [done|].
  destruct t as [|t]; simpl in *.
  - simplify_eq. lia.
  - specialize (IH t Hx). lia.
Qed.

(** After an abort every action of a worker brings it closer to the end
    of its loop. *)
Lemma run_worker_rank t d s s' w :
  gStop s = true → workers s !! t = Some w → run_worker t d s = Some s' →
  ∃ w', workers s' = <[t := w']> (workers s) ∧ (rank (pc w') < rank (pc w))%nat.
Proof.
  intros Hg Hw H.
  pose proof (run_worker_frame _ _ _ _ H) as (_ & _ & _ & _ & _ & Hlen & Hother).
  assert (∃ w', workers s' !! t = Some w' ∧ (rank (pc w') < rank (pc w))%nat)
    as (w' & Hw' & Hr).
  { clear Hlen Hother.
    worker_cases H w0 Hw0 Hpc; (assert (w0 = w) as -> by congruence);
      cbn; rewrite ?list_lookup_alter_eq, ?Hw0; cbn;
      eexists; (split; [reflexivity|]); cbn; rewrite Hpc, ?Hg;
      repeat match goal with
      | |- context [if ?x then _ else _] => destruct x
      end; simpl; lia. }
  exists w'. split; [|done].
  apply list_eq. intros i. destruct (decide (i = t)) as [->|Hne].
  - rewrite Hw', list_lookup_insert_eq; [done|]. by eapply lookup_lt_Some.
  - rewrite list_lookup_insert_ne by done. by apply Hother.
Qed.

Lemma action_remaining e s s' :
  gStop s = true → is_action e = true → step e s = Some s' →
  (remaining s' < remaining s)%nat.
Proof.
  intros Hg He H. destruct e as [t d|dt| |i|]; try discriminate; simpl in H.
  - pose proof (run_worker_frame _ _ _ _ H) as (_ & _ & _ & Hm & _).
    assert (is_Some (workers s !! t)) as [w Hw].
    { unfold run_worker in H. destruct (workers s !! t); [eauto|done]. }
    destruct (run_worker_rank _ _ _ _ _ Hg Hw H) as (w' & Hws & Hr).
    unfold remaining. rewrite Hm, Hws.
    pose proof (sum_rank_insert _ _ _ w' Hw). lia.
  - unfold run_main in H. unfold remaining.
    destruct (main_pc s) eqn:Hm; try destruct (forallb _ _); simplify_eq/=;
      rewrite ?Hg; try destruct (gameOver s); simpl; lia.
Qed.

Lemma forallb_false_lookup {A} (f : A → bool) (l : list A) :
  forallb f l = false → ∃ i x, l !! i = Some x ∧ f x = false.
Proof.
  induction l as [|a l IH]; simpl; [done|].
  destruct (f a) eqn:Hfa; simpl.
  - intros H. destruct (IH H) as (i & x & Hx & Hf). by exists (S i), x.
  - intros _. by exists 0%nat, a.
Qed.

(** Until [main] has returned, one of the program's threads can act:
    the owner of the mutex is never waiting for it. *)
Lemma action_enabled s :
  reachable s → main_pc s ≠ MainReturned →
  ∃ e s', is_action e = true ∧ step e s = Some s'.
Proof.
  intros Hreach Hmain.
  pose proof (reachable_Inv _ Hreach) as [_ _ Hlock _].
  pose proof (reachable_owner _ Hreach) as Hown.
  destruct (main_pc s) eqn:Hm; try done;
    try (exists MainRun; eexists; split; [done|]; simpl; unfold run_main;
         rewrite Hm; reflexivity).
  destruct (forallb (λ w, bool_decide (pc w = Exited)) (workers s)) eqn:Hall.
  { exists MainRun; eexists; split; [done|]. simpl. unfold run_main.
    by rewrite Hm, Hall. }
  assert (∃ t w, workers s !! t = Some w ∧ pc w ≠ Exited) as (t0 & w0 & Hw0 & Hp0).
  { apply forallb_false_lookup in Hall as (t & w & Hw & Hf).
    exists t, w. split; [done|]. by apply bool_decide_eq_false in Hf. }
  assert (∃ t w, workers s !! t = Some w ∧ pc w ≠ Exited
                 ∧ (mtx s = None ∨ holds_lock (pc w) = true)) as (t & w & Hw & Hp & Hfree).
  { destruct (mtx s) as [o|] eqn:Ho.
    - destruct (Hown o Ho) as [w Hw]. exists o, w. split; [done|].
      assert (holds_lock (pc w) = true) as Hh by by apply (Hlock _ _ Hw).
      split; [|by right]. intros Hp. by rewrite Hp in Hh.
    - exists t0, w0. auto. }
  exists (Run t stay_draw).
  simpl. unfold run_worker. rewrite Hw. simpl. unfold acquire.
  destruct (pc w) eqn:Hpc; try done;
    try (eexists; split; [done|]; reflexivity);
    try (destruct Hfree as [-> | Hh]; [eexists; split; [done|]; reflexivity | done]).
  destruct (burst_block _ _ _ _). eexists; split; [done|]; reflexivity.
Qed.

(** The step cap is never consulted: a race behaves the same under any
    value of [maxSteps]. *)
Lemma maxSteps_never_read e s m : step e (with_cap m s) = with_cap m <$> step e s.
Proof.
  destruct e as [t d|dt| |i|]; simpl.
  - unfold run_worker. cbn [workers with_cap].
    destruct (workers s !! t) as [w|]; [|done].
    destruct (negb (draws_ok d)); [done|].
    destruct (pc w); try done; unfold acquire; cbn [mtx with_cap];
      try (by destruct (mtx s)).
    cbn [board totalSteps with_cap]. by destruct (burst_block _ _ _ _).
  - by destruct (0 <=? dt).
  - done.
  - unfold fire_timer. cbn [timers with_cap now].
    destruct (timers s !! i); [|done]. by destruct (_ <=? _).
  - unfold run_main. cbn [main_pc workers with_cap].
    destruct (main_pc s); try done. by destruct (forallb _ _).
Qed.

Lemma actions_bounded es : ∀ s s',
  gStop s = true → forallb is_action es = true → run es s = Some s' →
  (length es + remaining s' <= remaining s)%nat.
Proof.
  induction es as [|e es IH]; intros s s' Hg Hall Hrun; simpl in *.
  - simplify_eq. lia.
  - apply andb_true_iff in Hall as [He Hall].
    destruct (step e s) as [s1|] eqn:Hs; [|done].
    pose proof (action_remaining _ _ _ Hg He Hs).
    pose proof (IH _ _ (gStop_stays _ _ _ Hs Hg) Hall Hrun). lia.
Qed.

(** C2, as amended.  After an external abort the race winds down: the
    stop flag stays set, every action of a worker or of [main] lowers
    the bound [remaining] (so at most [remaining s] of them are left),
    and until [main] has returned one of them can be taken.  When [main]
    reports without a winner it writes the final board and nothing else
    (the summary is empty: no winner line and no "no winner" line) and
    returns. *)
Theorem C2_abort_without_winner (s : Race) :
  reachable s → gStop s = true →
  (∀ e s', step e s = Some s' → reachable s' ∧ gStop s' = true)
  ∧ (∀ e s', is_action e = true → step e s = Some s' →
       (remaining s' < remaining s)%nat)
  ∧ (∀ es s', forallb is_action es = true → run es s = Some s' →
       (length es + remaining s' <= remaining s)%nat)
  ∧ (main_pc s ≠ MainReturned → ∃ e s', is_action e = true ∧ step e s = Some s')
  ∧ (main_pc s = MainReport → winner s = -1 →
       ∃ s', step MainRun s = Some s' ∧ main_pc s' = MainReturned
             ∧ final_summary (board s) (winner s) = []
             ∧ stdout s'
               = print_board (board s) (rebuild_grid (board s)) (totalSteps s)).
Proof.
  intros Hreach Hg.
  split. { intros e s' Hs. split; [by eapply reachable_step | by eapply gStop_stays]. }
  split. { intros e s' He Hs. by eapply action_remaining. }
  split. { intros es s' Hall Hrun. by eapply actions_bounded. }
  split. { by apply action_enabled. }
  intros Hm Hwin. eexists. simpl. unfold run_main. rewrite Hm.
  split; [reflexivity|]. split; [done|].
  assert (final_summary (board s) (winner s) = []) as Hsum by by rewrite Hwin.
  split; [done|]. simpl. unfold final_report. by rewrite Hsum, app_nil_r.
Qed.

(** The lone RoadRunner is interrupted after its first tick. *)
Lemma C2_abort_without_winner_witness :
  ∃ s', step MainRun solo_report = Some s' ∧ main_pc s' = MainReturned
        ∧ stdout s' =
          ["+--------------------+"; "|###................||";
           "|...................||"; "|................R.F||";
           "|...................||"; "|...................||";
           "+--------------------+"; "steps: 1"; ""]%string.
Proof.
  destruct (C2_abort_without_winner solo_report) as (_ & _ & _ & _ & Hreport).
  - exact solo_report_reachable.
  - reflexivity.
  - destruct Hreport as (s' & H1 & H2 & _ & H3); [reflexivity | reflexivity |].
    exists s'. split; [done|]. split; [done|]. rewrite H3. by vm_compute.
Defined.

(** C2 as stated fails.  The lone RoadRunner draws "stay" a hundred
    times: [totalSteps] reaches [maxSteps] with no winner, and the worker
    and [main] carry on (after one more tick the count is 101).  And a
    run aborted without a winner ends with the final board alone on the
    output. *)
Lemma C2_counterexample :
  reachable solo_capped ∧ reachable solo_past_cap ∧ reachable solo_capped_abort
  ∧ maxSteps (opt solo_capped) = 100 ∧ totalSteps solo_capped = 100
  ∧ winner solo_capped = -1 ∧ gameOver solo_capped = false ∧ gStop solo_capped = false
  ∧ run ([MainRun; MainRun] ++ actions ROADRUNNER stay_draw 14) solo_capped
    = Some solo_past_cap
  ∧ totalSteps solo_past_cap = 101
  ∧ winner solo_past_cap = -1 ∧ gameOver solo_past_cap = false
  ∧ pc <$> workers solo_past_cap !! ROADRUNNER = Some LoopTest
  ∧ main_pc solo_past_cap = MainWait ∧ stdout solo_past_cap = []
  ∧ winner solo_capped_abort = -1 ∧ main_pc solo_capped_abort = MainReturned
  ∧ stdout solo_capped_abort =
    ["+--------------------+"; "|###................||";
     "|...................||"; "|................R.F||";
     "|...................||"; "|...................||";
     "+--------------------+"; "steps: 100"; ""]%string.
Proof.
  split; [exact solo_capped_reachable|].
  split; [exact solo_past_cap_reachable|].
  split; [exact solo_capped_abort_reachable|].
  vm_compute. repeat split; reflexivity.
Qed.

(** * Further properties of the code *)

(** ** Induction over the runs *)

Lemma reachable_init o ds t0 s0 : init (parseArgs o) ds t0 = Some s0 → reachable s0.
Proof. intros H. by exists o, ds, t0, s0, []. Qed.

(** A property that holds after start-up and is kept by every event from
    a reachable state holds in every reachable state. *)
Lemma reachable_ind (P : Race → Prop) :
  (∀ o ds t0 s0, init (parseArgs o) ds t0 = Some s0 → P s0) →
  (∀ e s s', reachable s → P s → step e s = Some s' → P s') →
  ∀ s, reachable s → P s.
Proof.
  intros Hinit Hstep s (o & ds & t0 & s0 & es & Hi & Hrun).
  revert s Hrun. induction es as [|e es IH] using rev_ind; intros s Hrun.
  - simpl in Hrun. simplify_eq. by eapply Hinit.
  - rewrite run_app in Hrun.
    destruct (run es s0) as [s1|] eqn:Hs1; simpl in Hrun; [|done].
    destruct (step e s1) as [s2|] eqn:Hs2; simpl in Hrun; [|done]. simplify_eq.
    eapply Hstep; [|by apply IH|done].
    by exists o, ds, t0, s0, es.
Qed.

(** The shape of a start state. *)
Lemma init_shape o ds t0 s0 :
  init o ds t0 = Some s0 →
  ∃ b1 ds1 b2 ds2,
    sprinkle_walls (Z.to_nat (Z.quot (rows o * cols o) 30))
      (Board_new (rows o) (cols o) (toons o)) ds = Some (b1, ds1)
    ∧ place_toons 0 (Z.to_nat (toons o))
        (put (r (flag b1)) (c (flag b1)) true
           (replicate (Z.to_nat (R b1)) (replicate (Z.to_nat (C b1)) false)))
        b1 ds1 = Some (b2, ds2)
    ∧ s0 = {| opt := o; board := b2; mtx := None; gameOver := false; winner := -1;
              totalSteps := 0; sam_on_cd := false; gStop := false; now := t0;
              timers := [];
              workers := replicate (Z.to_nat (toons o))
                           (mkWorker LoopTest (mkPos 0 0) false);
              main_pc := MainWait; stdout := [] |}.
Proof.
  unfold init. intros H.
  destruct (sprinkle_walls _ _ ds) as [[b1 ds1]|] eqn:Hwalls; simpl in H; [|done].
  destruct (place_toons _ _ _ b1 ds1) as [[b2 ds2]|] eqn:Hplace; simpl in H; [|done].
  simplify_eq. by exists b1, ds1, b2, ds2.
Qed.

(** Every event keeps the layout, the options and the number of toons. *)
Lemma step_layout e s s' :
  step e s = Some s' → layout (board s') = layout (board s) ∧ opt s' = opt s.
Proof.
  intros H.
  assert ((∃ t d, e = Run t d) ∨ ¬ (∃ t d, e = Run t d)) as [(t & d & ->)|Hne].
  { destruct e; eauto; right; intros (? & ? & ?); discriminate. }
  - simpl in H. split.
    + eapply board_step_layout. by eapply run_worker_board.
    + by destruct (run_worker_frame _ _ _ _ H) as (-> & _).
  - destruct (step_env_frame e s s' H) as (-> & -> & _); [|done].
    intros t d ->. apply Hne. eauto.
Qed.

(** ** Argument clamping *)

(** X1. Whatever values the flags gave, [parseArgs] returns at least 5
    rows, at least 20 columns, between 1 and 3 toons and a step cap of at
    least 100; values already in range are returned unchanged, clamping
    twice is clamping once, and the three timing values are passed
    through unclamped (so they may be zero or negative). *)
Theorem X1_parseArgs_clamps (o : Options) :
  5 <= rows (parseArgs o) ∧ 20 <= cols (parseArgs o)
  ∧ 1 <= toons (parseArgs o) <= 3 ∧ 100 <= maxSteps (parseArgs o)
  ∧ rows (parseArgs o) = Z.max 5 (rows o)
  ∧ (toons o <= 1 → toons (parseArgs o) = 1)
  ∧ (3 <= toons o → toons (parseArgs o) = 3)
  ∧ (5 <= rows o → 20 <= cols o → 1 <= toons o <= 3 → 100 <= maxSteps o →
     parseArgs o = o)
  ∧ parseArgs (parseArgs o) = parseArgs o
  ∧ delay_ms (parseArgs o) = delay_ms o
  ∧ sam_cooldown_ms (parseArgs o) = sam_cooldown_ms o
  ∧ sam_freeze_ms (parseArgs o) = sam_freeze_ms o.
Proof.
  destruct o as [rw cl tn ms dl cd fr]. unfold parseArgs; simpl.
  repeat split; try lia.
  - intros. f_equal; lia.
  - f_equal; lia.
Qed.

(** ** The layout *)

Lemma layout_ok_layout b b' : layout b' = layout b → layout_ok b → layout_ok b'.
Proof.
  unfold layout. intros H [H1 H2 H3 H4 H5 H6 H7].
  injection H as HR HC Hcell Hfin Hflag.
  split; rewrite ?HR, ?HC, ?Hcell, ?Hfin, ?Hflag; try done.
  - intros row col ch. unfold cell_at. rewrite Hcell. apply H6.
  - intros row col. unfold is_wall, cell_at. rewrite Hcell. apply H7.
Qed.

Lemma cell_at_put b row col ch row' col' :
  0 <= row → 0 <= col → 0 <= row' → 0 <= col' →
  cell_at (set_cell (put row col ch (cell b)) b) row' col'
  = if decide (row' = row ∧ col' = col)
    then (cell_at b row' col' ≫= λ _, Some ch) else cell_at b row' col'.
Proof.
  intros Hr Hc Hr' Hc'. unfold cell_at, put; simpl.
  destruct (decide (row' = row)) as [->|Hne].
  - rewrite list_lookup_alter_eq. destruct (cell b !! Z.to_nat row) as [line|]; simpl.
    + destruct (decide (col' = col)) as [->|Hnc].
      * rewrite decide_True by done.
        destruct (line !! Z.to_nat col) eqn:E; simpl.
        -- apply list_lookup_insert_eq. by eapply lookup_lt_Some.
        -- apply lookup_ge_None. rewrite length_insert. by apply lookup_ge_None.
      * rewrite decide_False by tauto. apply list_lookup_insert_ne. lia.
    + by destruct (decide _).
  - rewrite decide_False by tauto. rewrite list_lookup_alter_ne by lia. done.
Qed.

Lemma sprinkle_walls_layout ds : ∀ n b b' ds',
  sprinkle_walls n b ds = Some (b', ds') → layout_ok b → layout_ok b'.
Proof.
  induction ds as [|d ds IH]; intros n b b' ds' H Hok.
  - destruct n; simpl in H; by simplify_eq.
  - destruct n as [|n]; simpl in H; [by simplify_eq|].
    destruct (draw_ok b d) eqn:Hd; simpl in H; [|done].
    destruct ((d.1 =? r (flag b)) && (d.2 =? c (flag b))); [by eapply IH|].
    eapply IH; [done|]. clear H IH.
    unfold draw_ok in Hd. rewrite !andb_true_iff, !Z.leb_le in Hd.
    destruct Hd as [[[D1 D2] D3] D4].
    destruct Hok as [H1 H2 H3 H4 H5 H6 H7]. split; simpl; try done.
    + by apply dims_put.
    + intros row col ch Hr Hc Hch.
      rewrite cell_at_put in Hch by done. destruct (decide _).
      * destruct (cell_at b row col); simpl in Hch; simplify_eq; auto.
      * by apply (H6 row col).
    + intros row col Hr Hc Hw. unfold is_wall in Hw.
      rewrite cell_at_put in Hw by done. destruct (decide _) as [[-> ->]|Hne].
      * lia.
      * by apply (H7 row col).
Qed.

Lemma place_toons_layout ds : ∀ t n used b b' ds',
  place_toons t n used b ds = Some (b', ds') → layout b' = layout b.
Proof.
  induction ds as [|d ds IH]; intros t n used b b' ds' H.
  - destruct n; simpl in H; by simplify_eq.
  - destruct n as [|n]; simpl in H; [by simplify_eq|].
    destruct (negb (draw_ok b d)); [done|].
    destruct (used_at used d.1 d.2 || is_wall b d.1 d.2); [by eapply IH|].
    apply IH in H. by rewrite H.
Qed.

Lemma Board_new_layout_ok o :
  layout_ok (Board_new (rows (parseArgs o)) (cols (parseArgs o)) (toons (parseArgs o))).
Proof.
  split; simpl; try lia; try done.
  - apply dims_replicate.
  - intros row col ch _ _. unfold cell_at; simpl. intros H.
    destruct (replicate _ _ !! Z.to_nat row) as [line|] eqn:E; simpl in H; [|done].
    apply lookup_replicate in E as [-> _]. apply lookup_replicate in H as [-> _]. by left.
  - intros row col _ _. unfold is_wall, cell_at; simpl.
    destruct (replicate _ _ !! Z.to_nat row) as [line|] eqn:E; simpl; [|done].
    apply lookup_replicate in E as [-> _].
    destruct (replicate _ _ !! Z.to_nat col) as [ch|] eqn:E'; [|done].
    apply lookup_replicate in E' as [-> _]. done.
Qed.

Lemma reachable_setup s : reachable s → setup_ok s.
Proof.
  revert s. apply reachable_ind.
  - intros o ds t0 s0 Hinit.
    destruct (init_shape _ _ _ _ Hinit) as (b1 & ds1 & b2 & ds2 & Hw & Hp & ->).
    pose proof (sprinkle_walls_layout _ _ _ _ _ Hw (Board_new_layout_ok o)) as Hok1.
    pose proof (place_toons_layout _ _ _ _ _ _ _ Hp) as Hlay.
    apply sprinkle_walls_frame in Hw as (HR & HC & _).
    unfold layout in Hlay. injection Hlay as HR2 HC2 _ _ _.
    split; simpl.
    + eapply layout_ok_layout; [|done]. by apply place_toons_layout in Hp.
    + by rewrite HR2, HR.
    + by rewrite HC2, HC.
    + lia.
  - intros e s s' _ [H1 H2 H3 H4] Hstep.
    destruct (step_layout _ _ _ Hstep) as [Hlay Ho].
    split; rewrite ?Ho; [by eapply layout_ok_layout|..]; try done.
    + unfold layout in Hlay. injection Hlay as -> _ _ _ _. done.
    + unfold layout in Hlay. injection Hlay as _ -> _ _ _. done.
Qed.

Lemma solo_start_init : init (parseArgs solo_options) solo_draws 0 = Some solo_start.
Proof. by vm_compute. Qed.

Lemma trio_start_init : init (parseArgs trio_options) trio_draws 0 = Some trio_start.
Proof. by vm_compute. Qed.

Lemma inBounds_spec b row col :
  inBounds b row col = true ↔ 0 <= row < R b ∧ 0 <= col < C b.
Proof. unfold inBounds. rewrite !andb_true_iff, !Z.leb_le, !Z.ltb_lt. lia. Qed.

Lemma cell_at_inBounds b row col :
  layout_ok b → inBounds b row col = true → is_Some (cell_at b row col).
Proof.
  intros Hok Hin. apply inBounds_spec in Hin as [Hr Hc].
  destruct (lo_dims _ Hok) as [Hlen Hall]. unfold cell_at.
  destruct (lookup_lt_is_Some_2 (cell b) (Z.to_nat row)) as [line Hline]; [lia|].
  rewrite Hline. simpl. apply lookup_lt_is_Some_2.
  rewrite (Forall_lookup_1 _ _ _ _ Hall Hline). lia.
Qed.

Lemma open_cell b row col :
  layout_ok b → inBounds b row col = true → is_wall b row col = false →
  cell_at b row col = Some "."%char.
Proof.
  intros Hok Hin Hw. destruct (cell_at_inBounds _ _ _ Hok Hin) as [ch Hch].
  pose proof Hin as Hin'. apply inBounds_spec in Hin' as [Hr Hc].
  destruct (lo_cells _ Hok row col ch) as [-> | ->]; [lia | lia | done | done |].
  unfold is_wall in Hw. by rewrite Hch in Hw.
Qed.

(** X2. The layout every reachable state has: the board has the clamped
    dimensions (at least 5 x 20), the finish column is the last one and
    the flag sits at row R/2 in the column before it; every cell inside
    the board is open or a wall; the last two columns are free of walls;
    so the flag is inside the board, on an open cell, and standing on it
    satisfies the win condition. *)
Theorem X2_layout_of_the_board (s : Race) :
  reachable s →
  R (board s) = rows (opt s) ∧ C (board s) = cols (opt s)
  ∧ 5 <= R (board s) ∧ 20 <= C (board s)
  ∧ finishCol (board s) = C (board s) - 1
  ∧ flag (board s) = mkPos (Z.quot (R (board s)) 2) (C (board s) - 2)
  ∧ (∀ row col, inBounds (board s) row col = true →
       (cell_at (board s) row col = Some "."%char
        ∨ cell_at (board s) row col = Some "#"%char)
       ∧ (C (board s) - 2 <= col → cell_at (board s) row col = Some "."%char))
  ∧ inBounds (board s) (r (flag (board s))) (c (flag (board s))) = true
  ∧ cell_at (board s) (r (flag (board s))) (c (flag (board s))) = Some "."%char
  ∧ wins (board s) (flag (board s)) = true.
Proof.
  intros Hreach. destruct (reachable_setup _ Hreach) as [Hok HR HC Ht].
  pose proof Hok as [H1 H2 H3 H4 H5 H6 H7].
  assert (∀ row col, inBounds (board s) row col = true →
            C (board s) - 2 <= col → cell_at (board s) row col = Some "."%char) as Hlast.
  { intros row col Hin Hcol. apply open_cell; [done..|].
    apply not_true_iff_false. intros Hw.
    apply inBounds_spec in Hin. apply H7 in Hw; lia. }
  assert (inBounds (board s) (r (flag (board s))) (c (flag (board s))) = true) as Hflag.
  { rewrite H4. simpl. apply inBounds_spec.
    pose proof (Z.quot_pos (R (board s)) 2 ltac:(lia) ltac:(lia)).
    pose proof (Z.quot_lt (R (board s)) 2 ltac:(lia) ltac:(lia)). lia. }
  do 6 (split; [done|]). split; [|split; [done|split]].
  - intros row col Hin. split; [|by apply Hlast].
    destruct (cell_at_inBounds _ _ _ Hok Hin) as [ch Hch].
    pose proof Hin as Hin'. apply inBounds_spec in Hin'.
    destruct (H6 row col ch) as [-> | ->]; auto; lia.
  - apply Hlast; [done|]. rewrite H4. simpl. lia.
  - unfold wins. by rewrite !Z.eqb_refl.
Qed.

Lemma X2_layout_of_the_board_witness :
  flag (board trio_shot) = mkPos 2 18
  ∧ cell_at (board trio_shot) 2 18 = Some "."%char
  ∧ wins (board trio_shot) (mkPos 2 18) = true.
Proof.
  destruct (X2_layout_of_the_board trio_shot trio_shot_reachable)
    as (_ & _ & _ & _ & _ & H1 & _ & _ & H2 & H3).
  split; [exact H1|]. split; [exact H2 | exact H3].
Defined.

(** ** Where the toons stand *)

(** X3. In every reachable state each toon stands inside the board, on
    an open cell, in a column of [0..C-2] (never on the finish column);
    and there are at most three toons. *)
Theorem X3_toons_stay_on_open_cells (s : Race) (t : nat) (p : Pos) :
  reachable s → toonPos (board s) !! t = Some p →
  0 <= r p < R (board s) ∧ 0 <= c p <= C (board s) - 2
  ∧ cell_at (board s) (r p) (c p) = Some "."%char
  ∧ (t < 3)%nat ∧ (t < ntoons s)%nat.
Proof.
  intros Hreach Hp. destruct (reachable_setup _ Hreach) as [Hok HR HC Ht].
  destruct (reachable_Inv _ Hreach) as [Hsz [Hfree _] _ _].
  destruct (Hfree _ _ Hp) as (Hin & Hcol & Hwall).
  pose proof (lo_finish _ Hok). pose proof Hin as Hin'.
  apply inBounds_spec in Hin' as [Hr Hc].
  apply lookup_lt_Some in Hp. rewrite (sz_pos _ Hsz) in Hp.
  unfold ntoons in *. repeat split; try lia. by apply open_cell.
Qed.

Lemma X3_toons_stay_on_open_cells_witness :
  cell_at (board trio_shot) 4 5 = Some "."%char.
Proof.
  destruct (X3_toons_stay_on_open_cells trio_shot YOSEMITESAM (mkPos 4 5)
              trio_shot_reachable eq_refl) as (_ & _ & H & _).
  exact H.
Defined.

Lemma place_toons_cols ds : ∀ t n used b b' ds',
  place_toons t n used b ds = Some (b', ds') →
  (∀ i p, (i < t)%nat → toonPos b !! i = Some p → 0 <= c p <= C b - 3) →
  ∀ i p, (i < t + n)%nat → toonPos b' !! i = Some p → 0 <= c p <= C b - 3.
Proof.
  induction ds as [|d ds IH]; intros t n used b b' ds' H Hcols.
  - destruct n; simpl in H; [|done]. simplify_eq. rewrite Nat.add_0_r. done.
  - destruct n as [|n]; simpl in H.
    { simplify_eq. rewrite Nat.add_0_r. done. }
    destruct (draw_ok b d) eqn:Hd; simpl in H; [|done].
    destruct (used_at used d.1 d.2 || is_wall b d.1 d.2); [by eapply IH|].
    rewrite Nat.add_succ_r.
    apply (IH (S t) n _ _ _ _ H). simpl.
    intros i p Hi Hp. apply list_lookup_insert_Some in Hp as [(-> & <- & _)|(Hne & Hp)].
    + unfold draw_ok in Hd. rewrite !andb_true_iff, !Z.leb_le in Hd. simpl. lia.
    + apply (Hcols i p); [lia|done].
Qed.

(** X4. Right after start-up: there are [opt.toons] toons, all in
    columns [0..C-3], so none stands on the flag or on any other winning
    cell; every step count and [totalSteps] are zero, every freeze stamp
    is the minimal time point, nobody owns the mutex, no winner is
    recorded and every worker is at its loop test. *)
Theorem X4_start_state (o : Options) (ds : list (Z * Z)) (t0 : Z) (s0 : Race) :
  init (parseArgs o) ds t0 = Some s0 →
  opt s0 = parseArgs o
  ∧ length (toonPos (board s0)) = Z.to_nat (toons (parseArgs o))
  ∧ (∀ t p, toonPos (board s0) !! t = Some p →
       0 <= c p <= C (board s0) - 3
       ∧ p ≠ flag (board s0) ∧ wins (board s0) p = false)
  ∧ steps (board s0) = replicate (Z.to_nat (toons (parseArgs o))) 0
  ∧ frozen_until (board s0) = replicate (Z.to_nat (toons (parseArgs o))) time_point_min
  ∧ workers s0
    = replicate (Z.to_nat (toons (parseArgs o))) (mkWorker LoopTest (mkPos 0 0) false)
  ∧ totalSteps s0 = 0 ∧ gameOver s0 = false ∧ winner s0 = -1
  ∧ mtx s0 = None ∧ sam_on_cd s0 = false ∧ gStop s0 = false.
Proof.
  intros Hinit. pose proof (reachable_setup _ (reachable_init _ _ _ _ Hinit)) as [Hok _ _ _].
  pose proof (reachable_Inv _ (reachable_init _ _ _ _ Hinit)) as [Hsz _ _ _].
  destruct (init_shape _ _ _ _ Hinit) as (b1 & ds1 & b2 & ds2 & Hw & Hp & ->).
  simpl in *.
  pose proof (place_toons_layout _ _ _ _ _ _ _ Hp) as Hlay.
  pose proof (place_toons_cols _ _ _ _ _ _ _ Hp) as Hcols.
  apply place_toons_spec in Hp as (_ & Hst & Hfr & Hlen & _).
  - apply sprinkle_walls_frame in Hw as (HR & HC & Hfin & Hflag & Hpos & Hfr1 & Hst1).
    simpl in *.
    unfold layout in Hlay. injection Hlay as _ HC2 _ _ _.
    split; [done|]. split; [by rewrite Hlen, Hpos, length_replicate|].
    split; [|by rewrite Hst, Hst1, Hfr, Hfr1].
    intros t p Hp.
    assert (0 <= c p <= C b1 - 3) as Hc.
    { apply (Hcols ltac:(intros; lia) t p); [|done].
      apply lookup_lt_Some in Hp. rewrite Hlen, Hpos, length_replicate in Hp. lia. }
    rewrite HC2. split; [done|].
    pose proof (lo_flag _ Hok) as Hf. pose proof (lo_finish _ Hok) as Hfc.
    split.
    + intros ->. rewrite Hf in Hc. simpl in Hc. lia.
    + unfold wins. rewrite Hf, Hfc. simpl.
      destruct (Z.eqb_spec (c p) (C b2 - 2)); [lia|].
      destruct (Z.geb_spec (c p) (C b2 - 1 - 1)); [lia|]. by rewrite andb_false_r.
  - apply sprinkle_walls_frame in Hw as (_ & HC & Hfin & _). simpl in *. lia.
  - apply dims_put, dims_replicate.
  - apply sprinkle_walls_frame in Hw as (_ & _ & _ & _ & Hpos & _). simpl in *.
    rewrite Hpos, length_replicate. lia.
  - intros; lia.
  - intros; lia.
Qed.

Lemma X4_start_state_witness :
  toonPos (board trio_start) = [mkPos 2 3; mkPos 2 5; mkPos 4 4]
  ∧ steps (board trio_start) = [0; 0; 0] ∧ winner trio_start = -1.
Proof.
  destruct (X4_start_state trio_options trio_draws 0 trio_start trio_start_init)
    as (_ & _ & _ & H1 & _ & _ & _ & _ & H2 & _).
  split; [reflexivity|]. split; [exact H1 | exact H2].
Defined.

(** ** The effect of one action on board and counter *)

Lemma move_block_dest b total t stp j :
  move_block b total t stp j = mkMoveResult b total false
  ∨ ∃ dest, valid_dest b t dest = true
            ∧ move_block b total t stp j
              = mkMoveResult (commit_move b t dest) (int_incr total) true
            ∧ (dest = add_pos (toonPos b !!! t) stp
               ∨ (t = COYOTE ∧ j = true
                  ∧ blocked b t (add_pos (toonPos b !!! t) stp) = true
                  ∧ dest = add_pos (add_pos (toonPos b !!! t) stp) stp)).
Proof.
  unfold move_block.
  set (nxt := add_pos (toonPos b !!! t) stp).
  destruct (blocked b t nxt && (t =? COYOTE)%nat && j) eqn:Hjump.
  - apply andb_true_iff in Hjump as [Hjump ->].
    apply andb_true_iff in Hjump as [Hblk Ht]. apply Nat.eqb_eq in Ht.
    destruct (valid_dest b t (add_pos nxt stp)) eqn:Hhop.
    + rewrite (try_move_true _ _ _ Hhop). cbn. right. eexists. eauto 10.
    + rewrite (try_move_false _ _ _ Hhop). cbn [mr_moved mr_board mr_total negb].
      destruct (valid_dest b t nxt) eqn:Hn.
      * rewrite (try_move_true _ _ _ Hn). right. eexists. eauto 10.
      * rewrite (try_move_false _ _ _ Hn). eauto.
  - cbn [mr_moved mr_board mr_total negb].
    destruct (valid_dest b t nxt) eqn:Hn.
    + rewrite (try_move_true _ _ _ Hn). right. eexists. eauto 10.
    + rewrite (try_move_false _ _ _ Hn). eauto.
Qed.

(** One atomic action of worker [t] does one of three things to the
    board and the global counter: nothing; one validated move of its own
    toon, counted once in [steps[t]] and once in [totalSteps] (from the
    move block or the burst block); or one freeze stamp on another toon
    (from the shot block). *)
Lemma run_worker_effect t d s s' w :
  workers s !! t = Some w → run_worker t d s = Some s' →
  (board s' = board s ∧ totalSteps s' = totalSteps s)
  ∨ (∃ dest, valid_dest (board s) t dest = true
       ∧ board s' = commit_move (board s) t dest
       ∧ totalSteps s' = int_incr (totalSteps s)
       ∧ ((pc w = MoveBlock
           ∧ (dest = add_pos (toonPos (board s) !!! t) (step_ w)
              ∨ (t = COYOTE
                 ∧ blocked (board s) t (add_pos (toonPos (board s) !!! t) (step_ w)) = true
                 ∧ dest = add_pos (add_pos (toonPos (board s) !!! t) (step_ w))
                            (step_ w))))
          ∨ (pc w = BurstBlock
             ∧ dest = add_pos (toonPos (board s) !!! t)
                        (burst_step (board s) (toonPos (board s) !!! t) (d_pick d)))))
  ∨ (pc w = SamBlock ∧ totalSteps s' = totalSteps s
     ∧ ∃ k, sam_target (opt s) (board s) t (now s) = Z.of_nat k ∧ k ≠ t
            ∧ ¬ (now s < frozen_until (board s) !!! k)
            ∧ board s'
              = set_frozen_until
                  (<[k := now s + milliseconds (sam_freeze_ms (opt s))]>
                     (frozen_until (board s))) (board s)).
Proof.
  intros Hw H. worker_cases H w0 Hw0 Hpc; (assert (w0 = w) as -> by congruence);
    cbn; try (left; done).
  - destruct (move_block_dest (board s) (totalSteps s) t (step_ w) (d_chance d))
      as [-> | (dest & Hv & -> & Hd)]; cbn; [by left|].
    right; left. exists dest. do 3 (split; [done|]). left. split; [done|].
    destruct Hd as [Hd | (Ht & _ & Hb & Hd)]; [by left | by right].
  - destruct (sam_block_cases (opt s) (board s) t (now s))
      as [-> | (k & Hk & Hne & Hf & ->)]; [by left|].
    right; right. split; [done|]. split; [done|]. by exists k.
  - match goal with Hb : burst_block _ _ _ _ = _ |- _ =>
      unfold burst_block in Hb;
      destruct (valid_dest (board s) t _) eqn:Hv; injection Hb as <- <-
    end; [|by left].
    right; left. eexists. do 3 (split; [done|]). right. done.
Qed.

(** ** Counters *)

Lemma wrap_int_mod a b : a mod 2 ^ 32 = b mod 2 ^ 32 → wrap_int a = wrap_int b.
Proof.
  unfold wrap_int. intros H.
  rewrite <- (Zplus_mod_idemp_l a), <- (Zplus_mod_idemp_l b), H. done.
Qed.

Lemma wrap_int_add_l a b : wrap_int (wrap_int a + b) = wrap_int (a + b).
Proof.
  apply wrap_int_mod. unfold wrap_int.
  replace ((a + 2 ^ 31) mod 2 ^ 32 - 2 ^ 31 + b)
    with ((a + 2 ^ 31) mod 2 ^ 32 + (b - 2 ^ 31)) by lia.
  rewrite Zplus_mod_idemp_l. f_equal. lia.
Qed.

Lemma wrap_int_id n : is_int n → wrap_int n = n.
Proof.
  unfold is_int, wrap_int, INT_MIN, INT_MAX. intros H.
  rewrite Z.mod_small by lia. lia.
Qed.

Lemma sumZ_alter f (l : list Z) t n :
  l !! t = Some n → sumZ (alter f t l) = sumZ l - n + f n.
Proof.
  revert t. induction l as [|a l IH]; intros t Hn; [done|].
  destruct t as [|t]; simpl in *.
  - simplify_eq. lia.
  - change (list_alter f t l) with (alter f t l). rewrite (IH t Hn). unfold sumZ. lia.
Qed.

Lemma sumZ_replicate_0 n : sumZ (replicate n 0) = 0.
Proof. induction n as [|n IH]; [done|]. unfold sumZ in *. simpl. by rewrite IH. Qed.

Lemma start_counters o ds t0 s0 :
  init o ds t0 = Some s0 →
  steps (board s0) = replicate (Z.to_nat (toons o)) 0 ∧ totalSteps s0 = 0.
Proof.
  intros Hinit.
  destruct (init_shape _ _ _ _ Hinit) as (b1 & ds1 & b2 & ds2 & Hw & Hp & ->).
  simpl. split; [|done].
  apply sprinkle_walls_frame in Hw as (_ & _ & _ & _ & _ & _ & Hst). simpl in Hst.
  revert Hp. generalize (put (r (flag b1)) (c (flag b1)) true
    (replicate (Z.to_nat (R b1)) (replicate (Z.to_nat (C b1)) false))).
  generalize 0%nat at 1. generalize (Z.to_nat (toons o)) at 1.
  intros n t used Hp. rewrite <- Hst. clear Hst.
  revert t n used b1 Hp. induction ds1 as [|d ds3 IH]; intros t n used b1 Hp.
  - destruct n; simpl in Hp; by simplify_eq.
  - destruct n as [|n]; simpl in Hp; [by simplify_eq|].
    destruct (negb (draw_ok b1 d)); [done|].
    destruct (used_at used d.1 d.2 || is_wall b1 d.1 d.2); [by eapply IH|].
    by apply IH in Hp.
Qed.

(** X5. In every reachable state the global counter equals the sum of
    the per-toon step counts, as 32-bit integers; and exactly, when that
    sum fits an [int]. *)
Theorem X5_total_is_sum_of_counts (s : Race) :
  reachable s →
  wrap_int (sumZ (steps (board s))) = totalSteps s
  ∧ (INT_MIN <= sumZ (steps (board s)) <= INT_MAX →
     totalSteps s = sumZ (steps (board s))).
Proof.
  intros Hreach.
  assert (wrap_int (sumZ (steps (board s))) = totalSteps s) as H.
  { revert s Hreach. apply reachable_ind.
    - intros o ds t0 s0 Hinit.
      destruct (start_counters _ _ _ _ Hinit) as [-> ->].
      by rewrite sumZ_replicate_0.
    - intros e s s' Hreach IH Hstep.
      assert ((∃ t d, e = Run t d) ∨ ¬ (∃ t d, e = Run t d)) as [(t & d & ->)|Hne].
      { destruct e; eauto; right; intros (? & ? & ?); discriminate. }
      + simpl in Hstep.
        assert (is_Some (workers s !! t)) as [w Hw].
        { unfold run_worker in Hstep. destruct (workers s !! t); [eauto|done]. }
        destruct (run_worker_effect _ _ _ _ _ Hw Hstep)
          as [[-> ->] | [(dest & _ & -> & -> & _) | (_ & -> & k & _ & _ & _ & ->)]];
          [done | | done].
        simpl. destruct (reachable_Inv _ Hreach) as [Hsz _ _ _].
        destruct (lookup_lt_is_Some_2 (steps (board s)) t) as [n Hn].
        { rewrite (sz_steps _ Hsz), <- (sz_workers _ Hsz). by eapply lookup_lt_Some. }
        rewrite (sumZ_alter _ _ _ _ Hn), <- IH.
        unfold int_incr. rewrite wrap_int_add_l.
        replace (sumZ (steps (board s)) - n + wrap_int (n + 1))
          with (wrap_int (n + 1) + (sumZ (steps (board s)) - n)) by lia.
        rewrite wrap_int_add_l. f_equal. lia.
      + destruct (step_env_frame e s s' Hstep) as (_ & -> & _ & _ & _ & _ & ->); [|done].
        intros t d ->. apply Hne. eauto. }
  split; [done|]. intros Hfit. rewrite <- H. by apply wrap_int_id.
Qed.

Lemma X5_total_is_sum_of_counts_witness :
  totalSteps solo_capped = sumZ (steps (board solo_capped)).
Proof.
  destruct (X5_total_is_sum_of_counts solo_capped solo_capped_reachable) as [_ H].
  apply H. unfold INT_MIN, INT_MAX. by vm_compute.
Defined.

(** X6. Every event leaves a toon's position and step count alone,
    except the action of that toon's own worker that commits a validated
    move: that action puts the toon on the validated cell and adds one
    to its step count and one to the global counter, all in the same
    atomic action.  So no toon moves without being counted and no toon
    is moved by another thread. *)
Theorem X6_moves_are_counted (e : Event) (s s' : Race) (t : nat) :
  step e s = Some s' →
  (toonPos (board s') !! t = toonPos (board s) !! t
   ∧ steps (board s') !! t = steps (board s) !! t)
  ∨ (∃ d dest, e = Run t d
       ∧ valid_dest (board s) t dest = true
       ∧ toonPos (board s') = <[t := dest]> (toonPos (board s))
       ∧ steps (board s') !! t = int_incr <$> steps (board s) !! t
       ∧ totalSteps s' = int_incr (totalSteps s)
       ∧ frozen_until (board s') = frozen_until (board s)).
Proof.
  intros Hstep.
  assert ((∃ t d, e = Run t d) ∨ ¬ (∃ t d, e = Run t d)) as [(t' & d & ->)|Hne].
  { destruct e; eauto; right; intros (? & ? & ?); discriminate. }
  - simpl in Hstep.
    assert (is_Some (workers s !! t')) as [w Hw].
    { unfold run_worker in Hstep. destruct (workers s !! t'); [eauto|done]. }
    destruct (run_worker_effect _ _ _ _ _ Hw Hstep)
      as [[-> _] | [(dest & Hv & -> & Htot & _) | (_ & _ & k & _ & _ & _ & ->)]];
      [by left | | by left].
    destruct (decide (t = t')) as [->|Hne].
    + right. exists d, dest. do 3 (split; [done|]).
      split; [apply commit_move_steps|done].
    + left. by rewrite commit_move_pos_other, commit_move_steps_other.
  - destruct (step_env_frame e s s' Hstep) as (_ & -> & _); [|by left].
    intros t' d ->. apply Hne. eauto.
Qed.

Lemma X6_moves_are_counted_witness :
  ∃ d dest, Run ROADRUNNER go_draw = Run ROADRUNNER d
    ∧ valid_dest (board solo_burst_prev) ROADRUNNER dest = true
    ∧ toonPos (board solo_burst) = <[ROADRUNNER := dest]> (toonPos (board solo_burst_prev)).
Proof.
  destruct (X6_moves_are_counted (Run ROADRUNNER go_draw) solo_burst_prev solo_burst
              ROADRUNNER) as [[H _] | (d & dest & H1 & H2 & H3 & _)].
  - by vm_compute.
  - vm_compute in H. discriminate.
  - by exists d, dest.
Defined.

(** ** The nearest target *)

Lemma scan_targets_nearest b t nw n : ∀ k target bestD,
  bestD <= 1000000000 →
  (target = -1 ∧ bestD = 1000000000
   ∧ (∀ j, (j < k)%nat → eligible b t nw j → 1000000000 <= toon_dist b j t))
  ∨ (∃ i, target = Z.of_nat i ∧ (i < k)%nat ∧ eligible b t nw i
          ∧ toon_dist b i t = bestD ∧ bestD < 1000000000
          ∧ ∀ j, (j < k)%nat → eligible b t nw j →
                 bestD <= toon_dist b j t ∧ (toon_dist b j t = bestD → (i <= j)%nat)) →
  let res := scan_targets b t nw k n target bestD in
  (res.1 = -1
   ∧ (∀ j, (j < k + n)%nat → eligible b t nw j → 1000000000 <= toon_dist b j t))
  ∨ (∃ i, res.1 = Z.of_nat i ∧ (i < k + n)%nat ∧ eligible b t nw i
          ∧ toon_dist b i t < 1000000000
          ∧ ∀ j, (j < k + n)%nat → eligible b t nw j →
                 toon_dist b i t <= toon_dist b j t
                 ∧ (toon_dist b j t = toon_dist b i t → (i <= j)%nat)).
Proof.
  induction n as [|n IH]; intros k target bestD Hb Hinv.
  - simpl. rewrite Nat.add_0_r.
    destruct Hinv as [(-> & _ & H) | (i & -> & Hi & He & Hd & Hlt & H)]; [by left|].
    right. exists i. rewrite Hd. done.
  - simpl. rewrite Nat.add_succ_r.
    assert (∀ j, (j < S k)%nat → j = k ∨ (j < k)%nat) as Hsplit by (intros; lia).
    destruct (Nat.eqb_spec k t) as [Hk|Hk].
    { apply (IH (S k)); [done|].
      destruct Hinv as [(-> & -> & H) | (i & -> & Hi & He & Hd & Hlt & H)].
      - left. do 2 (split; [done|]). intros j Hj [Hjt Hjf].
        destruct (Hsplit j Hj) as [->|Hj']; [done|]. by apply H.
      - right. exists i. split; [done|]. split; [lia|]. do 3 (split; [done|]).
        intros j Hj [Hjt Hjf]. destruct (Hsplit j Hj) as [->|Hj']; [done|]. by apply H. }
    destruct (Z.ltb_spec nw (frozen_until b !!! k)) as [Hf|Hf].
    { apply (IH (S k)); [done|].
      destruct Hinv as [(-> & -> & H) | (i & -> & Hi & He & Hd & Hlt & H)].
      - left. do 2 (split; [done|]). intros j Hj [Hjt Hjf].
        destruct (Hsplit j Hj) as [->|Hj']; [done|]. by apply H.
      - right. exists i. split; [done|]. split; [lia|]. do 3 (split; [done|]).
        intros j Hj [Hjt Hjf]. destruct (Hsplit j Hj) as [->|Hj']; [done|]. by apply H. }
    fold (toon_dist b k t).
    assert (eligible b t nw k) as Hek by (split; [done|lia]).
    destruct (Z.ltb_spec (toon_dist b k t) bestD) as [Hlt|Hge].
    + apply (IH (S k)); [lia|]. right. exists k.
      split; [done|]. split; [lia|]. split; [done|]. split; [done|]. split; [lia|].
      intros j Hj Hej. destruct (Hsplit j Hj) as [->|Hj']; [split; [lia|done]|].
      destruct Hinv as [(_ & -> & H) | (i & _ & Hi & He & Hd & Hlt' & H)].
      * specialize (H j Hj' Hej). lia.
      * destruct (H j Hj' Hej) as [H1 _]. lia.
    + apply (IH (S k)); [done|].
      destruct Hinv as [(-> & -> & H) | (i & -> & Hi & He & Hd & Hlt' & H)].
      * left. do 2 (split; [done|]). intros j Hj Hej.
        destruct (Hsplit j Hj) as [->|Hj']; [done|]. by apply H.
      * right. exists i. split; [done|]. split; [lia|]. do 3 (split; [done|]).
        intros j Hj Hej. destruct (Hsplit j Hj) as [->|Hj']; [split; lia|]. by apply H.
Qed.

(** X7. The target of a shot is the nearest toon (Manhattan distance to
    the shooter) among the other toons that are not frozen at that
    instant; among equally near ones it is the one with the smallest
    index.  Toons at distance 1000000000 or more are never chosen; when
    no other unfrozen toon is nearer than that, there is no target. *)
Theorem X7_target_is_nearest_unfrozen (o : Options) (b : Board) (t : nat) (nw : Z) :
  (sam_target o b t nw = -1
   ∧ (∀ j, (j < Z.to_nat (toons o))%nat → eligible b t nw j →
           1000000000 <= toon_dist b j t))
  ∨ (∃ i, sam_target o b t nw = Z.of_nat i ∧ (i < Z.to_nat (toons o))%nat
          ∧ eligible b t nw i ∧ toon_dist b i t < 1000000000
          ∧ ∀ j, (j < Z.to_nat (toons o))%nat → eligible b t nw j →
                 toon_dist b i t <= toon_dist b j t
                 ∧ (toon_dist b j t = toon_dist b i t → (i <= j)%nat)).
Proof.
  unfold sam_target.
  apply (scan_targets_nearest b t nw (Z.to_nat (toons o)) 0 (-1) 1000000000); [lia|].
  left. do 2 (split; [done|]). intros j Hj. lia.
Qed.

(** ** Archetypes and abilities *)

Lemma start_workers o ds t0 s0 t w :
  init o ds t0 = Some s0 → workers s0 !! t = Some w → w = mkWorker LoopTest (mkPos 0 0) false.
Proof.
  intros Hinit Hw.
  destruct (init_shape _ _ _ _ Hinit) as (b1 & ds1 & b2 & ds2 & _ & _ & ->).
  simpl in Hw. by apply lookup_replicate in Hw as [-> _].
Qed.

Lemma reachable_roles s : reachable s → roles_ok s.
Proof.
  revert s. apply reachable_ind.
  - intros o ds t0 s0 Hinit. split; intros t w Hw;
      rewrite (start_workers _ _ _ _ _ _ Hinit Hw); simpl; [by intros [?|?]|done].
  - intros e s s' _ [R1 R2] Hstep.
    assert ((∃ t d, e = Run t d) ∨ ¬ (∃ t d, e = Run t d)) as [(t & d & ->)|Hne].
    { destruct e; eauto; right; intros (? & ? & ?); discriminate. }
    + simpl in Hstep.
      pose proof (run_worker_frame _ _ _ _ Hstep) as (_ & _ & _ & _ & _ & _ & Hother).
      split; intros t' x Hx Hpx.
      * destruct (decide (t' = t)) as [->|Hn]; [|rewrite Hother in Hx by done; eauto].
        worker_cases Hstep w Hw Hpc; cbn in Hx;
          rewrite ?list_lookup_alter_eq, ?Hw in Hx; cbn in Hx; simplify_eq/=;
          repeat match goal with
          | H : context [if ?c then _ else _] |- _ => destruct c eqn:?
          end;
          try (by destruct Hpx);
          try (eapply R1; [done|]; rewrite Hpc; simpl; auto; fail).
        match goal with E : (_ =? YOSEMITESAM)%nat && _ = true |- _ =>
          apply andb_true_iff in E as [E _]; by apply Nat.eqb_eq in E end.
      * destruct (decide (t' = t)) as [->|Hn]; [|rewrite Hother in Hx by done; eauto].
        worker_cases Hstep w Hw Hpc; cbn in Hx;
          rewrite ?list_lookup_alter_eq, ?Hw in Hx; cbn in Hx; simplify_eq/=;
          repeat match goal with
          | H : context [if ?c then _ else _] |- _ => destruct c eqn:?
          end;
          try discriminate;
          try (eapply R2; [done|]; rewrite Hpc; simpl; auto; fail).
        match goal with E : (_ =? ROADRUNNER)%nat && _ && _ = true |- _ =>
          apply andb_true_iff in E as [E _]; apply andb_true_iff in E as [E1 E2];
          apply Nat.eqb_eq in E1; done end.
    + destruct (step_env_frame e s s' Hstep) as (_ & _ & Hw & _).
      { intros t d ->. apply Hne. eauto. }
      split; rewrite Hw; done.
Qed.

Lemma run_worker_cd t d s s' w :
  workers s !! t = Some w → run_worker t d s = Some s' →
  (sam_on_cd s' = sam_on_cd s ∧ timers s' = timers s ∧ pc w ≠ SamCooldown)
  ∨ (pc w = SamCooldown ∧ sam_on_cd s' = true
     ∧ timers s' = timers s ++ [now s + milliseconds (sam_cooldown_ms (opt s))]).
Proof.
  intros Hw H. worker_cases H w0 Hw0 Hpc; (assert (w0 = w) as -> by congruence);
    cbn; rewrite Hpc; try (left; done). by right.
Qed.

Lemma reachable_cooldown s : reachable s → cooldown_ok s.
Proof.
  revert s. apply reachable_ind.
  - intros o ds t0 s0 Hinit.
    split; [| |intros t w Hw; by rewrite (start_workers _ _ _ _ _ _ Hinit Hw)];
      destruct (init_shape _ _ _ _ Hinit) as (b1 & ds1 & b2 & ds2 & _ & _ & ->); done.
  - intros e s s' Hreach [K1 K2 K3] Hstep.
    pose proof (reachable_roles _ Hreach) as [R1 _].
    destruct e as [t d|dt| |i|]; simpl in Hstep.
    + pose proof (run_worker_frame _ _ _ _ Hstep) as (_ & _ & _ & _ & _ & _ & Hother).
      assert (is_Some (workers s !! t)) as [w Hw].
      { unfold run_worker in Hstep. destruct (workers s !! t); [eauto|done]. }
      destruct (run_worker_cd _ _ _ _ _ Hw Hstep) as [(Hcd & Htm & Hp)|(Hp & Hcd & Htm)].
      * split; rewrite ?Hcd, ?Htm; try done.
        intros t' x Hx Hpx. destruct (decide (t' = t)) as [->|Hn];
          [|rewrite Hother in Hx by done; by eapply K3].
        clear Hother Hcd Htm.
        worker_cases Hstep w0 Hw0 Hpc; (assert (w0 = w) as -> by congruence);
          cbn in Hx |- *;
          rewrite ?list_lookup_alter_eq, ?Hw0 in Hx; cbn in Hx; simplify_eq/=;
          repeat match goal with
          | H : context [if ?c then _ else _] |- _ => destruct c eqn:?
          end;
          try discriminate;
          try (eapply K3; [done|]; by rewrite Hpc).
        match goal with E : negb (sam_on_cd s) && _ = true |- _ =>
          apply andb_true_iff in E as [E _]; by apply negb_true_iff in E end.
      * assert (sam_on_cd s = false) as Hoff by (apply (K3 _ _ Hw); by rewrite Hp).
        split; rewrite ?Hcd, ?Htm, ?(K2 Hoff); try done.
        intros t' x Hx Hpx. exfalso.
        destruct (decide (t' = t)) as [->|Hn].
        -- clear Hother Hcd Htm.
           worker_cases Hstep w0 Hw0 Hpc; (assert (w0 = w) as -> by congruence);
             try congruence.
           cbn in Hx. rewrite list_lookup_alter_eq, Hw0 in Hx. by simplify_eq/=.
        -- rewrite Hother in Hx by done. apply Hn.
           rewrite (R1 _ _ Hx (or_intror Hpx)). symmetry. apply (R1 _ _ Hw).
           right. by rewrite Hp.
    + destruct (0 <=? dt); simplify_eq/=. by split.
    + simplify_eq/=. by split.
    + unfold fire_timer in Hstep. destruct (timers s !! i) as [wake|] eqn:Hi; [|done].
      destruct (wake <=? now s); simplify_eq/=.
      assert (sam_on_cd s = true) as Hon.
      { destruct (sam_on_cd s) eqn:E; [done|]. by rewrite (K2 eq_refl) in Hi. }
      specialize (K1 Hon). destruct (timers s) as [|x [|y l]]; try done.
      destruct i as [|i]; [|done]. split; simpl; done.
    + unfold run_main in Hstep.
      destruct (main_pc s); try destruct (forallb _ _); simplify_eq/=; by split.
Qed.

Lemma place_toons_frozen ds : ∀ t n used b b' ds',
  place_toons t n used b ds = Some (b', ds') → frozen_until b' = frozen_until b.
Proof.
  induction ds as [|d ds IH]; intros t n used b b' ds' H.
  - destruct n; simpl in H; by simplify_eq.
  - destruct n as [|n]; simpl in H; [by simplify_eq|].
    destruct (negb (draw_ok b d)); [done|].
    destruct (used_at used d.1 d.2 || is_wall b d.1 d.2); [by eapply IH|].
    by apply IH in H.
Qed.


(** ** Cooldown and freeze stamps *)

(** X8. In every reachable state at most one detached cooldown thread is
    pending, and [sam_on_cd] is set exactly while one is.  While the flag
    is set no event changes a freeze stamp (the shooter cannot be inside
    its shot), so an agent on cooldown does not fire. *)
Theorem X8_one_cooldown_timer (s : Race) :
  reachable s →
  (length (timers s) <= 1)%nat
  ∧ (sam_on_cd s = true ↔ timers s ≠ [])
  ∧ (sam_on_cd s = true →
     ∀ e s', step e s = Some s' → frozen_until (board s') = frozen_until (board s))
  ∧ (∀ t w, workers s !! t = Some w → shooting (pc w) = true →
            t = YOSEMITESAM ∧ sam_on_cd s = false ∧ timers s = []).
Proof.
  intros Hreach. destruct (reachable_cooldown _ Hreach) as [K1 K2 K3].
  destruct (reachable_roles _ Hreach) as [R1 _].
  split. { destruct (sam_on_cd s) eqn:E; [rewrite K1|rewrite K2]; simpl; done || lia. }
  split.
  { split.
    - intros Hon Hnil. specialize (K1 Hon). by rewrite Hnil in K1.
    - intros Hne. destruct (sam_on_cd s) eqn:E; [done|]. by rewrite K2 in Hne. }
  split.
  { intros Hon e s' Hstep.
    assert ((∃ t d, e = Run t d) ∨ ¬ (∃ t d, e = Run t d)) as [(t & d & ->)|Hne].
    { destruct e; eauto; right; intros (? & ? & ?); discriminate. }
    - simpl in Hstep.
      assert (is_Some (workers s !! t)) as [w Hw].
      { unfold run_worker in Hstep. destruct (workers s !! t); [eauto|done]. }
      destruct (run_worker_effect _ _ _ _ _ Hw Hstep)
        as [[-> _] | [(dest & _ & -> & _) | (Hp & _)]]; [done | done |].
      assert (sam_on_cd s = false) by (apply (K3 _ _ Hw); by rewrite Hp). congruence.
    - destruct (step_env_frame e s s' Hstep) as (_ & -> & _); [|done].
      intros t d ->. apply Hne. eauto. }
  intros t w Hw Hp. split; [apply (R1 _ _ Hw); by right|].
  pose proof (K3 _ _ Hw Hp). auto.
Qed.

Lemma X8_one_cooldown_timer_witness :
  timers trio_cooldown ≠ [] ∧ (length (timers trio_cooldown) <= 1)%nat.
Proof.
  destruct (X8_one_cooldown_timer trio_cooldown trio_cooldown_reachable)
    as (H1 & H2 & _).
  split; [|exact H1]. apply H2. reflexivity.
Defined.

(** X9. A bound on the freeze stamps.  In every reachable state a
    stamp is either the minimal time point it was initialised with or at
    most the current clock plus the freeze duration; with a zero or
    negative duration (the value is not clamped) no stamp is ever ahead
    of the clock.  This bounds what is stored in [frozen_until], read
    against the clock of the same state.  It does not say which branch
    the freeze test of line 194 takes: that test reads the clock first
    and the stamp afterwards, without the mutex, so it may compare a
    stamp written in between with its older clock reading. *)
Theorem X9_freeze_is_bounded (s : Race) (k : nat) (x : Z) :
  reachable s → frozen_until (board s) !! k = Some x →
  (x = time_point_min ∨ x <= now s + milliseconds (sam_freeze_ms (opt s)))
  ∧ (sam_freeze_ms (opt s) <= 0 → x = time_point_min ∨ ¬ (now s < x)).
Proof.
  intros Hreach Hx.
  assert (x = time_point_min ∨ x <= now s + milliseconds (sam_freeze_ms (opt s))) as H.
  { revert s Hreach k x Hx. apply (reachable_ind (λ s, ∀ k x,
      frozen_until (board s) !! k = Some x →
      x = time_point_min ∨ x <= now s + milliseconds (sam_freeze_ms (opt s)))).
    - intros o ds t0 s0 Hinit k x Hx.
      destruct (init_shape _ _ _ _ Hinit) as (b1 & ds1 & b2 & ds2 & Hw & Hp & ->).
      simpl in *.
      apply place_toons_frozen in Hp. rewrite Hp in Hx.
      apply sprinkle_walls_frame in Hw as (_ & _ & _ & _ & _ & Hfr & _).
      simpl in Hfr. rewrite Hfr in Hx. apply lookup_replicate in Hx as [-> _]. by left.
    - intros e s s' _ IH Hstep k x Hx.
      destruct e as [t d|dt| |i|]; simpl in Hstep.
      + pose proof (run_worker_frame _ _ _ _ Hstep) as (Ho & _ & Hnow & _).
        rewrite Ho, Hnow.
        assert (is_Some (workers s !! t)) as [w Hw].
        { unfold run_worker in Hstep. destruct (workers s !! t); [eauto|done]. }
        destruct (run_worker_effect _ _ _ _ _ Hw Hstep)
          as [[Hb _] | [(dest & _ & Hb & _) | (_ & _ & j & _ & _ & _ & Hb)]];
          rewrite Hb in Hx; simpl in Hx; [by apply (IH k) | by apply (IH k) |].
        apply list_lookup_insert_Some in Hx as [(_ & <- & _)|(_ & Hx)];
          [right; lia | by apply (IH k)].
      + destruct (Z.leb_spec 0 dt); simplify_eq/=.
        destruct (IH k x Hx) as [->|Hle]; [by left|right; lia].
      + simplify_eq/=. by apply (IH k).
      + unfold fire_timer in Hstep. destruct (timers s !! i); [|done].
        destruct (_ <=? _); simplify_eq/=. by apply (IH k).
      + unfold run_main in Hstep.
        destruct (main_pc s); try destruct (forallb _ _); simplify_eq/=; by apply (IH k). }
  split; [done|]. intros Hneg. destruct H as [->|Hle]; [by left|right].
  unfold milliseconds in Hle. lia.
Qed.

Lemma X9_freeze_is_bounded_witness :
  1000000000 = time_point_min
  ∨ 1000000000 <= now trio_shot + milliseconds (sam_freeze_ms (opt trio_shot)).
Proof.
  destruct (X9_freeze_is_bounded trio_shot COYOTE 1000000000 trio_shot_reachable eq_refl)
    as [H _].
  exact H.
Defined.



Lemma solo_burst_prev_reachable : reachable solo_burst_prev.
Proof.
  apply (run_reachable solo_options solo_draws (actions ROADRUNNER go_draw 14)).
  by vm_compute.
Qed.

(** ** How far a toon moves *)

Lemma in_dirs p : p ∈ dirs ↔ Z.abs (r p) + Z.abs (c p) <= 1.
Proof.
  unfold dirs. rewrite !elem_of_cons, elem_of_nil. destruct p as [pr pc]; simpl.
  split.
  - intros [H|[H|[H|[H|[H|[]]]]]]; injection H as -> ->; lia.
  - intros H.
    assert ((pr = -1 ∧ pc = 0) ∨ (pr = 1 ∧ pc = 0) ∨ (pr = 0 ∧ pc = -1)
            ∨ (pr = 0 ∧ pc = 1) ∨ (pr = 0 ∧ pc = 0)) as Hc by lia.
    destruct Hc as [[-> ->]|[[-> ->]|[[-> ->]|[[-> ->]|[-> ->]]]]]; auto 10.
Qed.

Lemma pick_step_dirs i : 0 <= i <= 4 → pick_step i ∈ dirs.
Proof.
  intros Hi. apply in_dirs.
  destruct (pick_step_cases i Hi) as [[_ ->]|[[_ ->]|[[_ ->]|[[_ ->]|[_ ->]]]]];
    simpl; lia.
Qed.

Lemma toward_range goal cur : -1 <= toward goal cur <= 1.
Proof. rewrite toward_sgn. lia. Qed.

Lemma propose_dirs b t d : draws_ok d = true → propose b t d ∈ dirs.
Proof.
  intros Hd. unfold draws_ok in Hd. rewrite !andb_true_iff, !Z.leb_le in Hd.
  unfold propose.
  pose proof (toward_range (r (flag b)) (r (toonPos b !!! t))).
  pose proof (toward_range (c (flag b)) (c (toonPos b !!! t))).
  repeat match goal with |- context [if ?x then _ else _] => destruct x end;
    try (apply pick_step_dirs; lia); apply in_dirs; simpl; lia.
Qed.

Lemma burst_step_dirs b cur pick : 0 <= pick <= 4 → burst_step b cur pick ∈ dirs.
Proof.
  intros Hp. unfold burst_step.
  pose proof (toward_range (r (flag b)) (r cur)).
  pose proof (toward_range (c (flag b)) (c cur)).
  destruct (negb _); [|by apply pick_step_dirs].
  apply in_dirs. simpl.
  destruct (Z.eqb_spec (toward (r (flag b)) (r cur)) 0) as [->|]; simpl; lia.
Qed.

Lemma run_worker_draws t d s s' : run_worker t d s = Some s' → draws_ok d = true.
Proof.
  unfold run_worker. destruct (workers s !! t); [|done].
  by destruct (draws_ok d).
Qed.

(** The step a worker carries from its proposal to its move block is one
    of the five steps. *)
Lemma reachable_step_unit s t w : reachable s → workers s !! t = Some w → step_ w ∈ dirs.
Proof.
  intros Hreach. revert t w. revert s Hreach.
  apply (reachable_ind (λ s, ∀ t w, workers s !! t = Some w → step_ w ∈ dirs)).
  - intros o ds t0 s0 Hinit t w Hw. rewrite (start_workers _ _ _ _ _ _ Hinit Hw).
    apply in_dirs. simpl. lia.
  - intros e s s' _ IH Hstep t' x Hx.
    assert ((∃ t d, e = Run t d) ∨ ¬ (∃ t d, e = Run t d)) as [(t & d & ->)|Hne].
    { destruct e; eauto; right; intros (? & ? & ?); discriminate. }
    + simpl in Hstep. pose proof (run_worker_draws _ _ _ _ Hstep) as Hd.
      pose proof (run_worker_frame _ _ _ _ Hstep) as (_ & _ & _ & _ & _ & _ & Hother).
      destruct (decide (t' = t)) as [->|Hn]; [|rewrite Hother in Hx by done; eauto].
      clear Hother.
      worker_cases Hstep w Hw Hpc; cbn in Hx;
        rewrite ?list_lookup_alter_eq, ?Hw in Hx; cbn in Hx; simplify_eq/=;
        try (by eapply IH). by apply propose_dirs.
    + destruct (step_env_frame e s s' Hstep) as (_ & _ & Hw & _).
      { intros t d ->. apply Hne. eauto. }
      rewrite Hw in Hx. eauto.
Qed.

(** X11. One event moves a toon by at most one cell.  The one exception
    is the Coyote's jump, which moves it exactly two cells along a row or
    a column, over a cell that was not a valid destination. *)
Theorem X11_one_cell_per_move (s s' : Race) (e : Event) (t : nat) (p p' : Pos) :
  reachable s → step e s = Some s' →
  toonPos (board s) !! t = Some p → toonPos (board s') !! t = Some p' →
  manhattan p' p <= 1
  ∨ (t = COYOTE
     ∧ ((Z.abs (r p' - r p) = 2 ∧ c p' = c p) ∨ (r p' = r p ∧ Z.abs (c p' - c p) = 2))
     ∧ valid_dest (board s) COYOTE
         (mkPos (r p + Z.quot (r p' - r p) 2) (c p + Z.quot (c p' - c p) 2)) = false).
Proof.
  intros Hreach Hstep Hp Hp'.
  assert (manhattan p p <= 1) as Hsame by (unfold manhattan; lia).
  assert ((∃ t d, e = Run t d) ∨ ¬ (∃ t d, e = Run t d)) as [(t' & d & ->)|Hne].
  { destruct e; eauto; right; intros (? & ? & ?); discriminate. }
  2: { destruct (step_env_frame e s s' Hstep) as (_ & Hb & _).
       { intros t' d ->. apply Hne. eauto. }
       rewrite Hb, Hp in Hp'. simplify_eq. by left. }
  simpl in Hstep.
  assert (is_Some (workers s !! t')) as [w Hw].
  { unfold run_worker in Hstep. destruct (workers s !! t'); [eauto|done]. }
  pose proof (reachable_step_unit _ _ _ Hreach Hw) as Hunit.
  pose proof (run_worker_draws _ _ _ _ Hstep) as Hd.
  unfold draws_ok in Hd. rewrite !andb_true_iff, !Z.leb_le in Hd.
  destruct (run_worker_effect _ _ _ _ _ Hw Hstep)
    as [[Hb _] | [(dest & _ & Hb & _ & Hcase) | (_ & _ & k & _ & _ & _ & Hb)]].
  - rewrite Hb, Hp in Hp'. simplify_eq. by left.
  - rewrite Hb in Hp'. destruct (decide (t = t')) as [->|Hn].
    2: { rewrite commit_move_pos_other, Hp in Hp' by done. simplify_eq. by left. }
    rewrite commit_move_pos in Hp' by by eapply lookup_lt_Some. simplify_eq.
    rewrite (list_lookup_total_correct _ _ _ Hp) in Hcase.
    destruct Hcase as [(_ & [-> | (-> & Hblk & ->)]) | (_ & ->)].
    + left. apply in_dirs in Hunit. unfold manhattan, add_pos; simpl. lia.
    + rewrite blocked_valid in Hblk. apply negb_true_iff in Hblk.
      unfold dirs in Hunit. rewrite !elem_of_cons, elem_of_nil in Hunit.
      destruct p as [pr pc].
      destruct Hunit as [E|[E|[E|[E|[E|[]]]]]]; rewrite E in *;
        unfold add_pos in *; simpl in *.
      * right. split; [done|]. split; [left; lia|].
        replace (pr + -1 + -1 - pr) with (-2) by lia.
        replace (pc + 0 + 0 - pc) with 0 by lia. exact Hblk.
      * right. split; [done|]. split; [left; lia|].
        replace (pr + 1 + 1 - pr) with 2 by lia.
        replace (pc + 0 + 0 - pc) with 0 by lia. exact Hblk.
      * right. split; [done|]. split; [right; lia|].
        replace (pr + 0 + 0 - pr) with 0 by lia.
        replace (pc + -1 + -1 - pc) with (-2) by lia. exact Hblk.
      * right. split; [done|]. split; [right; lia|].
        replace (pr + 0 + 0 - pr) with 0 by lia.
        replace (pc + 1 + 1 - pc) with 2 by lia. exact Hblk.
      * left. unfold manhattan; simpl. lia.
    + left. pose proof (burst_step_dirs (board s) p (d_pick d) ltac:(lia)) as Hbs.
      apply in_dirs in Hbs. unfold manhattan, add_pos; simpl. lia.
  - rewrite Hb in Hp'. simpl in Hp'. rewrite Hp in Hp'. simplify_eq. by left.
Qed.

Lemma X11_one_cell_per_move_witness : manhattan (mkPos 2 18) (mkPos 2 17) <= 1.
Proof.
  destruct (X11_one_cell_per_move solo_burst_prev solo_burst (Run ROADRUNNER go_draw)
              ROADRUNNER (mkPos 2 17) (mkPos 2 18)) as [H|(H & _)].
  - exact solo_burst_prev_reachable.
  - by vm_compute.
  - reflexivity.
  - reflexivity.
  - exact H.
  - discriminate H.
Defined.

(** X12. The burst step of the RoadRunner is a single step.  Off the
    flag it goes one cell straight toward it, along the row while the row
    differs and along the column once the row is aligned, so a committed
    burst brings the RoadRunner exactly one cell nearer to the flag
    (Manhattan distance); on the flag it is the uniform pick. *)
Theorem X12_burst_goes_toward_flag (b : Board) (cur : Pos) (pick : Z) :
  0 <= pick <= 4 →
  burst_step b cur pick ∈ dirs
  ∧ (r cur ≠ r (flag b) →
     burst_step b cur pick = mkPos (Z.sgn (r (flag b) - r cur)) 0)
  ∧ (r cur = r (flag b) → c cur ≠ c (flag b) →
     burst_step b cur pick = mkPos 0 (Z.sgn (c (flag b) - c cur)))
  ∧ (r cur = r (flag b) → c cur = c (flag b) → burst_step b cur pick = pick_step pick)
  ∧ (cur ≠ flag b →
     manhattan (add_pos cur (burst_step b cur pick)) (flag b)
     = manhattan cur (flag b) - 1).
Proof.
  intros Hp. split; [by apply burst_step_dirs|].
  unfold burst_step, flag_dir, manhattan, add_pos; simpl. rewrite !toward_sgn.
  assert (cur ≠ flag b → r cur ≠ r (flag b) ∨ c cur ≠ c (flag b)) as Hne.
  { intros Hne. destruct (decide (r cur = r (flag b))) as [Hr|]; [|by left].
    right. intros Hc. apply Hne. destruct cur, (flag b); simpl in *. by f_equal. }
  remember (Z.sgn (r (flag b) - r cur)) as sr eqn:Hsr.
  remember (Z.sgn (c (flag b) - c cur)) as sc eqn:Hsc.
  assert (sr = -1 ∨ sr = 0 ∨ sr = 1) as Hr3 by lia.
  assert (sc = -1 ∨ sc = 0 ∨ sc = 1) as Hc3 by lia.
  destruct Hr3 as [Er|[Er|Er]], Hc3 as [Ec|[Ec|Ec]]; rewrite Er, Ec in *; simpl;
    (split; [intros; try done; lia|]);
    (split; [intros; try done; lia|]);
    (split; [intros; try done; lia|]);
    intros Hd; destruct (Hne Hd); simpl; lia.
Qed.

Lemma X12_burst_goes_toward_flag_witness :
  burst_step (board solo_burst_prev) (mkPos 2 17) 4 = mkPos 0 1.
Proof.
  destruct (X12_burst_goes_toward_flag (board solo_burst_prev) (mkPos 2 17) 4)
    as (_ & _ & H & _); [lia|].
  apply H; [reflexivity|]. simpl. lia.
Defined.

(** ** The winner *)

Lemma reachable_winner s : reachable s → winner_ok s.
Proof.
  revert s. apply reachable_ind.
  - intros o ds t0 s0 Hinit t w Hwin.
    destruct (init_shape _ _ _ _ Hinit) as (b1 & ds1 & b2 & ds2 & _ & _ & ->).
    simpl in Hwin. lia.
  - intros e s s' Hreach IH Hstep t x Hwin Hx.
    pose proof (gameOver_mono _ _ _ Hstep) as Hmono.
    assert ((∃ t d, e = Run t d) ∨ ¬ (∃ t d, e = Run t d)) as [(t' & d & ->)|Hne].
    { destruct e; eauto; right; intros (? & ? & ?); discriminate. }
    2: { destruct (step_env_frame e s s' Hstep) as (_ & Hb & Hw & _ & Hg & Hwn & _).
         { intros t' d ->. apply Hne. eauto. }
         rewrite Hb, Hg. rewrite Hw in Hx. rewrite Hwn in Hwin. by apply IH. }
    simpl in Hstep.
    pose proof (run_worker_frame _ _ _ _ Hstep) as (_ & _ & _ & _ & _ & _ & Hother).
    pose proof (run_worker_board _ _ _ _ Hstep) as Hb.
    pose proof (board_step_layout _ _ _ _ Hb) as Hlay.
    destruct (run_worker_flags _ _ _ _ Hstep) as (w & w' & Hw & Hw' & Hflags).
    destruct (reachable_checked _ Hreach) as [K1 _].
    destruct (reachable_Inv _ Hreach) as [_ _ _ [_ _ _ F4 F5]].
    destruct (decide (t = t')) as [->|Hn].
    + assert (x = w') as -> by congruence.
      destruct Hflags as [(Hg & Hwn & Hp1 & Hp2 & Hp3 & Hp4)
                         | [(Hp & Hp' & Hwn & Hg) | (Hp & Hp' & Hg & Hwn)]].
      * rewrite Hwn in Hwin. destruct (IH _ _ Hwin Hw) as [Hwins [Hpc|[Hgo Hpk]]]; [done|].
        assert (board s' = board s ∧ parked (pc w') = true) as [Hbs Hpk'].
        { clear Hother Hb Hlay Hmono IH.
          worker_cases Hstep w0 Hw0 Hpc; (assert (w0 = w) as -> by congruence);
            rewrite Hpc in Hpk; try discriminate;
            cbn in Hw'; rewrite ?list_lookup_alter_eq, ?Hw0 in Hw'; cbn in Hw';
            simplify_eq/=; rewrite ?Hgo, ?andb_false_r; simpl;
            repeat match goal with
            | |- context [if ?c then _ else _] => destruct c
            end; done. }
        rewrite Hbs. split; [done|]. right. split; [by apply Hmono|done].
      * assert (board s' = board s) as Hbs.
        { clear Hother Hb Hlay Hmono IH.
          worker_cases Hstep w0 Hw0 Hpc; (assert (w0 = w) as -> by congruence);
            try congruence. done. }
        rewrite Hbs. split; [eapply K1; eauto|by left].
      * assert (board s' = board s) as Hbs.
        { clear Hother Hb Hlay Hmono IH.
          worker_cases Hstep w0 Hw0 Hpc; (assert (w0 = w) as -> by congruence);
            try congruence. done. }
        rewrite Hbs. split; [eapply K1; eauto|]. right. by rewrite Hp'.
    + rewrite Hother in Hx by done.
      assert (winner s = Z.of_nat t) as Hwin0.
      { destruct Hflags as [(_ & Hwn & _) | [(_ & _ & Hwn & _) | (_ & _ & _ & Hwn)]];
          [congruence | | congruence].
        rewrite Hwn in Hwin. apply Nat2Z.inj in Hwin. by subst. }
      destruct (IH _ _ Hwin0 Hx) as [Hwins Hpc].
      destruct (board_step_other _ _ _ _ t Hb Hn) as [-> _].
      rewrite (wins_layout _ _ _ Hlay). split; [done|].
      destruct Hpc as [Hpc|[Hgo Hpk]]; [by left|right]. split; [by apply Hmono|done].
Qed.

(** X13. The recorded winner stands on a winning cell, in the state in
    which it is recorded and in every later one: once recorded, its toon
    is not moved and not counted any more, and its worker only finishes
    the tick and leaves the loop. *)
Theorem X13_winner_stays_on_winning_cell (s : Race) (t : nat) :
  reachable s → winner s = Z.of_nat t →
  wins (board s) (toonPos (board s) !!! t) = true
  ∧ (∃ w, workers s !! t = Some w
          ∧ (pc w = StoreGameOver ∨ (gameOver s = true ∧ parked (pc w) = true)))
  ∧ (∀ e s', step e s = Some s' →
       winner s' = Z.of_nat t
       ∧ toonPos (board s') !! t = toonPos (board s) !! t
       ∧ steps (board s') !! t = steps (board s) !! t).
Proof.
  intros Hreach Hwin.
  destruct (reachable_Inv _ Hreach) as [Hsz _ _ [_ F2 _ _ _]].
  assert (is_Some (workers s !! t)) as [w Hw].
  { apply lookup_lt_is_Some. rewrite (sz_workers _ Hsz). destruct F2; lia. }
  destruct (reachable_winner _ Hreach t w Hwin Hw) as [Hwins Hpc].
  split; [done|]. split; [by exists w|].
  intros e s' Hstep.
  assert (winner s' = Z.of_nat t) as Hwin'.
  { destruct e as [t' d|dt| |i|];
      try (destruct (step_env_frame _ _ _ Hstep) as (_ & _ & _ & _ & _ & E & _);
           [done|congruence]).
    simpl in Hstep.
    destruct (run_worker_flags _ _ _ _ Hstep) as (w1 & w1' & Hw1 & _ & Hc).
    destruct Hc as [(_ & E & _) | [(Hp & _) | (_ & _ & _ & E)]]; [congruence | | congruence].
    destruct (reachable_Inv _ Hreach) as [_ _ _ [_ _ _ F4 _]].
    destruct (F4 _ _ Hw1 Hp) as [_ Hnone]. lia. }
  split; [done|].
  assert ((∃ t d, e = Run t d) ∨ ¬ (∃ t d, e = Run t d)) as [(t' & d & ->)|Hne].
  { destruct e; eauto; right; intros (? & ? & ?); discriminate. }
  2: { destruct (step_env_frame e s s' Hstep) as (_ & -> & _); [|done].
       intros t' d ->. apply Hne. eauto. }
  simpl in Hstep.
  assert (is_Some (workers s !! t')) as [w1 Hw1].
  { unfold run_worker in Hstep. destruct (workers s !! t'); [eauto|done]. }
  destruct (run_worker_effect _ _ _ _ _ Hw1 Hstep)
    as [[-> _] | [(dest & _ & -> & _ & Hcase) | (_ & _ & k & _ & _ & _ & ->)]];
    [done | | done].
  destruct (decide (t = t')) as [->|Hn].
  - assert (w1 = w) as -> by congruence.
    destruct Hcase as [[Hp _]|[Hp _]], Hpc as [Hq|[_ Hq]]; rewrite Hp in Hq; done.
  - by rewrite commit_move_pos_other, commit_move_steps_other.
Qed.

Lemma solo_stored_reachable : reachable solo_stored.
Proof.
  apply (run_reachable solo_options solo_draws (actions ROADRUNNER go_draw 27)).
  by vm_compute.
Qed.

Lemma X13_winner_stays_on_winning_cell_witness :
  wins (board solo_stored) (toonPos (board solo_stored) !!! ROADRUNNER) = true.
Proof.
  destruct (X13_winner_stays_on_winning_cell solo_stored ROADRUNNER
              solo_stored_reachable eq_refl) as [H _].
  exact H.
Defined.

(** ** After the win *)

Lemma sum_map_insert (f : Worker → nat) (l : list Worker) t x y :
  l !! t = Some x →
  (sum_list (map f (<[t := y]> l)) + f x = sum_list (map f l) + f y)%nat.
Proof.
  revert t. induction l as [|a l IH]; intros t Hx; [done|].
  destruct t as [|t]; simpl in *.
  - simplify_eq. lia.
  - specialize (IH t Hx). lia.
Qed.

(** Once [gameOver] is set every action of a worker brings it closer to
    the end of its loop. *)
Lemma run_worker_rank_win t d s s' w :
  gameOver s = true → workers s !! t = Some w → run_worker t d s = Some s' →
  ∃ w', workers s' = <[t := w']> (workers s) ∧ (rank_win (pc w') < rank_win (pc w))%nat.
Proof.
  intros Hg Hw H.
  pose proof (run_worker_frame _ _ _ _ H) as (_ & _ & _ & _ & _ & Hlen & Hother).
  assert (∃ w', workers s' !! t = Some w' ∧ (rank_win (pc w') < rank_win (pc w))%nat)
    as (w' & Hw' & Hr).
  { clear Hlen Hother.
    worker_cases H w0 Hw0 Hpc; (assert (w0 = w) as -> by congruence);
      cbn; rewrite ?list_lookup_alter_eq, ?Hw0; cbn;
      eexists; (split; [reflexivity|]); cbn; rewrite Hpc, ?Hg;
      repeat match goal with
      | |- context [if ?x then _ else _] => destruct x
      end; simpl; lia. }
  exists w'. split; [|done].
  apply list_eq. intros i. destruct (decide (i = t)) as [->|Hne].
  - rewrite Hw', list_lookup_insert_eq; [done|]. by eapply lookup_lt_Some.
  - rewrite list_lookup_insert_ne by done. by apply Hother.
Qed.

Lemma action_remaining_win e s s' :
  gameOver s = true → is_action e = true → step e s = Some s' →
  (remaining_win s' < remaining_win s)%nat.
Proof.
  intros Hg He H. destruct e as [t d|dt| |i|]; try discriminate; simpl in H.
  - pose proof (run_worker_frame _ _ _ _ H) as (_ & _ & _ & Hm & _).
    assert (is_Some (workers s !! t)) as [w Hw].
    { unfold run_worker in H. destruct (workers s !! t); [eauto|done]. }
    destruct (run_worker_rank_win _ _ _ _ _ Hg Hw H) as (w' & Hws & Hr).
    unfold remaining_win. rewrite Hm, Hws.
    pose proof (sum_map_insert (λ w, rank_win (pc w)) _ _ _ w' Hw). simpl in *. lia.
  - unfold run_main in H. unfold remaining_win.
    destruct (main_pc s) eqn:Hm; try destruct (forallb _ _); simplify_eq/=;
      rewrite ?Hg; try destruct (gStop s); simpl; lia.
Qed.

Lemma actions_bounded_win es : ∀ s s',
  gameOver s = true → forallb is_action es = true → run es s = Some s' →
  (length es + remaining_win s' <= remaining_win s)%nat.
Proof.
  induction es as [|e es IH]; intros s s' Hg Hall Hrun; simpl in *.
  - simplify_eq. lia.
  - apply andb_true_iff in Hall as [He Hall].
    destruct (step e s) as [s1|] eqn:Hs; [|done].
    pose proof (action_remaining_win _ _ _ Hg He Hs).
    pose proof (IH _ _ (gameOver_mono _ _ _ Hs Hg) Hall Hrun). lia.
Qed.

(** X14. Once [gameOver] is set the race winds down: the flag stays
    set, every action of a worker or of [main] lowers the bound
    [remaining_win] (each worker finishes at most the tick it is in), one
    such action can always be taken until [main] has returned, and the
    report of [main] is the final board followed by the summary: the
    header, one line per toon and the line naming the recorded winner. *)
Theorem X14_win_ends_the_race (s : Race) :
  reachable s → gameOver s = true →
  (∀ e s', step e s = Some s' → reachable s' ∧ gameOver s' = true)
  ∧ (∀ e s', is_action e = true → step e s = Some s' →
       (remaining_win s' < remaining_win s)%nat)
  ∧ (∀ es s', forallb is_action es = true → run es s = Some s' →
       (length es + remaining_win s' <= remaining_win s)%nat)
  ∧ (main_pc s ≠ MainReturned → ∃ e s', is_action e = true ∧ step e s = Some s')
  ∧ (main_pc s = MainReport →
       ∃ s' t nm, step MainRun s = Some s' ∧ main_pc s' = MainReturned
         ∧ winner s = Z.of_nat t ∧ TOON_NM !! t = Some nm
         ∧ stdout s'
           = print_board (board s) (rebuild_grid (board s)) (totalSteps s)
             ++ ["=== Final Summary ==="%string]
             ++ summary_lines TOON_NM TOON_CH (steps (board s))
             ++ [("Winner: " ++ nm)%string]).
Proof.
  intros Hreach Hg.
  split. { intros e s' Hs. split; [by eapply reachable_step | by eapply gameOver_mono]. }
  split. { intros e s' He Hs. by eapply action_remaining_win. }
  split. { intros es s' Hall Hrun. by eapply actions_bounded_win. }
  split. { by apply action_enabled. }
  intros Hm.
  destruct (reachable_Inv _ Hreach) as [_ _ _ [F1 F2 _ _ _]].
  destruct (reachable_setup _ Hreach) as [_ _ _ Ht].
  specialize (F1 Hg). destruct F2 as [|F2]; [done|].
  assert (Z.to_nat (winner s) < 3)%nat as Hlt by (unfold ntoons in F2; lia).
  destruct (lookup_lt_is_Some_2 TOON_NM (Z.to_nat (winner s)) Hlt) as [nm Hnm].
  eexists _, (Z.to_nat (winner s)), nm. simpl. unfold run_main. rewrite Hm.
  split; [reflexivity|]. split; [done|]. split; [lia|]. split; [done|].
  simpl. unfold final_report, final_summary.
  destruct (Z.geb_spec (winner s) 0); [|lia].
  by rewrite (list_lookup_total_correct _ _ _ Hnm).
Qed.

Lemma solo_won_reachable : reachable solo_won.
Proof. apply (run_reachable solo_options solo_draws solo_won_events). by vm_compute. Qed.

Lemma solo_won_reported_reachable : reachable solo_won_reported.
Proof.
  apply (run_reachable solo_options solo_draws solo_won_reported_events). by vm_compute.
Qed.

Lemma X14_win_ends_the_race_witness :
  ∃ s', step MainRun solo_won = Some s'
        ∧ stdout s' =
          ["+--------------------+"; "|###................||";
           "|...................||"; "|..................R||";
           "|...................||"; "|...................||";
           "+--------------------+"; "steps: 3"; "";
           "=== Final Summary ==="; "RoadRunner (R) steps: 3";
           "Winner: RoadRunner"]%string.
Proof.
  destruct (X14_win_ends_the_race solo_won solo_won_reachable eq_refl)
    as (_ & _ & _ & _ & H).
  destruct (H eq_refl) as (s' & t & nm & H1 & _ & Ht & Hnm & Hout).
  exists s'. split; [exact H1|]. rewrite Hout.
  assert (winner solo_won = 0) as Hw by (by vm_compute).
  rewrite Hw in Ht. assert (t = 0%nat) as -> by lia.
  injection Hnm as <-. by vm_compute.
Defined.

(** ** The report *)

Lemma reachable_report s : reachable s → report_ok s.
Proof.
  revert s. apply reachable_ind.
  - intros o ds t0 s0 Hinit.
    destruct (init_shape _ _ _ _ Hinit) as (b1 & ds1 & b2 & ds2 & _ & _ & ->).
    split; simpl; try done. by intros [?|?].
  - intros e s s' _ [P1 P2] Hstep.
    destruct e as [t d|dt| |i|]; simpl in Hstep.
    + pose proof (run_worker_frame _ _ _ _ Hstep) as (_ & _ & _ & Hm & Hout & _ & _).
      assert (¬ (main_pc s = MainReport ∨ main_pc s = MainReturned)) as Hrun.
      { intros Hm'. unfold run_worker in Hstep.
        destruct (workers s !! t) as [w|] eqn:Hw; [|done].
        rewrite (P1 Hm' _ _ Hw) in Hstep. by destruct (negb _). }
      split; rewrite Hm, ?Hout.
      * intros Hm'. by destruct Hrun.
      * intros Hm'. destruct Hrun. by right.
    + destruct (0 <=? dt); simplify_eq/=. by split.
    + simplify_eq/=. by split.
    + unfold fire_timer in Hstep. destruct (timers s !! i); [|done].
      destruct (_ <=? _); simplify_eq/=. by split.
    + unfold run_main in Hstep.
      destruct (main_pc s) eqn:Hm; try destruct (forallb _ _) eqn:Hall;
        simplify_eq/=.
      * split; simpl; [|by destruct (gameOver s)].
        destruct (gameOver s); by intros [?|?].
      * split; simpl; [|by destruct (gStop s)].
        destruct (gStop s); by intros [?|?].
      * split; simpl; [|done]. intros _ t w Hw.
        rewrite forallb_forall in Hall.
        assert (In w (workers s)) as Hin.
        { apply list_elem_of_In, list_elem_of_lookup. eauto. }
        apply Hall in Hin. by apply bool_decide_eq_true in Hin.
      * split; simpl; [|done]. intros _. apply P1. by left.
Qed.

(** X15. [main] reports only after every worker has left its loop, so
    nothing can change the board, the counters or the winner any more;
    what it has written at the end, once it returned, is the report of
    that final state. *)
Theorem X15_report_shows_final_state (s : Race) :
  reachable s →
  (main_pc s = MainReport ∨ main_pc s = MainReturned →
     (∀ t w, workers s !! t = Some w → pc w = Exited)
     ∧ (∀ t d, run_worker t d s = None)
     ∧ (∀ e s', step e s = Some s' →
          board s' = board s ∧ totalSteps s' = totalSteps s ∧ winner s' = winner s))
  ∧ (main_pc s = MainReturned →
     stdout s = final_report (board s) (totalSteps s) (winner s)).
Proof.
  intros Hreach. destruct (reachable_report _ Hreach) as [P1 P2].
  split; [|done]. intros Hm. specialize (P1 Hm).
  assert (∀ t d, run_worker t d s = None) as Hnone.
  { intros t d. unfold run_worker. destruct (workers s !! t) as [w|] eqn:Hw; [|done].
    rewrite (P1 _ _ Hw). by destruct (negb _). }
  split; [done|]. split; [done|].
  intros e s' Hstep. destruct e as [t d|dt| |i|];
    try (destruct (step_env_frame _ _ _ Hstep) as (_ & -> & _ & _ & _ & -> & ->); done).
  simpl in Hstep. by rewrite Hnone in Hstep.
Qed.

Lemma X15_report_shows_final_state_witness :
  stdout solo_won_reported
  = final_report (board solo_won_reported) (totalSteps solo_won_reported)
      (winner solo_won_reported).
Proof.
  destruct (X15_report_shows_final_state solo_won_reported solo_won_reported_reachable)
    as (_ & H).
  apply H. reflexivity.
Defined.

(** ** The mutex *)

(** X16. [board.mtx] gives mutual exclusion: at most one worker is
    inside a guarded block; a worker whose draws are in range is stuck
    only when it has left its loop or asks for the mutex while another
    worker owns it; the mutex changes hands only by an acquisition when
    it is free or a release by its owner; and the board, [totalSteps],
    [winner] and [gameOver] are written only by the owner, inside its
    guarded block. *)
Theorem X16_mutual_exclusion (s : Race) :
  reachable s →
  (∀ t1 t2 w1 w2, workers s !! t1 = Some w1 → workers s !! t2 = Some w2 →
     holds_lock (pc w1) = true → holds_lock (pc w2) = true → t1 = t2)
  ∧ (∀ t w d, workers s !! t = Some w → draws_ok d = true →
       (run_worker t d s = None
        ↔ pc w = Exited ∨ (at_lock (pc w) = true ∧ ∃ t', t' ≠ t ∧ mtx s = Some t')))
  ∧ (∀ t d s', run_worker t d s = Some s' →
       (mtx s' = mtx s ∨ (mtx s = None ∧ mtx s' = Some t)
        ∨ (mtx s = Some t ∧ mtx s' = None))
       ∧ ((mtx s = Some t ∧ mtx s' = Some t)
          ∨ (board s' = board s ∧ totalSteps s' = totalSteps s
             ∧ winner s' = winner s ∧ gameOver s' = gameOver s))).
Proof.
  intros Hreach. destruct (reachable_Inv _ Hreach) as [_ _ Hlock _].
  split; [|split].
  - intros t1 t2 w1 w2 H1 H2 Hh1 Hh2.
    apply (Hlock _ _ H1) in Hh1. apply (Hlock _ _ H2) in Hh2. congruence.
  - intros t w d Hw Hd. unfold run_worker. rewrite Hw, Hd. simpl.
    pose proof (Hlock _ _ Hw) as Hl. unfold acquire.
    destruct (pc w) eqn:Hpc; simpl in *;
      try (split; [discriminate | intros [?|[? _]]; discriminate]);
      try (destruct (burst_block _ _ _ _);
           split; [discriminate | intros [?|[? _]]; discriminate]);
      try (split; [auto | done]);
      (destruct (mtx s) as [o|] eqn:Ho;
       [ split; [|done]; intros _; right; split; [done|]; exists o; split; [|done];
         intros ->; by destruct Hl as [_ Hl]; specialize (Hl eq_refl)
       | split; [discriminate|]; intros [?|[_ (? & _ & ?)]]; discriminate ]).
  - intros t d s' H.
    worker_cases H w Hw Hpc; pose proof (Hlock _ _ Hw) as Hl; rewrite Hpc in Hl;
      simpl in Hl; cbn;
      try (assert (mtx s = Some t) as Hm by (by apply Hl); rewrite ?Hm);
      tauto.
Qed.

Lemma trio_contended_reachable : reachable trio_contended.
Proof.
  apply (run_reachable trio_options trio_draws trio_contended_events). by vm_compute.
Qed.

Lemma X16_mutual_exclusion_witness :
  mtx trio_contended = Some YOSEMITESAM
  ∧ run_worker COYOTE go_draw trio_contended = None.
Proof.
  split; [reflexivity|].
  destruct (X16_mutual_exclusion trio_contended trio_contended_reachable) as (_ & H & _).
  apply (H COYOTE (mkWorker ProposeLock (mkPos 0 0) false) go_draw);
    [reflexivity | reflexivity |].
  right. split; [reflexivity|]. exists YOSEMITESAM. split; [discriminate | reflexivity].
Defined.

(** ** Rendering *)

Lemma grid_at_put_eq {A} nr nc row col (x : A) g :
  dims nr nc g → (Z.to_nat row < nr)%nat → (Z.to_nat col < nc)%nat →
  grid_at (put row col x g) row col = Some x.
Proof.
  intros [Hl Hall] Hr Hc. unfold grid_at, put.
  rewrite list_lookup_alter_eq.
  destruct (lookup_lt_is_Some_2 g (Z.to_nat row)) as [line Hline]; [lia|].
  rewrite Hline. simpl.
  apply list_lookup_insert_eq.
  rewrite Forall_lookup in Hall. rewrite (Hall _ _ Hline). done.
Qed.

Lemma grid_at_put_ne {A} row col (x : A) g row' col' :
  0 <= row → 0 <= col → 0 <= row' → 0 <= col' → (row', col') ≠ (row, col) →
  grid_at (put row col x g) row' col' = grid_at g row' col'.
Proof.
  intros ? ? ? ? Hne. unfold grid_at, put.
  destruct (decide (Z.to_nat row' = Z.to_nat row)) as [Hr|Hr].
  - rewrite Hr, list_lookup_alter_eq.
    destruct (g !! Z.to_nat row) as [line|]; [|done]. simpl.
    apply list_lookup_insert_ne. intros Hc. apply Hne. f_equal; lia.
  - by rewrite list_lookup_alter_ne.
Qed.

Lemma dims_overlay_toons nr nc ps : ∀ chs (g : list (list ascii)),
  dims nr nc g → dims nr nc (overlay_toons ps chs g).
Proof.
  induction ps as [|p ps IH]; intros chs g Hd; [done|].
  destruct chs as [|ch chs]; [done|]. simpl. apply IH. by apply dims_put.
Qed.

Lemma overlay_toons_other ps row col : ∀ chs (g : list (list ascii)),
  0 <= row → 0 <= col →
  (∀ p, p ∈ ps → 0 <= r p ∧ 0 <= c p ∧ p ≠ mkPos row col) →
  grid_at (overlay_toons ps chs g) row col = grid_at g row col.
Proof.
  induction ps as [|p ps IH]; intros chs g Hr Hc Hps; [done|].
  destruct chs as [|ch chs]; [done|]. simpl.
  rewrite IH; [|done|done|].
  - destruct (Hps p) as (? & ? & Hne); [by left|].
    apply grid_at_put_ne; try done.
    intros [= -> ->]. apply Hne. by destruct p.
  - intros q Hq. apply Hps. by right.
Qed.

Lemma overlay_toons_at nr nc ps : ∀ chs (g : list (list ascii)) t p ch,
  dims nr nc g →
  (∀ q, q ∈ ps → 0 <= r q ∧ 0 <= c q ∧ (Z.to_nat (r q) < nr)%nat ∧ (Z.to_nat (c q) < nc)%nat) →
  (∀ t1 t2 q, ps !! t1 = Some q → ps !! t2 = Some q → t1 = t2) →
  ps !! t = Some p → chs !! t = Some ch →
  grid_at (overlay_toons ps chs g) (r p) (c p) = Some ch.
Proof.
  induction ps as [|p0 ps IH]; intros chs g t p ch Hd Hin Hap Hp Hch; [done|].
  destruct chs as [|ch0 chs]; [done|]. simpl.
  destruct t as [|t]; simpl in Hp, Hch.
  - simplify_eq.
    destruct (Hin p) as (? & ? & ? & ?); [by left|].
    rewrite overlay_toons_other; [by eapply grid_at_put_eq|done|done|].
    intros q Hq. destruct (Hin q) as (? & ? & _); [by right|].
    split; [done|]. split; [done|].
    apply list_elem_of_lookup in Hq as [i Hi].
    intros ->. destruct p as [pr pc0]. simpl in *.
    by specialize (Hap 0%nat (S i) _ eq_refl Hi).
  - eapply IH; [by apply dims_put| | |done|done].
    + intros q Hq. apply Hin. by right.
    + intros t1 t2 q H1 H2.
      specialize (Hap (S t1) (S t2) q H1 H2). lia.
Qed.

Lemma grid_at_finish {A} (x : A) fc g row col nr nc :
  dims nr nc g → (Z.to_nat row < nr)%nat → (Z.to_nat col < nc)%nat →
  0 <= col → 0 <= fc →
  grid_at (map (λ line, <[Z.to_nat fc := x]> line) g) row col
  = if col =? fc then Some x else grid_at g row col.
Proof.
  intros [Hl Hall] Hr Hc ? ?. unfold grid_at. rewrite list_lookup_fmap.
  destruct (lookup_lt_is_Some_2 g (Z.to_nat row)) as [line Hline]; [lia|].
  rewrite Hline. simpl.
  rewrite Forall_lookup in Hall. pose proof (Hall _ _ Hline) as Hlen.
  destruct (Z.eqb_spec col fc) as [->|Hne].
  - apply list_lookup_insert_eq. lia.
  - apply list_lookup_insert_ne. lia.
Qed.

Lemma dims_finish {A} (x : A) fc g nr nc :
  dims nr nc g → dims nr nc (map (λ line, <[fc := x]> line) g).
Proof.
  intros [Hl Hall]. split; [by rewrite length_map|].
  apply Forall_fmap. eapply Forall_impl; [done|].
  intros line Hline. simpl. by rewrite length_insert.
Qed.

Lemma inBounds_inv b row col :
  inBounds b row col = true → 0 <= row < R b ∧ 0 <= col < C b.
Proof. unfold inBounds. lia. Qed.

(** X17. What [rebuild_grid] draws: the grid keeps its [R] x [C] shape;
    every toon appears as its own letter on the cell it stands on; a cell
    without a toon shows the bar in the finish column, [F] on the flag,
    and the static cell (open or wall) everywhere else. *)
Theorem X17_grid_shows_the_race (s : Race) :
  reachable s →
  let b := board s in
  let g := rebuild_grid b in
  dims (Z.to_nat (R b)) (Z.to_nat (C b)) g
  ∧ (∀ t p, toonPos b !! t = Some p →
       ∃ ch, TOON_CH !! t = Some ch ∧ grid_at g (r p) (c p) = Some ch)
  ∧ (∀ row col, inBounds b row col = true →
       (∀ t p, toonPos b !! t = Some p → p ≠ mkPos row col) →
       grid_at g row col
       = if col =? finishCol b then Some "|"%char
         else if (row =? r (flag b)) && (col =? c (flag b)) then Some "F"%char
         else cell_at b row col).
Proof.
  intros Hreach b g.
  destruct (reachable_Inv _ Hreach) as [Hsz [Hfree Hapart] _ _].
  destruct (reachable_setup _ Hreach) as [[L1 L2 L3 L4 L5 _ _] _ _ Ht].
  fold b in Hfree, Hapart, L1, L2, L3, L4, L5.
  set (g1 := map (λ line, <[Z.to_nat (finishCol b) := "|"%char]> line) (cell b)).
  set (g2 := put (r (flag b)) (c (flag b)) "F"%char g1).
  assert (dims (Z.to_nat (R b)) (Z.to_nat (C b)) g1) as D1 by by apply dims_finish.
  assert (dims (Z.to_nat (R b)) (Z.to_nat (C b)) g2) as D2 by by apply dims_put.
  assert (∀ q, q ∈ toonPos b → 0 <= r q < R b ∧ 0 <= c q < C b) as Hin.
  { intros q Hq. apply list_elem_of_lookup in Hq as [i Hi].
    destruct (Hfree _ _ Hi) as (Hb & _). by apply inBounds_inv. }
  assert (0 <= r (flag b) < R b ∧ 0 <= c (flag b) < C b) as Hflag.
  { rewrite L4. simpl. rewrite Z.quot_div_nonneg by lia.
    pose proof (Z.div_pos (R b) 2). pose proof (Z.div_lt (R b) 2). lia. }
  split; [by apply dims_overlay_toons|]. split.
  - intros t p Hp.
    assert (t < 3)%nat as Hlt.
    { apply lookup_lt_Some in Hp. destruct Hsz as [Hlen _ _ _ _ _ _ _].
      fold b in Hlen. unfold ntoons in Hlen. lia. }
    destruct (lookup_lt_is_Some_2 TOON_CH t Hlt) as [ch Hch].
    exists ch. split; [done|].
    apply (overlay_toons_at (Z.to_nat (R b)) (Z.to_nat (C b)) _ _ _ t); try done.
    intros q Hq. specialize (Hin q Hq). lia.
  - intros row col Hb Hno.
    apply inBounds_inv in Hb. unfold g, rebuild_grid. fold g1 g2.
    rewrite overlay_toons_other; [|lia|lia|].
    2:{ intros q Hq. specialize (Hin q Hq). split; [lia|]. split; [lia|].
        apply list_elem_of_lookup in Hq as [i Hi]. by apply (Hno i). }
    destruct (Z.eqb_spec col (finishCol b)) as [Hfc|Hfc].
    + unfold g2. rewrite grid_at_put_ne; [|lia|lia|lia|lia|].
      2:{ intros [= _ Hc]. rewrite L4 in Hc. simpl in Hc. lia. }
      unfold g1. rewrite (grid_at_finish _ _ _ _ _ (Z.to_nat (R b)) (Z.to_nat (C b)));
        [|done|lia|lia|lia|lia].
      destruct (Z.eqb_spec col (finishCol b)); [done|lia].
    + destruct (Z.eqb_spec row (r (flag b))) as [->|Hr];
        [destruct (Z.eqb_spec col (c (flag b))) as [->|Hc]|]; simpl.
      * unfold g2. eapply grid_at_put_eq; [done|lia|lia].
      * unfold g2. rewrite grid_at_put_ne; [|lia|lia|lia|lia|congruence].
        unfold g1. rewrite (grid_at_finish _ _ _ _ _ (Z.to_nat (R b)) (Z.to_nat (C b)));
          [|done|lia|lia|lia|lia].
        destruct (Z.eqb_spec col (finishCol b)); [lia|done].
      * unfold g2. rewrite grid_at_put_ne; [|lia|lia|lia|lia|congruence].
        unfold g1. rewrite (grid_at_finish _ _ _ _ _ (Z.to_nat (R b)) (Z.to_nat (C b)));
          [|done|lia|lia|lia|lia].
        destruct (Z.eqb_spec col (finishCol b)); [lia|done].
Qed.

Lemma X17_grid_shows_the_race_witness :
  grid_at (rebuild_grid (board solo_won)) 2 18 = Some "R"%char
  ∧ grid_at (rebuild_grid (board solo_won)) 2 19 = Some "|"%char.
Proof.
  destruct (X17_grid_shows_the_race solo_won solo_won_reachable) as (_ & H1 & H2).
  split.
  - destruct (H1 ROADRUNNER (mkPos 2 18) eq_refl) as (ch & Hch & Hg).
    injection Hch as <-. exact Hg.
  - rewrite (H2 2 19); [reflexivity | reflexivity |].
    intros [|t] p Hp; [|discriminate]. injection Hp as <-. discriminate.
Defined.

Lemma string_length_app (s1 s2 : string) :
  String.length (s1 ++ s2) = (String.length s1 + String.length s2)%nat.
Proof. induction s1 as [|a s1 IH]; simpl; [done|]. by rewrite IH. Qed.

Lemma string_length_of_list (l : list ascii) :
  String.length (string_of_list_ascii l) = length l.
Proof. induction l as [|a l IH]; simpl; [done|]. by rewrite IH. Qed.

Lemma border_length n :
  String.length ("+" ++ dashes n ++ "+") = (Z.to_nat n + 2)%nat.
Proof.
  rewrite !string_length_app. unfold dashes.
  rewrite string_length_of_list, length_replicate. simpl. lia.
Qed.

(** X18. The frame written by [print_board] after [rebuild_grid] is a
    rectangle: [R + 4] lines, of which the first [R + 2] (the two borders
    and, between them, the [R] rows of the grid between bars) are
    [C + 2] characters long; the counter line and an empty line follow. *)
Theorem X18_frame_is_rectangular (s : Race) (total : Z) :
  reachable s →
  let b := board s in
  let out := print_board b (rebuild_grid b) total in
  length out = (Z.to_nat (R b) + 4)%nat
  ∧ (∀ i line, (i < Z.to_nat (R b) + 2)%nat → out !! i = Some line →
       String.length line = (Z.to_nat (C b) + 2)%nat)
  ∧ (∀ i, (i < Z.to_nat (R b))%nat →
       ∃ row, rebuild_grid b !! i = Some row ∧ length row = Z.to_nat (C b)
              ∧ out !! S i = Some ("|" ++ string_of_list_ascii row ++ "|")%string)
  ∧ drop (Z.to_nat (R b) + 2) out = [("steps: " ++ to_string total)%string; ""%string].
Proof.
  intros Hreach b out.
  destruct (reachable_Inv _ Hreach) as [_ [Hfree Hapart] _ _].
  destruct (reachable_setup _ Hreach) as [[L1 L2 L3 L4 L5 _ _] _ _ _].
  fold b in L1, L2, L3, L4, L5.
  assert (dims (Z.to_nat (R b)) (Z.to_nat (C b)) (rebuild_grid b)) as [Hl Hall].
  { apply dims_overlay_toons, dims_put. by apply dims_finish. }
  rewrite Forall_lookup in Hall.
  set (f := λ line : list ascii, ("|" ++ string_of_list_ascii line ++ "|")%string).
  assert (length (map f (rebuild_grid b)) = Z.to_nat (R b)) as Hlm
    by by rewrite length_map.
  assert (∀ i, (i < Z.to_nat (R b))%nat →
       ∃ row, rebuild_grid b !! i = Some row ∧ length row = Z.to_nat (C b)
              ∧ out !! S i = Some (f row)) as Hrows.
  { intros i Hi.
    destruct (lookup_lt_is_Some_2 (rebuild_grid b) i) as [row Hrow]; [lia|].
    exists row. split; [done|]. split; [by eapply Hall|].
    unfold out, print_board. fold f. simpl.
    rewrite lookup_app_l by lia. by rewrite list_lookup_fmap, Hrow. }
  split; [|split; [|split]].
  - unfold out, print_board. fold f. simpl. rewrite length_app, Hlm. simpl. lia.
  - intros i line Hi Hline.
    destruct i as [|i].
    { unfold out, print_board in Hline. simpl in Hline. injection Hline as <-.
      apply border_length. }
    destruct (decide (i < Z.to_nat (R b))%nat) as [Hlt|Hge].
    + destruct (Hrows i Hlt) as (row & _ & Hlen & Ho).
      rewrite Ho in Hline. injection Hline as <-. unfold f.
      rewrite !string_length_app, string_length_of_list, Hlen. simpl. lia.
    + assert (i = Z.to_nat (R b)) as -> by lia.
      unfold out, print_board in Hline. fold f in Hline. simpl in Hline.
      rewrite lookup_app_r in Hline by lia.
      rewrite Hlm, Nat.sub_diag in Hline. simpl in Hline. injection Hline as <-.
      apply border_length.
  - exact Hrows.
  - unfold out, print_board. fold f.
    replace (Z.to_nat (R b) + 2)%nat with (S (length (map f (rebuild_grid b)) + 1)) by lia.
    simpl. rewrite drop_app_add'; [|done]. done.
Qed.

Lemma X18_frame_is_rectangular_witness :
  print_board (board solo_won) (rebuild_grid (board solo_won)) 3 !! 3%nat
  = Some "|..................R||"%string.
Proof.
  destruct (X18_frame_is_rectangular solo_won 3 solo_won_reachable) as (_ & _ & H & _).
  destruct (H 2%nat) as (row & Hrow & _ & Hout); [vm_compute; lia|].
  rewrite Hout. vm_compute in Hrow. injection Hrow as <-. reflexivity.
Defined.

(** ** The column of the flag *)

Lemma init_cols o ds t0 s0 :
  init (parseArgs o) ds t0 = Some s0 →
  ∀ t p, toonPos (board s0) !! t = Some p → 0 <= c p <= C (board s0) - 3.
Proof.
  intros Hinit.
  destruct (init_shape _ _ _ _ Hinit) as (b1 & ds1 & b2 & ds2 & Hw & Hp & ->).
  simpl in *.
  pose proof (place_toons_layout _ _ _ _ _ _ _ Hp) as Hlay.
  pose proof (place_toons_cols _ _ _ _ _ _ _ Hp) as Hcols.
  unfold layout in Hlay. injection Hlay as _ HC2 _ _ _.
  apply place_toons_spec in Hp as (_ & _ & _ & Hlen & _).
  - apply sprinkle_walls_frame in Hw as (_ & _ & _ & _ & Hpos & _).
    simpl in *. intros t p Hp. rewrite HC2.
    apply (Hcols ltac:(intros; lia) t p); [|done].
    apply lookup_lt_Some in Hp. rewrite Hlen, Hpos, length_replicate in Hp. lia.
  - apply sprinkle_walls_frame in Hw as (_ & HC & Hfin & _). simpl in *. lia.
  - apply dims_put, dims_replicate.
  - apply sprinkle_walls_frame in Hw as (_ & _ & _ & _ & Hpos & _). simpl in *.
    rewrite Hpos, length_replicate. lia.
  - intros; lia.
  - intros; lia.
Qed.

Lemma wins_goal_col b p :
  finishCol b = C b - 1 → flag b = mkPos (Z.quot (R b) 2) (C b - 2) →
  c p = c (flag b) → wins b p = true.
Proof.
  intros Hf Hg Hc. unfold wins. rewrite Hc, Hf, Hg. simpl.
  destruct (Z.geb_spec (C b - 2) (C b - 1 - 1)); [|lia]. by rewrite orb_true_r.
Qed.

Lemma goal_col_ok_mono over over' goal p cur :
  (over = true → over' = true) →
  goal_col_ok over goal p cur → goal_col_ok over' goal p cur.
Proof. intros Hm. destruct p; simpl; tauto. Qed.

(** A burst that ends in the column of the flag went along that row. *)
Lemma burst_step_goal_col b cur pick :
  c cur ≠ c (flag b) →
  c (add_pos cur (burst_step b cur pick)) = c (flag b) →
  r (add_pos cur (burst_step b cur pick)) = r (flag b).
Proof.
  intros Hne. unfold burst_step, flag_dir. simpl.
  pose proof (toward_zero (r (flag b)) (r cur)) as Hzr.
  pose proof (toward_zero (c (flag b)) (c cur)) as Hzc.
  destruct (Z.eqb_spec (Z.abs (toward (r (flag b)) (r cur))
                        + Z.abs (toward (c (flag b)) (c cur))) 0) as [E|E]; simpl.
  { assert (toward (c (flag b)) (c cur) = 0) as E0 by lia. apply Hzc in E0. lia. }
  destruct (Z.eqb_spec (toward (r (flag b)) (r cur)) 0) as [Er|Er]; simpl.
  - intros _. apply Hzr in Er. lia.
  - intros Hc. lia.
Qed.

Lemma run_worker_proposer t d s s' :
  sized s → proposer_ok s → run_worker t d s = Some s' →
  ∀ w' cur', workers s' !! t = Some w' → toonPos (board s') !! t = Some cur' →
    c cur' = c (flag (board s')) →
    goal_col_ok (gameOver s') (flag (board s')) (pc w') cur'.
Proof.
  intros Hsz Hok Hstep w' cur' Hw' Hcur' Hc.
  pose proof (run_worker_board _ _ _ _ Hstep) as Hb.
  pose proof (board_step_layout _ _ _ _ Hb) as Hlay.
  assert (flag (board s') = flag (board s)) as Hflag.
  { unfold layout in Hlay. by injection Hlay. }
  rewrite Hflag in *.
  assert (∃ w, workers s !! t = Some w) as [w Hw].
  { unfold run_worker in Hstep. destruct (workers s !! t); [eauto|done]. }
  assert (∃ cur, toonPos (board s) !! t = Some cur) as [cur Hcur].
  { apply lookup_lt_is_Some. rewrite (sz_pos _ Hsz), <- (sz_workers _ Hsz).
    by eapply lookup_lt_Some. }
  pose proof (Hok _ _ _ Hw Hcur) as IH.
  pose proof (list_lookup_total_correct _ _ _ Hcur) as Htot.
  pose proof (wins_goal_col (board s) cur (sz_finish _ Hsz) (sz_flag _ Hsz)) as Hwin.
  clear Hb Hlay Hok.
  worker_cases Hstep w0 Hw0 Hpc; (assert (w0 = w) as -> by congruence);
    cbn in Hw'; rewrite ?list_lookup_alter_eq, ?Hw0 in Hw'; cbn in Hw';
    injection Hw' as <-; cbn in *; rewrite Hpc in IH; simpl in IH.
  all: try (assert (cur' = cur) as -> by congruence).
  all: try (specialize (IH Hc)); try done; try tauto.
  - destruct (gameOver s); simpl; [done|]. by destruct IH.
  - by destruct (gStop s).
  - by destruct (_ <? _).
  - rewrite Htot, (Hwin Hc), andb_true_r. by destruct (gameOver s).
  - rewrite IH, andb_false_r. done.
  - apply IH. rewrite <- Hc.
    destruct (sam_block_cases (opt s) (board s) t (now s)) as [E | (k & _ & _ & _ & E)];
      rewrite E in Hcur'; simpl in Hcur'; congruence.
  - rewrite IH, andb_false_r. simpl. by left.
  - unfold burst_block in *. rewrite Htot in *.
    destruct (valid_dest _ _ _); simplify_eq.
    rewrite commit_move_pos in Hcur' by by eapply lookup_lt_Some.
    simplify_eq. by apply burst_step_goal_col.
Qed.

Lemma reachable_proposer s : reachable s → proposer_ok s.
Proof.
  revert s. apply reachable_ind.
  - intros o ds t0 s0 Hinit t w cur Hw Hcur Hc.
    pose proof (init_cols _ _ _ _ Hinit _ _ Hcur) as Hcol.
    pose proof (reachable_Inv _ (reachable_init _ _ _ _ Hinit)) as [Hsz _ _ _].
    rewrite (sz_flag _ Hsz) in Hc. simpl in Hc. lia.
  - intros e s s' Hreach IH Hstep t w' cur' Hw' Hcur' Hc.
    pose proof (gameOver_mono _ _ _ Hstep) as Hmono.
    destruct (reachable_Inv _ Hreach) as [Hsz _ _ _].
    assert ((∃ t d, e = Run t d) ∨ ¬ (∃ t d, e = Run t d)) as [(t' & d & ->)|Hne].
    { destruct e; eauto; right; intros (? & ? & ?); discriminate. }
    2: { destruct (step_env_frame e s s' Hstep) as (_ & Hb & Hw & _).
         { intros t' d ->. apply Hne. eauto. }
         rewrite Hb in *. rewrite Hw in Hw'.
         eapply goal_col_ok_mono; [exact Hmono|]. by eapply IH. }
    simpl in Hstep.
    destruct (decide (t = t')) as [->|Hn]; [by eapply run_worker_proposer|].
    pose proof (run_worker_frame _ _ _ _ Hstep) as (_ & _ & _ & _ & _ & _ & Hother).
    pose proof (run_worker_board _ _ _ _ Hstep) as Hb.
    pose proof (board_step_layout _ _ _ _ Hb) as Hlay.
    assert (flag (board s') = flag (board s)) as Hflag.
    { unfold layout in Hlay. by injection Hlay. }
    rewrite Hflag in *. rewrite Hother in Hw' by done.
    destruct (board_step_other _ _ _ _ t Hb Hn) as [Hpos _].
    assert (toonPos (board s) !! t = Some cur') as Hcur.
    { assert (is_Some (toonPos (board s) !! t)) as [x Hx].
      { apply lookup_lt_is_Some. rewrite (sz_pos _ Hsz), <- (sz_workers _ Hsz).
        by eapply lookup_lt_Some. }
      rewrite (list_lookup_total_correct _ _ _ Hx) in Hpos.
      rewrite (list_lookup_total_correct _ _ _ Hcur') in Hpos. congruence. }
    eapply goal_col_ok_mono; [exact Hmono|]. by eapply IH.
Qed.

(** ** The odds of the proposal *)

Lemma prob_app {A} (E : A → bool) (D1 D2 : Dist A) :
  (prob E (D1 ++ D2) == prob E D1 + prob E D2)%Q.
Proof.
  induction D1 as [|[w a] D1 IH]; simpl.
  - ring.
  - destruct (E a); [rewrite IH; ring | exact IH].
Qed.

Lemma prob_dscale {A} (E : A → bool) (w : Q) (D : Dist A) :
  (prob E (dscale w D) == w * prob E D)%Q.
Proof.
  induction D as [|[v a] D IH]; simpl.
  - ring.
  - destruct (E a); [rewrite IH; ring | exact IH].
Qed.

Lemma prob_dbind_cons {A B} (E : B → bool) (w : Q) (a : A) (D : Dist A) (f : A → Dist B) :
  (prob E (dbind ((w, a) :: D) f) == w * prob E (f a) + prob E (dbind D f))%Q.
Proof.
  unfold dbind at 1. simpl. rewrite prob_app, prob_dscale. reflexivity.
Qed.

Lemma prob_dbind_nil {A B} (E : B → bool) (f : A → Dist B) :
  (prob E (dbind [] f) == 0)%Q.
Proof. reflexivity. Qed.

Lemma prob_chance_lt {B} (E : B → bool) (p : Q) (f : bool → Dist B) :
  (prob E (dbind (chance_lt p) f) == p * prob E (f true) + (1 - p) * prob E (f false))%Q.
Proof.
  unfold chance_lt. rewrite !prob_dbind_cons, prob_dbind_nil. ring.
Qed.

Lemma prob_coin {B} (E : B → bool) (f : Z → Dist B) :
  (prob E (dbind (uniform_int_distribution 0 1) f)
   == (1 # 2) * prob E (f 0%Z) + (1 # 2) * prob E (f 1%Z))%Q.
Proof.
  change (uniform_int_distribution 0 1) with [((1 # 2)%Q, 0); ((1 # 2)%Q, 1)].
  rewrite !prob_dbind_cons, prob_dbind_nil. ring.
Qed.

Lemma prob_pick {B} (E : B → bool) (f : Z → Dist B) :
  (prob E (dbind (uniform_int_distribution 0 4) f)
   == (1 # 5) * (prob E (f 0%Z) + prob E (f 1%Z) + prob E (f 2%Z) + prob E (f 3%Z)
                 + prob E (f 4%Z)))%Q.
Proof.
  change (uniform_int_distribution 0 4)
    with [((1 # 5)%Q, 0); ((1 # 5)%Q, 1); ((1 # 5)%Q, 2); ((1 # 5)%Q, 3); ((1 # 5)%Q, 4)].
  rewrite !prob_dbind_cons, prob_dbind_nil. ring.
Qed.

Lemma prob_uniformly_cons {A} (E : A → bool) (n : positive) (x : A) (l : list A) :
  (prob E (map (λ y, ((1 # n)%Q, y)) (x :: l))
   == (1 # n) * prob E (dret x) + prob E (map (λ y, ((1 # n)%Q, y)) l))%Q.
Proof. simpl. destruct (E x); ring. Qed.

(** [pick_step] takes every entry of its table with probability 1/5. *)
Lemma prob_pick_step (E : Pos → bool) :
  (prob E pick_step_dist == prob E (uniformly dirs))%Q.
Proof.
  unfold pick_step_dist, uniformly, dirs. rewrite prob_pick.
  rewrite !prob_uniformly_cons. simpl length. simpl map.
  change (pick_step 0) with (mkPos (-1) 0). change (pick_step 1) with (mkPos 1 0).
  change (pick_step 2) with (mkPos 0 (-1)). change (pick_step 3) with (mkPos 0 1).
  change (pick_step 4) with (mkPos 0 0).
  change (prob E []) with 0%Q. change (Pos.of_nat 5) with 5%positive. ring.
Qed.

(** [propose_dist] is the distribution of [propose] under independent
    draws. *)
Lemma propose_dist_draws (b : Board) (t : nat) (E : Pos → bool) :
  (prob E (propose_dist b t) == prob (λ d, E (propose b t d)) propose_draws)%Q.
Proof.
  unfold propose_dist, propose_draws, pick_step_dist, propose. cbv zeta.
  destruct (r (flag_dir b (toonPos b !!! t)) =? 0);
    destruct (c (flag_dir b (toonPos b !!! t)) =? 0);
    rewrite !prob_chance_lt, !prob_coin; cbn [negb andb Z.eqb Pos.eqb];
    rewrite ?prob_pick; unfold dret, prob;
    cbn [foldr fst snd d_chance d_coin d_pick negb andb Z.eqb Pos.eqb]; ring.
Qed.

Lemma prob_axis {B} (E : B → bool) (f : Axis → Dist B) :
  (prob E (dbind (uniformly [RowAxis; ColAxis]) f)
   == (1 # 2) * prob E (f RowAxis) + (1 # 2) * prob E (f ColAxis))%Q.
Proof.
  change (uniformly [RowAxis; ColAxis]) with [((1 # 2)%Q, RowAxis); ((1 # 2)%Q, ColAxis)].
  rewrite !prob_dbind_cons, prob_dbind_nil. ring.
Qed.

(** Where a toon in the column of the flag is also in its row, the
    source draws its step with the odds of the specification. *)
Lemma propose_dist_as_claimed (b : Board) (t : nat) (E : Pos → bool) :
  (c (flag_dir b (toonPos b !!! t)) = 0 → r (flag_dir b (toonPos b !!! t)) = 0) →
  (prob E (propose_dist b t) == prob E (propose_dist_claimed b t))%Q.
Proof.
  intros Hpos. unfold propose_dist, propose_dist_claimed. cbv zeta.
  destruct (Z.eqb_spec (r (flag_dir b (toonPos b !!! t))) 0) as [Er|Er];
    destruct (Z.eqb_spec (c (flag_dir b (toonPos b !!! t))) 0) as [Ec|Ec];
    cbn [negb andb]; try (by destruct Er; apply Hpos);
    rewrite ?prob_chance_lt, ?prob_coin, ?prob_axis; cbn [negb andb Z.eqb Pos.eqb];
    rewrite ?prob_pick_step; ring.
Qed.

Lemma propose_as_claimed (b : Board) (t : nat) (d : Draws) :
  (c (flag_dir b (toonPos b !!! t)) = 0 → r (flag_dir b (toonPos b !!! t)) = 0) →
  draws_ok d = true → propose b t d = propose_claimed b t d.
Proof.
  intros Hpos Hd. unfold draws_ok in Hd. rewrite !andb_true_iff, !Z.leb_le in Hd.
  destruct Hd as [[[Hc0 Hc1] _] _].
  unfold propose, propose_claimed. cbv zeta.
  destruct (Z.eqb_spec (r (flag_dir b (toonPos b !!! t))) 0) as [Er|Er];
    destruct (Z.eqb_spec (c (flag_dir b (toonPos b !!! t))) 0) as [Ec|Ec];
    try (by destruct Er; apply Hpos);
    destruct (d_chance d); cbn [negb andb]; rewrite ?andb_false_r, ?andb_true_r;
    try done; destruct (Z.eqb_spec (d_coin d) 0); cbn [negb andb]; congruence.
Qed.

Lemma solo_propose_reachable : reachable solo_propose.
Proof.
  apply (run_reachable solo_options solo_draws solo_propose_events). by vm_compute.
Qed.

(** C6. A toon that proposes a step (a worker inside the first guarded
    block of its tick) is never in the column of the flag without being
    on the flag.  For every draw its step follows the rule of the claim:
    in the biased branch the drawn axis if it is not aligned, else the
    other, unaligned one, each time one cell toward the flag; the uniform
    pick in the unbiased branch and when both axes are aligned.  The
    draws are the bias test [chance < 0.70], true with probability 70%,
    a coin with even odds and one of five equally likely table entries;
    the step so drawn has the odds the claim gives it. *)
Theorem C6_propose_rule (s : Race) (t : nat) (w : Worker) (cur : Pos) :
  reachable s → workers s !! t = Some w → pc w = ProposeBlock →
  toonPos (board s) !! t = Some cur →
  let b := board s in
  let goal := flag b in
  let row_step := mkPos (Z.sgn (r goal - r cur)) 0 in
  let col_step := mkPos 0 (Z.sgn (c goal - c cur)) in
  (c cur = c goal → r cur = r goal)
  ∧ (∀ d, draws_ok d = true →
       propose b t d = propose_claimed b t d
       ∧ (d_chance d = true → d_coin d = 0 → r cur ≠ r goal → propose b t d = row_step)
       ∧ (d_chance d = true → d_coin d = 0 → r cur = r goal → c cur ≠ c goal →
          propose b t d = col_step)
       ∧ (d_chance d = true → d_coin d = 1 → c cur ≠ c goal → propose b t d = col_step)
       ∧ (d_chance d = true → d_coin d = 1 → c cur = c goal →
          r cur = r goal ∧ propose b t d = pick_step (d_pick d))
       ∧ (d_chance d = true → r cur = r goal → c cur = c goal →
          propose b t d = pick_step (d_pick d))
       ∧ (d_chance d = false → propose b t d = pick_step (d_pick d)))
  ∧ (r cur ≠ r goal →
     Z.abs (r goal - (r cur + r row_step)) = Z.abs (r goal - r cur) - 1)
  ∧ (c cur ≠ c goal →
     Z.abs (c goal - (c cur + c col_step)) = Z.abs (c goal - c cur) - 1)
  ∧ (∀ E, prob E (propose_dist b t) == prob (λ d, E (propose b t d)) propose_draws)%Q
  ∧ (∀ E, prob E (propose_dist b t) == prob E (propose_dist_claimed b t))%Q
  ∧ (prob (λ _, true) propose_draws == 1)%Q
  ∧ (prob d_chance propose_draws == 0.70)%Q
  ∧ (prob (λ d, d_chance d && (d_coin d =? 0)) propose_draws == 0.35)%Q
  ∧ (prob (λ d, d_chance d && (d_coin d =? 1)) propose_draws == 0.35)%Q
  ∧ (∀ p, p ∈ dirs → prob (λ q, bool_decide (q = p)) pick_step_dist == 1 # 5)%Q.
Proof.
  intros Hreach Hw Hpc Hcur b goal row_step col_step.
  pose proof (reachable_proposer _ Hreach _ _ _ Hw Hcur) as Hok.
  rewrite Hpc in Hok. simpl in Hok. fold b goal in Hok.
  assert (c (flag_dir b (toonPos b !!! t)) = 0 → r (flag_dir b (toonPos b !!! t)) = 0)
    as Hpos.
  { rewrite (list_lookup_total_correct _ _ _ Hcur). unfold flag_dir. simpl.
    rewrite !toward_zero. exact Hok. }
  split; [exact Hok|].
  split.
  { intros d Hd.
    destruct (propose_cases b t cur d Hcur Hd) as (P1 & P2 & P3 & P4 & P5 & P6 & _).
    split; [by apply propose_as_claimed|].
    split; [exact P1|]. split; [exact P2|]. split; [exact P3|].
    split; [|split; [exact P5 | exact P6]].
    intros Hch Hco Hc. split; [by apply Hok | by apply P4]. }
  split; [simpl; lia|]. split; [simpl; lia|].
  split; [intros E; apply propose_dist_draws|].
  split; [intros E; by apply propose_dist_as_claimed|].
  split; [by vm_compute|]. split; [by vm_compute|].
  split; [by vm_compute|]. split; [by vm_compute|].
  intros p Hp. unfold dirs in Hp. rewrite !elem_of_cons, elem_of_nil in Hp.
  destruct Hp as [-> | [-> | [-> | [-> | [-> | []]]]]]; by vm_compute.
Qed.

(** The lone RoadRunner proposes from two cells left of the flag: with
    the column drawn it steps along the row of the flag toward it. *)
Lemma C6_propose_rule_witness :
  propose (board solo_propose) ROADRUNNER go_draw = mkPos 0 1
  ∧ propose_claimed (board solo_propose) ROADRUNNER go_draw = mkPos 0 1.
Proof.
  destruct (C6_propose_rule solo_propose ROADRUNNER
              (mkWorker ProposeBlock (mkPos 0 0) false) (mkPos 2 16)
              solo_propose_reachable eq_refl eq_refl eq_refl) as (_ & H & _).
  destruct (H go_draw eq_refl) as (H1 & _ & _ & H3 & _).
  split; [|rewrite <- H1]; apply H3; [reflexivity | reflexivity | discriminate
                                     | reflexivity | reflexivity | discriminate].
Defined.
